(** * Indexa: a promise-based wrapper over IndexedDB

    A shallow embedding of [src/src/indexa.ts] (class [Indexa]) together
    with an executable model of the part of the IndexedDB engine the
    class talks to.  The class is a thin asynchronous layer: every method
    awaits the memoized connection promise, opens one transaction, issues
    engine requests and turns the engine's success / error events into a
    settled promise.  Mutating methods start [notify] without awaiting
    it; the model keeps such started-but-unfinished continuations in a
    job queue ([jobs]) and runs them with [run_jobs].

    Conventions.
    - A promise that has settled is a value of [Settled]; [M A] is the
      state-and-rejection monad in which the [async] methods are written.
    - The engine appends an [Event] to [log] for every call it serves, so
      theorems can speak about which requests were issued and what the
      engine answered.
    - [faults] is a script of engine failures: every asynchronous engine
      request consumes one entry, and [Some e] makes that request fire
      its error event with [e] (an I/O error, a quota error, ...).
    - JavaScript numbers are modelled by [Z], records by flat objects
      ([gmap string JsVal]), key paths by a single property name.
    - A promise that never settles is outside the model: an upgrade
      blocked by another connection, an [iterate] callback that throws.
      Listeners and callbacks do not call back into the instance.
    - Console tracing ([debugLog]) is left out: no statement below
      observes the console. *)

From Stdlib Require Import ZArith String List Lia.
From Stdlib Require Structures.OrderedTypeEx.
From stdpp Require Import base option list sorting gmap strings.

(** ** Keys, values and thrown objects *)

(** [IDBValidKey], restricted to numbers and strings. *)
Inductive Key :=
| KNum (n : Z)
| KStr (s : string).

(** Property values of a stored record. *)
Inductive JsVal :=
| JNum (n : Z)
| JStr (s : string)
| JBool (b : bool)
| JNull.

(** A record is a flat JavaScript object; [gmap] equality is deep equality. *)
Abbreviation Value := (gmap string JsVal).

Global Instance Key_eq_dec : EqDecision Key.
Proof. solve_decision. Defined.

Global Instance JsVal_eq_dec : EqDecision JsVal.
Proof. solve_decision. Defined.

Definition Key_to_sum (k : Key) : Z + string :=
  match k with KNum n => inl n | KStr s => inr s end.

Definition Key_of_sum (x : Z + string) : Key :=
  match x with inl n => KNum n | inr s => KStr s end.

Global Instance Key_countable : Countable Key.
Proof. refine (inj_countable' Key_to_sum Key_of_sum _). by intros []. Defined.

(** The error objects the engine reports ([request.error]) or throws:
    the [DOMException] names used by IndexedDB, and [TypeError]. *)
Inductive EngineError :=
| ConstraintError
| DataError
| NotFoundError
| VersionError
| InvalidStateError
| ReadOnlyError
| AbortError
| QuotaExceededError
| UnknownError
| TypeError.

Global Instance EngineError_eq_dec : EqDecision EngineError.
Proof. solve_decision. Defined.

(** The error kinds named by the specification's taxonomy. *)
Inductive ErrorKind := OpenError | TransactionError | RequestError | BlockedError.

(** What a promise can be rejected with.  [Raw e] is the engine's own
    error object, [JsError msg] is [new Error(msg)], and [Taxonomy k e]
    is an engine error wrapped as taxonomy kind [k]; the class contains
    no expression that builds the latter. *)
Inductive Thrown :=
| Raw (e : EngineError)
| JsError (msg : string)
| Taxonomy (k : ErrorKind) (e : EngineError).

Global Instance ErrorKind_eq_dec : EqDecision ErrorKind.
Proof. solve_decision. Defined.

Global Instance Thrown_eq_dec : EqDecision Thrown.
Proof. solve_decision. Defined.

Inductive Settled (A : Type) :=
| Resolved (a : A)
| Rejected (e : Thrown).
Arguments Resolved {A} a.
Arguments Rejected {A} e.

(** ** Key order *)

Definition Key_compare (a b : Key) : comparison :=
  match a, b with
  | KNum x, KNum y => Z.compare x y
  | KNum _, KStr _ => Lt
  | KStr _, KNum _ => Gt
  | KStr s, KStr t => String.compare s t
  end.

Definition key_leb (a b : Key) : bool :=
  match Key_compare a b with Gt => false | _ => true end.

Definition key_lt (a b : Key) : Prop := Key_compare a b = Lt.

(** Entries of a store are ordered by their key. *)
Definition entry_le (a b : Key * Value) : Prop := key_leb a.1 b.1 = true.

Global Instance entry_le_dec : RelDecision entry_le.
Proof. intros a b. unfold entry_le. apply _. Defined.

(** ** The engine's data *)

Record ObjectStore := mkObjectStore {
  os_keyPath : string;
  os_autoIncrement : bool;
  os_generator : Z;                  (* the key generator's current number *)
  os_records : gmap Key Value;
  os_indexes : gmap string string    (* index name -> indexed property *)
}.

Record Database := mkDatabase {
  db_version : N;
  db_stores : gmap string ObjectStore
}.

Inductive IDBTransactionMode := readonly | readwrite.

(** Handles handed out by the engine. *)
Record IDBDatabase := mkIDBDatabase { conn_id : nat; conn_name : string }.
Record IDBTransaction := mkIDBTransaction {
  tx_db : IDBDatabase; tx_scope : string; tx_mode : IDBTransactionMode }.
Record IDBObjectStore := mkIDBObjectStore {
  st_db : IDBDatabase; st_name : string; st_mode : IDBTransactionMode }.
Record IDBIndex := mkIDBIndex { ix_store : IDBObjectStore; ix_name : string; ix_path : string }.

(** [IDBValidKey | IDBKeyRange]. *)
Inductive Query :=
| QKey (k : Key)
| QRange (lower upper : option Key) (lowerOpen upperOpen : bool).

Inductive Request :=
| RqAdd (v : Value)
| RqPut (v : Value)
| RqGet (k : Key)
| RqGetAll
| RqDelete (k : Key)
| RqClear
| RqCount
| RqGetKey (k : Key)
| RqIndexGetAll (idx : string) (q : Query).

(** What the engine and the callbacks did, in chronological order. *)
Inductive Event :=
| EvOpen (name : string) (version : N) (err : option EngineError)
| EvTransaction (store : string) (mode : IDBTransactionMode) (err : option EngineError)
| EvIndex (store idx : string) (err : option EngineError)
| EvException (store : string) (rq : Request) (e : EngineError)
| EvRequest (store : string) (rq : Request) (err : option EngineError)
| EvCursor (store : string) (position : option Key) (err : option EngineError)
| EvCallback (v : Value) (k : Key)
| EvListener (ref : nat) (data : list Value)
| EvClose (conn : nat)
| EvDeleteDatabase (name : string) (err : option EngineError)
| EvDeleteBlocked (name : string).

(** ** The class's data *)

Record StoreConfig := mkStoreConfig { keyPath : string; autoIncrement : option bool }.

(** A [Subscriber<T>]: a function object.  [ref] is the object's
    identity (what [indexOf] compares with [===]); [call] is what a call
    does: it returns normally ([None]) or throws. *)
Record Subscriber := mkSubscriber { ref : nat; call : list Value → option Thrown }.

Record Indexa := mkIndexa {
  dbName : string;
  dbVersion : N;
  stores : gmap string StoreConfig;
  dbPromise : Settled IDBDatabase;
  subscribers : gmap string (list Subscriber)
}.

(** A continuation that was started and not awaited. *)
Inductive Job :=
| JNotify (storeName : string)                      (* this.notify(storeName) *)
| JDeliver (storeName : string) (cb : Subscriber).  (* this.getAll(storeName).then(cb) *)

Record Browser := mkBrowser {
  databases : gmap string Database;
  connections : list (nat * string);   (* open connections: id, database *)
  next_conn : nat;
  faults : list (option EngineError);
  log : list Event;
  jobs : list Job;
  unhandled : list Thrown              (* unhandled promise rejections *)
}.

Record World := mkWorld { host : Browser; this : Indexa }.

(** ** Record updates *)

Definition set_databases (d : gmap string Database) (h : Browser) : Browser :=
  mkBrowser d (connections h) (next_conn h) (faults h) (log h) (jobs h) (unhandled h).
Definition set_connections (c : list (nat * string)) (h : Browser) : Browser :=
  mkBrowser (databases h) c (next_conn h) (faults h) (log h) (jobs h) (unhandled h).
Definition set_next_conn (n : nat) (h : Browser) : Browser :=
  mkBrowser (databases h) (connections h) n (faults h) (log h) (jobs h) (unhandled h).
Definition set_faults (f : list (option EngineError)) (h : Browser) : Browser :=
  mkBrowser (databases h) (connections h) (next_conn h) f (log h) (jobs h) (unhandled h).
Definition set_log (l : list Event) (h : Browser) : Browser :=
  mkBrowser (databases h) (connections h) (next_conn h) (faults h) l (jobs h) (unhandled h).
Definition set_jobs (j : list Job) (h : Browser) : Browser :=
  mkBrowser (databases h) (connections h) (next_conn h) (faults h) (log h) j (unhandled h).
Definition set_unhandled (u : list Thrown) (h : Browser) : Browser :=
  mkBrowser (databases h) (connections h) (next_conn h) (faults h) (log h) (jobs h) u.

Definition set_records (r : gmap Key Value) (os : ObjectStore) : ObjectStore :=
  mkObjectStore (os_keyPath os) (os_autoIncrement os) (os_generator os) r (os_indexes os).

Definition set_subscribers (s : gmap string (list Subscriber)) (i : Indexa) : Indexa :=
  mkIndexa (dbName i) (dbVersion i) (stores i) (dbPromise i) s.

(** ** The engine *)

(** Modelled from the spec: the storage engine.  The class calls the
    browser's IndexedDB, which is no part of the repository; the
    specification names what the class needs from it (sections 1, 3, 4.3,
    5 and 6): open with store creation on a version upgrade, stores
    ordered by key with a key path and an optional key generator, unique
    keys, index lookup, cursors that ascend in key order, transactions
    that abort when a request fails, and a delete that is blocked by an
    open connection.  Section 8 gives a run with generated keys: [add] of
    [{name: "Alice"}] resolves with 1 and the stored record is
    [{id: 1, name: "Alice"}].  Each definition of this module is the
    engine's side of one call the class makes. *)
Module Engine.

Definition record_event (ev : Event) (h : Browser) : Browser :=
  set_log (log h ++ [ev]) h.

(** The next entry of the failure script. *)
Definition take_fault (h : Browser) : option EngineError * Browser :=
  match faults h with
  | [] => (None, h)
  | f :: fs => (f, set_faults fs h)
  end.

(** [indexedDB.open(name, version)] with the given upgrade handler.  A
    version below the stored one is a [VersionError]; a version above it
    (or a database that does not exist yet, stored version 0) runs the
    upgrade handler.  Version 0 makes the call itself throw.  An upgrade
    is served at once, as the engine does when no other connection to
    the database is open; with one open the request would wait for it to
    close, and that wait is not modelled. *)
Definition open (name : string) (version : N) (onupgradeneeded : Database → Database)
    (h : Browser) : (IDBDatabase + EngineError) * Browser :=
  if decide (version = 0%N) then
    (inr TypeError, record_event (EvOpen name version (Some TypeError)) h)
  else
    let '(f, h) := take_fault h in
    match f with
    | Some e => (inr e, record_event (EvOpen name version (Some e)) h)
    | None =>
      let old := default (mkDatabase 0 ∅) (databases h !! name) in
      if decide (version < db_version old)%N then
        (inr VersionError, record_event (EvOpen name version (Some VersionError)) h)
      else
        let db := if decide (db_version old < version)%N
                  then mkDatabase version (db_stores (onupgradeneeded old))
                  else old in
        let c := next_conn h in
        (inl (mkIDBDatabase c name),
         record_event (EvOpen name version None)
           (set_next_conn (S c)
              (set_connections (connections h ++ [(c, name)])
                 (set_databases (<[name := db]> (databases h)) h))))
    end.

(** [db.createObjectStore(storeName, {keyPath, autoIncrement})]. *)
Definition createObjectStore (storeName : string) (config : StoreConfig) (db : Database)
    : Database :=
  mkDatabase (db_version db)
    (<[storeName := mkObjectStore (keyPath config) (default false (autoIncrement config)) 1 ∅ ∅]>
       (db_stores db)).

(** [db.objectStoreNames.contains(storeName)]. *)
Definition contains (db : Database) (storeName : string) : bool :=
  bool_decide (is_Some (db_stores db !! storeName)).

(** [db.close()]. *)
Definition close (db : IDBDatabase) (h : Browser) : Browser :=
  record_event (EvClose (conn_id db))
    (set_connections (filter (λ c, c.1 ≠ conn_id db) (connections h)) h).

(** [indexedDB.deleteDatabase(name)]: the answer is [inl None] for the
    success event, [inl (Some tt)] for the blocked event (a connection
    to the database is still open) and [inr e] for the error event. *)
Definition deleteDatabase (name : string) (h : Browser)
    : (option unit + EngineError) * Browser :=
  let '(f, h) := take_fault h in
  match f with
  | Some e => (inr e, record_event (EvDeleteDatabase name (Some e)) h)
  | None =>
    if bool_decide (Exists (λ c, c.2 = name) (connections h)) then
      (inl (Some tt), record_event (EvDeleteBlocked name) h)
    else
      (inl None, record_event (EvDeleteDatabase name None)
                   (set_databases (delete name (databases h)) h))
  end.

(** [db.transaction(storeName, mode)] throws on a closed connection and
    on a store the database does not have. *)
Definition transaction_error (db : IDBDatabase) (storeName : string) (h : Browser)
    : option EngineError :=
  if bool_decide ((conn_id db, conn_name db) ∈ connections h) then
    match databases h !! conn_name db ≫= (λ d, db_stores d !! storeName) with
    | Some _ => None
    | None => Some NotFoundError
    end
  else Some InvalidStateError.

Definition transaction (db : IDBDatabase) (storeName : string) (mode : IDBTransactionMode)
    (h : Browser) : (IDBTransaction + EngineError) * Browser :=
  let err := transaction_error db storeName h in
  (match err with
   | None => inl (mkIDBTransaction db storeName mode)
   | Some e => inr e
   end,
   record_event (EvTransaction storeName mode err) h).

(** [tx.objectStore(name)]. *)
Definition objectStore (tx : IDBTransaction) (name : string) : IDBObjectStore + EngineError :=
  if decide (name = tx_scope tx)
  then inl (mkIDBObjectStore (tx_db tx) name (tx_mode tx))
  else inr NotFoundError.

Definition lookup_store (st : IDBObjectStore) (h : Browser) : option ObjectStore :=
  databases h !! conn_name (st_db st) ≫= (λ d, db_stores d !! st_name st).

Definition write_store (st : IDBObjectStore) (os : ObjectStore) (h : Browser) : Browser :=
  set_databases
    (alter (λ d, mkDatabase (db_version d) (<[st_name st := os]> (db_stores d)))
       (conn_name (st_db st)) (databases h)) h.

(** One asynchronous request against a store: the engine fires either
    the success event with a result or the error event.  An error leaves
    the store as it was (the transaction aborts). *)
Definition request {A} (st : IDBObjectStore) (rq : Request)
    (serve : ObjectStore → (A * ObjectStore) + EngineError)
    (h : Browser) : (A + EngineError) * Browser :=
  let '(f, h) := take_fault h in
  match f with
  | Some e => (inr e, record_event (EvRequest (st_name st) rq (Some e)) h)
  | None =>
    match lookup_store st h with
    | None =>
      (inr InvalidStateError,
       record_event (EvRequest (st_name st) rq (Some InvalidStateError)) h)
    | Some os =>
      match serve os with
      | inl (a, os') =>
        (inl a, record_event (EvRequest (st_name st) rq None) (write_store st os' h))
      | inr e => (inr e, record_event (EvRequest (st_name st) rq (Some e)) h)
      end
    end
  end.

Definition js_to_key (v : JsVal) : option Key :=
  match v with
  | JNum n => Some (KNum n)
  | JStr s => Some (KStr s)
  | _ => None
  end.

Definition key_to_js (k : Key) : JsVal :=
  match k with KNum n => JNum n | KStr s => JStr s end.

(** The key a value carries at the store's key path: [inl None] when the
    property is absent and the key generator will supply it. *)
Definition extract_key (os : ObjectStore) (value : Value) : option Key + EngineError :=
  match value !! os_keyPath os with
  | Some x =>
    match js_to_key x with
    | Some k => inl (Some k)
    | None => inr DataError
    end
  | None => if os_autoIncrement os then inl None else inr DataError
  end.

(** The checks [store.add] / [store.put] make before they queue the
    request; a failure is thrown by the call itself. *)
Definition prepare (st : IDBObjectStore) (value : Value) (h : Browser)
    : option Key + EngineError :=
  match st_mode st with
  | readonly => inr ReadOnlyError
  | readwrite =>
    match lookup_store st h with
    | None => inr InvalidStateError
    | Some os => extract_key os value
    end
  end.

(** Modelled from the spec: storing a record (sections 3 and 8).  A
    missing key is generated and written into the stored copy at the key
    path; an explicit numeric key at or above the generator advances it;
    [add] ([no_overwrite]) refuses a key that is already present. *)
Definition store_record (no_overwrite : bool) (value : Value) (key : option Key)
    (os : ObjectStore) : (Key * ObjectStore) + EngineError :=
  let '(k, v, gen) :=
    match key with
    | Some (KNum n) =>
      (KNum n, value,
       if os_autoIncrement os && (os_generator os <=? n)%Z
       then (n + 1)%Z else os_generator os)
    | Some k => (k, value, os_generator os)
    | None =>
      (KNum (os_generator os),
       <[os_keyPath os := JNum (os_generator os)]> value,
       (os_generator os + 1)%Z)
    end in
  if no_overwrite && bool_decide (is_Some (os_records os !! k)) then inr ConstraintError
  else inl (k, mkObjectStore (os_keyPath os) (os_autoIncrement os) gen
                 (<[k := v]> (os_records os)) (os_indexes os)).

Definition put_rq (no_overwrite : bool) (value : Value) : Request :=
  if no_overwrite then RqAdd value else RqPut value.

(** [store.add(value)] ([no_overwrite]) and [store.put(value)] followed
    by the event the engine fires for it. *)
Definition put (no_overwrite : bool) (st : IDBObjectStore) (value : Value) (h : Browser)
    : (Key + EngineError) * Browser :=
  match prepare st value h with
  | inr e => (inr e, record_event (EvException (st_name st) (put_rq no_overwrite value) e) h)
  | inl key =>
    request st (put_rq no_overwrite value) (store_record no_overwrite value key) h
  end.

(** Modelled from the spec: the records of a store in its key order,
    ascending (section 5); numbers sort before strings. *)
Definition entries (os : ObjectStore) : list (Key * Value) :=
  merge_sort entry_le (map_to_list (os_records os)).

Definition get (st : IDBObjectStore) (key : Key) :=
  request st (RqGet key) (λ os, inl (os_records os !! key, os)).

Definition getAll (st : IDBObjectStore) :=
  request st RqGetAll (λ os, inl ((entries os).*2, os)).

Definition getKey (st : IDBObjectStore) (key : Key) :=
  request st (RqGetKey key) (λ os, inl (const key <$> os_records os !! key, os)).

Definition count (st : IDBObjectStore) :=
  request st RqCount (λ os, inl (size (os_records os), os)).

Definition delete (st : IDBObjectStore) (key : Key) (h : Browser)
    : (unit + EngineError) * Browser :=
  match st_mode st with
  | readonly => (inr ReadOnlyError, record_event (EvException (st_name st) (RqDelete key) ReadOnlyError) h)
  | readwrite =>
    request st (RqDelete key) (λ os, inl (tt, set_records (base.delete key (os_records os)) os)) h
  end.

Definition clear (st : IDBObjectStore) (h : Browser) : (unit + EngineError) * Browser :=
  match st_mode st with
  | readonly => (inr ReadOnlyError, record_event (EvException (st_name st) RqClear ReadOnlyError) h)
  | readwrite => request st RqClear (λ os, inl (tt, set_records ∅ os)) h
  end.

(** [store.index(name)]: throws when the store has no such index. *)
Definition index (st : IDBObjectStore) (name : string) (h : Browser)
    : (IDBIndex + EngineError) * Browser :=
  match lookup_store st h ≫= (λ os, os_indexes os !! name) with
  | Some path => (inl (mkIDBIndex st name path), record_event (EvIndex (st_name st) name None) h)
  | None => (inr NotFoundError, record_event (EvIndex (st_name st) name (Some NotFoundError)) h)
  end.

Definition in_query (q : Query) (k : Key) : bool :=
  match q with
  | QKey k' => bool_decide (k = k')
  | QRange lower upper lowerOpen upperOpen =>
    match lower with
    | None => true
    | Some l => match Key_compare l k with Lt => true | Eq => negb lowerOpen | Gt => false end
    end &&
    match upper with
    | None => true
    | Some u => match Key_compare k u with Lt => true | Eq => negb upperOpen | Gt => false end
    end
  end.

(** Index entries are ordered by index key, then by primary key. *)
Definition index_le (a b : Key * (Key * Value)) : Prop :=
  match Key_compare a.1 b.1 with
  | Lt => True
  | Eq => key_leb a.2.1 b.2.1 = true
  | Gt => False
  end.

Global Instance index_le_dec : RelDecision index_le.
Proof. intros a b. unfold index_le. destruct (Key_compare a.1 b.1); apply _. Defined.

Definition index_entries (path : string) (q : Query) (os : ObjectStore)
    : list (Key * (Key * Value)) :=
  merge_sort index_le
    (omap (λ e : Key * Value,
             ik ← e.2 !! path ≫= js_to_key;
             if in_query q ik then Some (ik, e) else None)
          (map_to_list (os_records os))).

(** [index.getAll(query)]. *)
Definition index_getAll (ix : IDBIndex) (q : Query) :=
  request (ix_store ix) (RqIndexGetAll (ix_name ix) q)
    (λ os, inl ((index_entries (ix_path ix) q os).*2.*2, os)).

(** Modelled from the spec: the records a cursor opened by
    [store.openCursor()] will visit, all records in key order (section
    4.3). *)
Definition openCursor (st : IDBObjectStore) (h : Browser) : list (Key * Value) :=
  from_option entries [] (lookup_store st h).

(** The event fired for [store.openCursor()] and for [cursor.continue()]:
    the cursor at its next record, [None] once the records are
    exhausted, or an error. *)
Definition cursor_event (st : IDBObjectStore) (next : option (Key * Value)) (h : Browser)
    : (option (Key * Value) + EngineError) * Browser :=
  let '(f, h) := take_fault h in
  match f with
  | Some e => (inr e, record_event (EvCursor (st_name st) None (Some e)) h)
  | None => (inl next, record_event (EvCursor (st_name st) (fst <$> next) None) h)
  end.

(** *** Several requests in one transaction

    [values.map(value => new Promise(... store.add(value) ...))] first
    makes every call (a call that throws queues nothing), and the engine
    then serves the queued requests in order.  The first request that
    fails aborts the transaction: the store is rolled back and every
    request still queued fails with [AbortError]. *)

Inductive Item :=
| Threw (e : EngineError)
| Queued (value : Value) (key : option Key).

Inductive ItemOutcome :=
| ThrewAtCall (e : EngineError)
| Fired (r : Key + EngineError).

Fixpoint issue (no_overwrite : bool) (st : IDBObjectStore) (values : list Value)
    (h : Browser) : list Item * Browser :=
  match values with
  | [] => ([], h)
  | value :: rest =>
    match prepare st value h with
    | inr e =>
      let '(items, h') :=
        issue no_overwrite st rest
          (record_event (EvException (st_name st) (put_rq no_overwrite value) e) h) in
      (Threw e :: items, h')
    | inl key =>
      let '(items, h') := issue no_overwrite st rest h in
      (Queued value key :: items, h')
    end
  end.

Definition rollback (st : IDBObjectStore) (saved : option ObjectStore) (h : Browser)
    : Browser :=
  match saved with
  | Some os => write_store st os h
  | None => h
  end.

Fixpoint serve (no_overwrite : bool) (st : IDBObjectStore) (saved : option ObjectStore)
    (aborted : bool) (items : list Item) (h : Browser) : list ItemOutcome * Browser :=
  match items with
  | [] => ([], h)
  | Threw e :: rest =>
    let '(outs, h') := serve no_overwrite st saved aborted rest h in
    (ThrewAtCall e :: outs, h')
  | Queued value key :: rest =>
    if aborted then
      let '(outs, h') :=
        serve no_overwrite st saved true rest
          (record_event (EvRequest (st_name st) (put_rq no_overwrite value) (Some AbortError)) h) in
      (Fired (inr AbortError) :: outs, h')
    else
      match request st (put_rq no_overwrite value) (store_record no_overwrite value key) h with
      | (inl k, h1) =>
        let '(outs, h') := serve no_overwrite st saved false rest h1 in
        (Fired (inl k) :: outs, h')
      | (inr e, h1) =>
        let '(outs, h') := serve no_overwrite st saved true rest (rollback st saved h1) in
        (Fired (inr e) :: outs, h')
      end
  end.

(** All the [add] / [put] calls of one bulk operation and their events. *)
Definition put_all (no_overwrite : bool) (st : IDBObjectStore) (values : list Value)
    (h : Browser) : list ItemOutcome * Browser :=
  let '(items, h1) := issue no_overwrite st values h in
  serve no_overwrite st (lookup_store st h1) false items h1.

End Engine.

(** ** Promises *)

(** [M A] is an [async] computation returning [A]: it runs on the world
    and settles.  [≫=] is [await]: a rejection skips the continuation. *)
Definition M (A : Type) : Type := World → Settled A * World.

Global Instance M_ret : MRet M := λ A a w, (Resolved a, w).

Global Instance M_bind : MBind M := λ A B f m w,
  match m w with
  | (Resolved a, w') => f a w'
  | (Rejected e, w') => (Rejected e, w')
  end.

Definition throw {A} (e : Thrown) : M A := λ w, (Rejected e, w).

(** Reading a field of [this]. *)
Definition field {A} (f : Indexa → A) : M A := λ w, (Resolved (f (this w)), w).

(** [await p] for a promise stored in [this]. *)
Definition await {A} (p : Indexa → Settled A) : M A := λ w, (p (this w), w).

(** The adapter every method writes out: the success event resolves the
    promise with [request.result], the error event rejects it with
    [request.error], and an exception thrown by the call rejects it with
    the exception. *)
Definition promise {A} (rq : Browser → (A + EngineError) * Browser) : M A := λ w,
  let '(r, h) := rq (host w) in
  (match r with inl a => Resolved a | inr e => Rejected (Raw e) end, mkWorld h (this w)).

(** A call into the engine that cannot fail, and a look at its state. *)
Definition on_host (f : Browser → Browser) : M unit := λ w,
  (Resolved tt, mkWorld (f (host w)) (this w)).

Definition ask_host {A} (f : Browser → A) : M A := λ w, (Resolved (f (host w)), w).

(** Calling an [async] function without awaiting it: it runs later. *)
Definition start (j : Job) : M unit := on_host (λ h, set_jobs (jobs h ++ [j]) h).

Definition emit (ev : Event) : M unit := on_host (Engine.record_event ev).

(** [Promise.all] over the item promises of a bulk operation.  Promises
    rejected by a throwing call are already rejected when [Promise.all]
    looks at them, so the first of those wins; otherwise the first error
    event does. *)
Definition first_threw (outs : list Engine.ItemOutcome) : option EngineError :=
  head (omap (λ o, match o with Engine.ThrewAtCall e => Some e | _ => None end) outs).

Definition first_failed (outs : list Engine.ItemOutcome) : option EngineError :=
  head (omap (λ o, match o with Engine.Fired (inr e) => Some e | _ => None end) outs).

Definition results_of (outs : list Engine.ItemOutcome) : list Key :=
  omap (λ o, match o with Engine.Fired (inl k) => Some k | _ => None end) outs.

Definition Promise_all (outs : list Engine.ItemOutcome) : M (list Key) :=
  match first_threw outs with
  | Some e => throw (Raw e)
  | None =>
    match first_failed outs with
    | Some e => throw (Raw e)
    | None => mret (results_of outs)
    end
  end.

(** ** The class *)

(** The registry [subscribers] starts as the plain object [{}], so a
    lookup [this.subscribers[storeName]] also finds what [Object.prototype]
    has under that name: for the names below it is an inherited function
    or object, never [undefined] and never an array. *)
Definition prototype_names : list string :=
  [ "constructor"%string; "hasOwnProperty"%string; "isPrototypeOf"%string;
    "propertyIsEnumerable"%string; "toLocaleString"%string; "toString"%string;
    "valueOf"%string; "__proto__"%string; "__defineGetter__"%string;
    "__defineSetter__"%string; "__lookupGetter__"%string; "__lookupSetter__"%string ].

Definition inherited (storeName : string) : bool :=
  bool_decide (storeName ∈ prototype_names).

Module Wrapper.

(** The [onupgradeneeded] handler of [init]: every store of the schema
    that the database does not have yet is created. *)
Definition onupgradeneeded (stores : gmap string StoreConfig) (db : Database) : Database :=
  map_fold
    (λ storeName config db,
       if Engine.contains db storeName then db
       else Engine.createObjectStore storeName config db)
    db stores.

Definition init (name : string) (version : N) (stores : gmap string StoreConfig)
    (h : Browser) : Settled IDBDatabase * Browser :=
  let '(r, h') := Engine.open name version (onupgradeneeded stores) h in
  (match r with inl db => Resolved db | inr e => Rejected (Raw e) end, h').

(** [new Indexa(name, version, stores)]: [dbPromise] is assigned here
    and nowhere else. *)
Definition constructor (name : string) (version : N) (stores : gmap string StoreConfig)
    (h : Browser) : World :=
  let '(p, h') := init name version stores h in
  mkWorld h' (mkIndexa name version stores p ∅).

Definition transaction (storeName : string) (mode : IDBTransactionMode) : M IDBObjectStore :=
  db ← await dbPromise;
  tx ← promise (Engine.transaction db storeName mode);
  promise (λ h, (Engine.objectStore tx storeName, h)).

Definition add (storeName : string) (value : Value) : M Key :=
  store ← transaction storeName readwrite;
  result ← promise (Engine.put true store value);
  start (JNotify storeName);;
  mret result.

Definition get (storeName : string) (key : Key) : M (option Value) :=
  store ← transaction storeName readonly;
  promise (Engine.get store key).

Definition getAll (storeName : string) : M (list Value) :=
  store ← transaction storeName readonly;
  promise (Engine.getAll store).

Definition update (storeName : string) (value : Value) : M Key :=
  store ← transaction storeName readwrite;
  result ← promise (Engine.put false store value);
  start (JNotify storeName);;
  mret result.

Definition delete (storeName : string) (key : Key) : M unit :=
  store ← transaction storeName readwrite;
  promise (Engine.delete store key);;
  start (JNotify storeName);;
  mret tt.

Definition clear (storeName : string) : M unit :=
  store ← transaction storeName readwrite;
  promise (Engine.clear store);;
  start (JNotify storeName);;
  mret tt.

(** [subscribe] returns nothing; the initial delivery
    [this.getAll(storeName).then(callback)] is left running.  The
    registry is modelled as a map of arrays, which is what it is for a
    store name with [inherited storeName = false]; for an inherited name
    the lookup is not [undefined], no array is made, and [push] throws
    before anything is registered or read.  What is stated about
    registering and delivering is stated for the other names. *)
Definition subscribe (storeName : string) (callback : Subscriber) (w : World) : World :=
  let arr := default [] (subscribers (this w) !! storeName) in
  mkWorld
    (set_jobs (jobs (host w) ++ [JDeliver storeName callback]) (host w))
    (set_subscribers (<[storeName := arr ++ [callback]]> (subscribers (this w))) (this w)).

(** [cb(data)]. *)
Definition invoke (cb : Subscriber) (data : list Value) : M unit :=
  emit (EvListener (ref cb) data);;
  match call cb data with
  | None => mret tt
  | Some e => throw e
  end.

(** [arr.forEach((cb) => cb(data))]. *)
Fixpoint forEach (arr : list Subscriber) (data : list Value) : M unit :=
  match arr with
  | [] => mret tt
  | cb :: rest => invoke cb data;; forEach rest data
  end.

(** [notify]: the read comes first, then the registry is looked at.
    As for [subscribe], the lookup is the one of a map of arrays; for an
    inherited name without listeners [forEach] is missing and the call
    throws, after the read and with nobody called. *)
Definition notify (storeName : string) : M unit :=
  data ← getAll storeName;
  arr ← field (λ i, subscribers i !! storeName);
  match arr with
  | Some arr => forEach arr data
  | None => mret tt
  end.

Definition getByIndex (storeName indexName : string) (query : Query) : M (list Value) :=
  store ← transaction storeName readonly;
  index ← promise (Engine.index store indexName);
  promise (Engine.index_getAll index query).

Definition count (storeName : string) : M nat :=
  store ← transaction storeName readonly;
  promise (Engine.count store).

Definition bulkAdd (storeName : string) (values : list Value) : M (list Key) :=
  store ← transaction storeName readwrite;
  items ← promise (λ h, let '(outs, h') := Engine.put_all true store values h in (inl outs, h'));
  results ← Promise_all items;
  start (JNotify storeName);;
  mret results.

Definition bulkUpdate (storeName : string) (values : list Value) : M (list Key) :=
  store ← transaction storeName readwrite;
  items ← promise (λ h, let '(outs, h') := Engine.put_all false store values h in (inl outs, h'));
  results ← Promise_all items;
  start (JNotify storeName);;
  mret results.

Definition exists_ (storeName : string) (key : Key) : M bool :=
  store ← transaction storeName readonly;
  result ← promise (Engine.getKey store key);
  mret (match result with Some _ => true | None => false end).

(** [arr.indexOf(callback)]: the first position holding the same
    function object. *)
Fixpoint indexOf (arr : list Subscriber) (callback : Subscriber) : option nat :=
  match arr with
  | [] => None
  | cb :: rest =>
    if decide (ref cb = ref callback) then Some 0
    else S <$> indexOf rest callback
  end.

(** [unsubscribe]: nothing happens without an array for the store or
    without the callback in it; otherwise the first occurrence is
    spliced out.  As for [subscribe], the lookup is the one of a map of
    arrays; for an inherited name [indexOf] is missing and the call
    throws, with the registry as it was. *)
Definition unsubscribe (storeName : string) (callback : Subscriber) (w : World) : World :=
  match subscribers (this w) !! storeName with
  | None => w
  | Some arr =>
    match indexOf arr callback with
    | None => w
    | Some idx =>
      mkWorld (host w)
        (set_subscribers (<[storeName := base.delete idx arr]> (subscribers (this w))) (this w))
    end
  end.

Definition close : M unit :=
  db ← await dbPromise;
  on_host (Engine.close db).

Definition deleteDatabase : M unit :=
  close;;
  name ← field dbName;
  blocked ← promise (Engine.deleteDatabase name);
  match blocked with
  | None => mret tt
  | Some _ => throw (JsError "Delete blocked"%string)
  end.

(** The [onsuccess] handler of [iterate], once per cursor event.  The
    callback is observed through [EvCallback]; it returns normally. *)
Fixpoint onsuccess (store : IDBObjectStore) (remaining : list (Key * Value)) : M unit :=
  match remaining with
  | [] =>
    promise (Engine.cursor_event store None);;
    mret tt
  | (key, value) :: rest =>
    promise (Engine.cursor_event store (Some (key, value)));;
    emit (EvCallback value key);;
    onsuccess store rest
  end.

Definition iterate (storeName : string) : M unit :=
  store ← transaction storeName readonly;
  remaining ← ask_host (Engine.openCursor store);
  onsuccess store remaining.

End Wrapper.

(** ** Running what was left running *)

Definition job_body (j : Job) : M unit :=
  match j with
  | JNotify storeName => Wrapper.notify storeName
  | JDeliver storeName cb => data ← Wrapper.getAll storeName; Wrapper.invoke cb data
  end.

(** A job that rejects has nobody awaiting it: the rejection is unhandled. *)
Definition unhandled_by (e : Thrown) (w : World) : World :=
  mkWorld (set_unhandled (unhandled (host w) ++ [e]) (host w)) (this w).

Definition run_job (j : Job) (w : World) : World :=
  match job_body j w with
  | (Resolved _, w') => w'
  | (Rejected e, w') => unhandled_by e w'
  end.

(** [idle w]: [w] with its job queue taken for running. *)
Definition idle (w : World) : World := mkWorld (set_jobs [] (host w)) (this w).

Definition run_jobs (w : World) : World :=
  foldl (λ w j, run_job j w) (idle w) (jobs (host w)).

(** ** Calls, as data *)

(** The promise-returning methods. *)
Inductive Call :=
| CAdd (storeName : string) (value : Value)
| CGet (storeName : string) (key : Key)
| CGetAll (storeName : string)
| CUpdate (storeName : string) (value : Value)
| CDelete (storeName : string) (key : Key)
| CClear (storeName : string)
| CGetByIndex (storeName indexName : string) (query : Query)
| CCount (storeName : string)
| CBulkAdd (storeName : string) (values : list Value)
| CBulkUpdate (storeName : string) (values : list Value)
| CExists (storeName : string) (key : Key)
| CIterate (storeName : string)
| CClose
| CDeleteDatabase.

Inductive Result :=
| RKey (k : Key)
| RRecord (v : option Value)
| RRecords (vs : list Value)
| RKeys (ks : list Key)
| RCount (n : nat)
| RBool (b : bool)
| RVoid.

Definition fmapM {A B} (f : A → B) (m : M A) : M B := a ← m; mret (f a).

Definition perform (c : Call) : M Result :=
  match c with
  | CAdd s v => fmapM RKey (Wrapper.add s v)
  | CGet s k => fmapM RRecord (Wrapper.get s k)
  | CGetAll s => fmapM RRecords (Wrapper.getAll s)
  | CUpdate s v => fmapM RKey (Wrapper.update s v)
  | CDelete s k => fmapM (λ _, RVoid) (Wrapper.delete s k)
  | CClear s => fmapM (λ _, RVoid) (Wrapper.clear s)
  | CGetByIndex s i q => fmapM RRecords (Wrapper.getByIndex s i q)
  | CCount s => fmapM RCount (Wrapper.count s)
  | CBulkAdd s vs => fmapM RKeys (Wrapper.bulkAdd s vs)
  | CBulkUpdate s vs => fmapM RKeys (Wrapper.bulkUpdate s vs)
  | CExists s k => fmapM RBool (Wrapper.exists_ s k)
  | CIterate s => fmapM (λ _, RVoid) (Wrapper.iterate s)
  | CClose => fmapM (λ _, RVoid) Wrapper.close
  | CDeleteDatabase => fmapM (λ _, RVoid) Wrapper.deleteDatabase
  end.

(** The twelve operations of the operation layer. *)
Definition operation (c : Call) : bool :=
  match c with
  | CClose | CDeleteDatabase => false
  | _ => true
  end.

(** The mutating operations, and the store each works on. *)
Definition mutation (c : Call) : option string :=
  match c with
  | CAdd s _ | CUpdate s _ | CDelete s _ | CClear s | CBulkAdd s _ | CBulkUpdate s _ => Some s
  | _ => None
  end.

(** What a user of an instance can do, step by step. *)
Inductive Action :=
| Do (c : Call)
| Subscribe (storeName : string) (callback : Subscriber)
| Unsubscribe (storeName : string) (callback : Subscriber)
| RunJobs.

Fixpoint run (acts : list Action) (w : World) : list (Settled Result) * World :=
  match acts with
  | [] => ([], w)
  | Do c :: rest =>
    let '(out, w1) := perform c w in
    let '(outs, w2) := run rest w1 in
    (out :: outs, w2)
  | Subscribe s cb :: rest => run rest (Wrapper.subscribe s cb w)
  | Unsubscribe s cb :: rest => run rest (Wrapper.unsubscribe s cb w)
  | RunJobs :: rest => run rest (run_jobs w)
  end.

(** ** Reading the log *)

Definition event_error (ev : Event) : option EngineError :=
  match ev with
  | EvOpen _ _ err | EvTransaction _ _ err | EvIndex _ _ err
  | EvRequest _ _ err | EvCursor _ _ err | EvDeleteDatabase _ err => err
  | EvException _ _ e => Some e
  | _ => None
  end.

(** The first error the engine reported among [evs]. *)
Definition first_error (evs : list Event) : option EngineError :=
  head (omap event_error evs).

(** The events logged between [w] and a later world [w']. *)
Definition emitted (w w' : World) : list Event :=
  drop (length (log (host w))) (log (host w')).

Definition is_open (ev : Event) : bool :=
  match ev with EvOpen _ _ _ => true | _ => false end.

(** How often [indexedDB.open] was called. *)
Definition opens (evs : list Event) : nat := length (filter is_open evs).

Definition is_getAll (storeName : string) (ev : Event) : bool :=
  match ev with
  | EvRequest s RqGetAll _ => bool_decide (s = storeName)
  | _ => false
  end.

(** How many [getAll] requests were issued on a store. *)
Definition getAll_reads (storeName : string) (evs : list Event) : nat :=
  length (filter (is_getAll storeName) evs).

(** The listener calls among [evs]: who was called, and with what. *)
Definition deliveries (evs : list Event) : list (nat * list Value) :=
  omap (λ ev, match ev with EvListener r data => Some (r, data) | _ => None end) evs.

(** The snapshot [getAll] reads from a store. *)
Definition snapshot (os : ObjectStore) : list Value := (Engine.entries os).*2.

(** The object store called [storeName] behind the instance's connection. *)
Definition store_of (w : World) (storeName : string) : option ObjectStore :=
  match dbPromise (this w) with
  | Resolved db => databases (host w) !! conn_name db ≫= (λ d, db_stores d !! storeName)
  | Rejected _ => None
  end.

Definition listeners (w : World) (storeName : string) : list Subscriber :=
  default [] (subscribers (this w) !! storeName).

(** ** Worlds after a step *)

(** [logged evs w]: [w] with [evs] appended to the log. *)
Definition logged (evs : list Event) (w : World) : World :=
  mkWorld (set_log (log (host w) ++ evs) (host w)) (this w).

(** [consumed w]: [w] after one entry of the failure script was used. *)
Definition consumed (w : World) : World :=
  mkWorld (set_faults (tail (faults (host w))) (host w)) (this w).

(** The error the next asynchronous request will fire, if any. *)
Definition next_fault (w : World) : option EngineError := mjoin (head (faults (host w))).

(** The instance's connection is open and the database has the store. *)
Definition live (w : World) (storeName : string) : Prop :=
  ∃ db, dbPromise (this w) = Resolved db ∧
        Engine.transaction_error db storeName (host w) = None.

Definition has_store (h : Browser) (name storeName : string) : Prop :=
  is_Some (databases h !! name ≫= (λ d, db_stores d !! storeName)).

(** [steady h h']: between [h] and [h'] no connection was opened or
    closed, no job was started or run, and no store disappeared. *)
Definition steady (h h' : Browser) : Prop :=
  connections h' = connections h ∧ jobs h' = jobs h ∧ unhandled h' = unhandled h ∧
  ∀ name storeName, has_store h name storeName → has_store h' name storeName.

(** [resub subs w]: [w] with another subscriber registry. *)
Definition resub (subs : gmap string (list Subscriber)) (w : World) : World :=
  mkWorld (host w) (set_subscribers subs (this w)).

(** [stored st os w]: [w] after the engine wrote [os] back to the store. *)
Definition stored (st : IDBObjectStore) (os : ObjectStore) (w : World) : World :=
  mkWorld (Engine.write_store st os (host w)) (this w).

(** [started j w]: [w] with the job [j] left running. *)
Definition started (j : Job) (w : World) : World :=
  mkWorld (set_jobs (jobs (host w) ++ [j]) (host w)) (this w).

(** How often the listener with identity [r] was called among [evs]. *)
Definition calls_to (r : nat) (evs : list Event) : nat :=
  length (filter (λ d, d.1 = r) (deliveries evs)).

(** The first call of a bulk operation that threw. *)
Definition first_thrown_item (items : list Engine.Item) : option EngineError :=
  head (omap (λ it, match it with Engine.Threw e => Some e | _ => None end) items).

(** What the engine and the callback log for one visited record. *)
Definition visit (storeName : string) (entry : Key * Value) : list Event :=
  [EvCursor storeName (Some entry.1) None; EvCallback entry.2 entry.1].

(** ** Sample worlds *)

Module Sample.

(** [{users: {keyPath: "id", autoIncrement: true}}]. *)
Definition schema : gmap string StoreConfig :=
  {[ "users"%string := mkStoreConfig "id" (Some true) ]}.

Definition fresh : Browser := mkBrowser ∅ [] 0 [] [] [] [].

(** A browser that already holds the database at version 5. *)
Definition upgraded : Browser :=
  mkBrowser {[ "app"%string := mkDatabase 5 ∅ ]} [] 0 [] [] [] [].

(** An instance whose open succeeded, and one whose open failed with a
    [VersionError]. *)
Definition ready : World := Wrapper.constructor "app" 1 schema fresh.
Definition failed : World := Wrapper.constructor "app" 1 schema upgraded.

Definition alice : Value := {[ "name"%string := JStr "Alice" ]}.
Definition bob : Value := {[ "name"%string := JStr "Bob" ]}.

(** Listeners: one that returns, one that throws. *)
Definition quiet (r : nat) : Subscriber := mkSubscriber r (λ _, None).
Definition faulty (r : nat) : Subscriber :=
  mkSubscriber r (λ _, Some (JsError "listener failed"%string)).

(** The ready instance after [add("users", {name: "Alice"})] resolved;
    the notification it started has not run yet. *)
Definition added : World := (perform (CAdd "users" alice) ready).2.

(** Two listeners on "users", the first one faulty, their initial
    deliveries done; then the same [add]. *)
Definition watched : World :=
  run_jobs (Wrapper.subscribe "users" (quiet 2) (Wrapper.subscribe "users" (faulty 1) ready)).
Definition watched_added : World := (perform (CAdd "users" alice) watched).2.

(** The "users" store of a world, for worlds that have it. *)
Definition users (w : World) : ObjectStore :=
  default (mkObjectStore "" false 0 ∅ ∅) (store_of w "users").

(** One returning listener on "users", its initial delivery done. *)
Definition listening : World := run_jobs (Wrapper.subscribe "users" (quiet 1) ready).

(** [delete("users", 7)] on the empty store: nothing to remove. *)
Definition deleted : World := (Wrapper.delete "users" (KNum 7) listening).2.

(** [{id: 1, name: "Carol"}]: a record that carries its key. *)
Definition carol : Value := {[ "id"%string := JNum 1; "name"%string := JStr "Carol" ]}.

(** The ready instance after [add("users", carol)]. *)
Definition with_carol : World := (perform (CAdd "users" carol) ready).2.

(** [bulkAdd("users", [{name: "Alice"}, {name: "Bob"}])] with one
    returning listener registered. *)
Definition bulk_added : World := (Wrapper.bulkAdd "users" [alice; bob] listening).2.

(** The ready instance after [bulkAdd("users", [{name: "Alice"}, {name: "Bob"}])]. *)
Definition two_users : World := (Wrapper.bulkAdd "users" [alice; bob] ready).2.

End Sample.

(** ** Properties of computations *)

(** [grows f]: the engine call [f] only appends to the log, and what it
    appends is no call of [indexedDB.open]. *)
Definition grows {A} (f : Browser → A * Browser) : Prop :=
  ∀ h, ∃ evs, log (f h).2 = log h ++ evs ∧ opens evs = 0.

(** [frame w w']: the instance is the same object with the same fields,
    and the log has only grown, by events other than an open. *)
Definition frame (w w' : World) : Prop :=
  this w' = this w ∧ ∃ evs, log (host w') = log (host w) ++ evs ∧ opens evs = 0.

Definition framed {A} (m : M A) : Prop := ∀ w, frame w (m w).2.

(** [kept w w']: the connection promise of the instance is the one it
    had, and [indexedDB.open] was not called in between. *)
Definition kept (w w' : World) : Prop :=
  dbPromise (this w') = dbPromise (this w) ∧
  opens (log (host w')) = opens (log (host w)).

(** [calm m]: [m] leaves the instance alone and the engine steady. *)
Definition calm {A} (m : M A) : Prop :=
  ∀ w, this (m w).2 = this w ∧ steady (host w) (host (m w).2).

Definition bulk_body (b : bool) (values : list Value) (st : IDBObjectStore) : M (list Key) :=
  items ← promise (λ h, let '(outs, h') := Engine.put_all b st values h in (inl outs, h'));
  Promise_all items.

(** [oblivious m]: [m] does not look at the subscriber registry. *)
Definition oblivious {A} (m : M A) : Prop :=
  ∀ subs w, m (resub subs w) = ((m w).1, resub subs (m w).2).

(** [honest rq]: the engine call [rq] answers with the first error it
    logged, if it logged one. *)
Definition honest {A} (rq : Browser → (A + EngineError) * Browser) : Prop :=
  ∀ h, ∃ evs, log (rq h).2 = log h ++ evs ∧
              ∀ e, first_error evs = Some e → (rq h).1 = inr e.

(** [faithful m]: when the engine reported an error while [m] ran, [m]
    rejects with the first such error, as the engine gave it. *)
Definition faithful {A} (m : M A) : Prop :=
  ∀ w, ∃ evs, log (host (m w).2) = log (host w) ++ evs ∧
              ∀ e, first_error evs = Some e → (m w).1 = Rejected (Raw e).

(** ** More readings of the log and of the engine *)

(** The calls of an [iterate] callback among [evs]: value and key. *)
Definition callbacks (evs : list Event) : list (Value * Key) :=
  omap (λ ev, match ev with EvCallback v k => Some (v, k) | _ => None end) evs.

(** The methods that only read. *)
Definition reading (c : Call) : bool :=
  match c with
  | CGet _ _ | CGetAll _ | CGetByIndex _ _ _ | CCount _ | CExists _ _ | CIterate _ => true
  | _ => false
  end.

(** The mutating methods that issue a single request. *)
Definition single_write (c : Call) : bool :=
  match c with
  | CAdd _ _ | CUpdate _ _ | CDelete _ _ | CClear _ => true
  | _ => false
  end.

(** No store of any database has an index. *)
Definition index_free (h : Browser) : Prop :=
  map_Forall (λ _ d, map_Forall (λ _ os, os_indexes os = ∅) (db_stores d)) (databases h).

Global Instance index_free_dec h : Decision (index_free h).
Proof. unfold index_free. apply _. Defined.

(** No connection to the database [name] is open. *)
Definition unconnected (name : string) (h : Browser) : Prop :=
  Forall (λ c : nat * string, c.2 ≠ name) (connections h).

(** The object store [createObjectStore] makes for a schema entry. *)
Definition new_store (config : StoreConfig) : ObjectStore :=
  mkObjectStore (keyPath config) (default false (autoIncrement config)) 1 ∅ ∅.

(** [untouched h h']: the same databases, connections, jobs and
    unhandled rejections; only the log and the failure script may differ. *)
Definition untouched (h h' : Browser) : Prop :=
  databases h' = databases h ∧ connections h' = connections h ∧
  jobs h' = jobs h ∧ unhandled h' = unhandled h.

(** [inert m]: [m] leaves the instance and the engine's data untouched. *)
Definition inert {A} (m : M A) : Prop :=
  ∀ w, this (m w).2 = this w ∧ untouched (host w) (host (m w).2).

(** [plain m]: [m] creates no index. *)
Definition plain {A} (m : M A) : Prop :=
  ∀ w, index_free (host w) → index_free (host (m w).2).

(** The store an operation of the operation layer works on. *)
Definition call_store (c : Call) : option string :=
  match c with
  | CAdd s _ | CGet s _ | CGetAll s | CUpdate s _ | CDelete s _ | CClear s
  | CGetByIndex s _ _ | CCount s | CBulkAdd s _ | CBulkUpdate s _ | CExists s _
  | CIterate s => Some s
  | CClose | CDeleteDatabase => None
  end.

(** More sample worlds. *)
Module Scene.

(** A second instance on the browser of [Sample.ready]: two connections
    to the same database. *)
Definition second : World := Wrapper.constructor "app" 1 Sample.schema (host Sample.ready).

(** A schema with one more store. *)
Definition wider : gmap string StoreConfig :=
  <[ "posts"%string := mkStoreConfig "slug" None ]> Sample.schema.

(** The browser of [Sample.two_users] after the instance was closed:
    the database holds two users and has no open connection. *)
Definition closed : Browser := host (Wrapper.close Sample.two_users).2.

End Scene.

(** [written kp m vks]: the records [m] after the values of [vks] were
    stored one after the other, each under its key and with the key at
    the key path [kp]. *)
Definition written (kp : string) (m : gmap Key Value) (vks : list (Value * Key))
    : gmap Key Value :=
  foldl (λ m vk, <[vk.2 := <[kp := Engine.key_to_js vk.2]> vk.1]> m) m vks.

(** * Proofs *)

(** ** The monad *)

Lemma bind_eq {A B} (m : M A) (f : A → M B) (w : World) :
  (m ≫= f) w =
  match m w with
  | (Resolved a, w') => f a w'
  | (Rejected e, w') => (Rejected e, w')
  end.
Proof. reflexivity. Qed.

(** ** What the log of the engine looks like *)

Lemma opens_app (l k : list Event) : opens (l ++ k) = opens l + opens k.
Proof. unfold opens. rewrite filter_app, length_app. reflexivity. Qed.

Ltac grows_step :=
  match goal with
  | |- ∃ evs, log ?h ++ ?a = log ?h ++ evs ∧ _ => exists a; split; [reflexivity|reflexivity]
  | |- ∃ evs, log ?h = log ?h ++ evs ∧ _ => exists []; split; [by rewrite app_nil_r|reflexivity]
  end.

Lemma grows_request {A} st rq (serve : ObjectStore → (A * ObjectStore) + EngineError) :
  grows (Engine.request st rq serve).
Proof.
  intros h. unfold Engine.request, Engine.take_fault.
  destruct (faults h) as [|[e|] fs]; simpl;
    repeat case_match; simpl; grows_step.
Qed.

Lemma grows_put b st v : grows (Engine.put b st v).
Proof.
  intros h. unfold Engine.put. destruct (Engine.prepare st v h).
  - apply grows_request.
  - simpl. grows_step.
Qed.

Lemma grows_delete st k : grows (Engine.delete st k).
Proof.
  intros h. unfold Engine.delete. destruct (st_mode st).
  - simpl. grows_step.
  - apply grows_request.
Qed.

Lemma grows_clear st : grows (Engine.clear st).
Proof.
  intros h. unfold Engine.clear. destruct (st_mode st).
  - simpl. grows_step.
  - apply grows_request.
Qed.

Lemma grows_transaction db s mode : grows (Engine.transaction db s mode).
Proof. intros h. unfold Engine.transaction. simpl. grows_step. Qed.

Lemma grows_index st name : grows (Engine.index st name).
Proof. intros h. unfold Engine.index. case_match; simpl; grows_step. Qed.

Lemma grows_cursor_event st next : grows (Engine.cursor_event st next).
Proof.
  intros h. unfold Engine.cursor_event, Engine.take_fault.
  destruct (faults h) as [|[e|] fs]; simpl; grows_step.
Qed.

Lemma grows_deleteDatabase name : grows (Engine.deleteDatabase name).
Proof.
  intros h. unfold Engine.deleteDatabase, Engine.take_fault.
  destruct (faults h) as [|[e|] fs]; simpl; repeat case_match; simpl; grows_step.
Qed.

Lemma grows_issue b st values : grows (Engine.issue b st values).
Proof.
  induction values as [|v values IH]; intros h; simpl.
  - grows_step.
  - destruct (Engine.prepare st v h) as [key|e].
    + destruct (IH h) as (evs & Hlog & Hop).
      destruct (Engine.issue b st values h) as [items h']. simpl in *. eauto.
    + set (h1 := Engine.record_event _ h).
      destruct (IH h1) as (evs & Hlog & Hop).
      destruct (Engine.issue b st values h1) as [items h']. simpl in *.
      eexists (_ :: evs). rewrite Hlog. subst h1. simpl.
      rewrite <- app_assoc. split; [reflexivity|]. exact Hop.
Qed.

Lemma rollback_log st saved h : log (Engine.rollback st saved h) = log h.
Proof. destruct saved; reflexivity. Qed.

Lemma grows_serve b st saved aborted items :
  grows (Engine.serve b st saved aborted items).
Proof.
  revert aborted. induction items as [|[e|v key] items IH]; intros aborted h; simpl.
  - grows_step.
  - destruct (IH aborted h) as (evs & Hlog & Hop).
    destruct (Engine.serve b st saved aborted items h) as [outs h']. simpl in *. eauto.
  - destruct aborted.
    + set (h1 := Engine.record_event _ h).
      destruct (IH true h1) as (evs & Hlog & Hop).
      destruct (Engine.serve b st saved true items h1) as [outs h']. simpl in *.
      eexists (_ :: evs). rewrite Hlog. subst h1. simpl.
      rewrite <- app_assoc. split; [reflexivity|]. exact Hop.
    + destruct (grows_request st (Engine.put_rq b v) (Engine.store_record b v key) h)
        as (evs1 & Hlog1 & Hop1).
      destruct (Engine.request st (Engine.put_rq b v) (Engine.store_record b v key) h)
        as [[k|e] h1]; simpl in *.
      * destruct (IH false h1) as (evs & Hlog & Hop).
        destruct (Engine.serve b st saved false items h1) as [outs h']. simpl in *.
        exists (evs1 ++ evs). rewrite Hlog, Hlog1, <- app_assoc.
        split; [reflexivity|]. rewrite opens_app. lia.
      * set (h2 := Engine.rollback st saved h1).
        destruct (IH true h2) as (evs & Hlog & Hop).
        destruct (Engine.serve b st saved true items h2) as [outs h']. simpl in *.
        exists (evs1 ++ evs). rewrite Hlog. subst h2. rewrite rollback_log, Hlog1, <- app_assoc.
        split; [reflexivity|]. rewrite opens_app. lia.
Qed.

Lemma grows_put_all b st values : grows (Engine.put_all b st values).
Proof.
  intros h. unfold Engine.put_all.
  destruct (grows_issue b st values h) as (evs1 & Hlog1 & Hop1).
  destruct (Engine.issue b st values h) as [items h1]. simpl in *.
  destruct (grows_serve b st (Engine.lookup_store st h1) false items h1) as (evs & Hlog & Hop).
  exists (evs1 ++ evs). rewrite Hlog, Hlog1, <- app_assoc.
  split; [reflexivity|]. rewrite opens_app. lia.
Qed.

(** ** What no method touches *)

Lemma frame_refl w : frame w w.
Proof. split; [done|]. exists []. by rewrite app_nil_r. Qed.

Lemma frame_trans w1 w2 w3 : frame w1 w2 → frame w2 w3 → frame w1 w3.
Proof.
  intros [Ht1 (e1 & Hl1 & Ho1)] [Ht2 (e2 & Hl2 & Ho2)]. split; [congruence|].
  exists (e1 ++ e2). rewrite Hl2, Hl1, <- app_assoc, opens_app. split; [done|lia].
Qed.

Lemma framed_ret {A} (a : A) : framed (mret a).
Proof. intros w. apply frame_refl. Qed.

Lemma framed_throw {A} e : framed (@throw A e).
Proof. intros w. apply frame_refl. Qed.

Lemma framed_field {A} (f : Indexa → A) : framed (field f).
Proof. intros w. apply frame_refl. Qed.

Lemma framed_await {A} (p : Indexa → Settled A) : framed (await p).
Proof. intros w. apply frame_refl. Qed.

Lemma framed_ask_host {A} (f : Browser → A) : framed (ask_host f).
Proof. intros w. apply frame_refl. Qed.

Lemma framed_bind {A B} (m : M A) (f : A → M B) :
  framed m → (∀ a, framed (f a)) → framed (m ≫= f).
Proof.
  intros Hm Hf w. rewrite bind_eq. specialize (Hm w).
  destruct (m w) as [[a|e] w1]; simpl in *; [|done].
  eapply frame_trans; [exact Hm|apply Hf].
Qed.

Lemma framed_promise {A} (rq : Browser → (A + EngineError) * Browser) :
  grows rq → framed (promise rq).
Proof.
  intros H w. unfold promise. specialize (H (host w)).
  destruct (rq (host w)) as [r h]. split; [done|exact H].
Qed.

Lemma framed_start j : framed (start j).
Proof. intros w. split; [done|]. exists []. simpl. by rewrite app_nil_r. Qed.

Lemma framed_emit ev : is_open ev = false → framed (emit ev).
Proof.
  intros H w. split; [done|]. exists [ev]. split; [done|].
  unfold opens. rewrite filter_cons, H. done.
Qed.

Lemma framed_fmapM {A B} (f : A → B) (m : M A) : framed m → framed (fmapM f m).
Proof. intros H. apply framed_bind; [done|]. intros a. apply framed_ret. Qed.

Ltac framed_tac :=
  repeat first
    [ apply framed_ret | apply framed_throw | apply framed_field | apply framed_await
    | apply framed_ask_host | apply framed_start
    | apply framed_emit; reflexivity
    | apply framed_promise;
      first [ apply grows_request | apply grows_put | apply grows_delete | apply grows_clear
            | apply grows_transaction | apply grows_index | apply grows_cursor_event
            | apply grows_deleteDatabase ]
    | apply framed_bind; [|intros ?]
    | apply framed_fmapM ].

Lemma framed_transaction s mode : framed (Wrapper.transaction s mode).
Proof.
  unfold Wrapper.transaction. framed_tac.
  apply framed_promise. intros h. exists []. simpl. by rewrite app_nil_r.
Qed.

Lemma framed_getAll s : framed (Wrapper.getAll s).
Proof.
  unfold Wrapper.getAll. apply framed_bind; [apply framed_transaction|intros st].
  framed_tac.
Qed.

Lemma framed_invoke cb data : framed (Wrapper.invoke cb data).
Proof. unfold Wrapper.invoke. framed_tac. destruct (call cb data); framed_tac. Qed.

Lemma framed_forEach arr data : framed (Wrapper.forEach arr data).
Proof.
  induction arr as [|cb arr IH]; simpl; [apply framed_ret|].
  apply framed_bind; [apply framed_invoke|intros _; exact IH].
Qed.

Lemma framed_notify s : framed (Wrapper.notify s).
Proof.
  unfold Wrapper.notify. apply framed_bind; [apply framed_getAll|intros data].
  apply framed_bind; [apply framed_field|intros [arr|]];
    [apply framed_forEach|apply framed_ret].
Qed.

Lemma framed_Promise_all outs : framed (Promise_all outs).
Proof. unfold Promise_all. repeat case_match; framed_tac. Qed.

Lemma framed_put_all b st values :
  framed (promise (λ h, let '(outs, h') := Engine.put_all b st values h in (inl outs, h'))).
Proof.
  apply framed_promise. intros h. destruct (grows_put_all b st values h) as (evs & H1 & H2).
  destruct (Engine.put_all b st values h) as [outs h']. simpl in *. eauto.
Qed.

Lemma framed_onsuccess st remaining : framed (Wrapper.onsuccess st remaining).
Proof.
  induction remaining as [|[k v] rest IH]; simpl; framed_tac; try exact IH.
Qed.

Lemma framed_close : framed Wrapper.close.
Proof.
  unfold Wrapper.close. apply framed_bind; [apply framed_await|intros db].
  intros w. split; [done|]. exists [EvClose (conn_id db)]. done.
Qed.

Lemma framed_deleteDatabase : framed Wrapper.deleteDatabase.
Proof.
  unfold Wrapper.deleteDatabase.
  apply framed_bind; [apply framed_close|intros _].
  apply framed_bind; [apply framed_field|intros name].
  apply framed_bind; [apply framed_promise, grows_deleteDatabase|intros blocked].
  destruct blocked; framed_tac.
Qed.

Lemma framed_perform c : framed (perform c).
Proof.
  destruct c; simpl; apply framed_fmapM;
    unfold Wrapper.add, Wrapper.get, Wrapper.update, Wrapper.delete, Wrapper.clear,
      Wrapper.getByIndex, Wrapper.count, Wrapper.bulkAdd, Wrapper.bulkUpdate,
      Wrapper.exists_, Wrapper.iterate;
    try apply framed_getAll; try apply framed_close; try apply framed_deleteDatabase;
    try (apply framed_bind; [apply framed_transaction|intros ?]);
    try (apply framed_bind; [apply framed_put_all|intros ?]);
    try (apply framed_bind; [apply framed_Promise_all|intros ?]);
    try (apply framed_bind; [apply framed_ask_host|intros ?; apply framed_onsuccess]);
    framed_tac.
Qed.

Lemma framed_job_body j : framed (job_body j).
Proof.
  destruct j; simpl; [apply framed_notify|].
  apply framed_bind; [apply framed_getAll|intros data; apply framed_invoke].
Qed.

Lemma frame_run_job j w : frame w (run_job j w).
Proof.
  unfold run_job. pose proof (framed_job_body j w) as H.
  destruct (job_body j w) as [[[]|e] w']; exact H.
Qed.

Lemma frame_run_jobs w : frame w (run_jobs w).
Proof.
  unfold run_jobs.
  assert (Hstart : frame w (idle w)).
  { split; [done|]. exists []. simpl. by rewrite app_nil_r. }
  revert Hstart. generalize (idle w).
  induction (jobs (host w)) as [|j js IH]; intros w1 H1; simpl; [done|].
  apply IH. eapply frame_trans; [exact H1|apply frame_run_job].
Qed.

Lemma frame_kept w w' : frame w w' → kept w w'.
Proof.
  intros [Ht (evs & Hl & Ho)]. split; [by rewrite Ht|].
  rewrite Hl, opens_app. lia.
Qed.

Lemma kept_trans w1 w2 w3 : kept w1 w2 → kept w2 w3 → kept w1 w3.
Proof. intros [] []. split; congruence. Qed.

Lemma kept_subscribe s cb w : kept w (Wrapper.subscribe s cb w).
Proof. split; reflexivity. Qed.

Lemma kept_unsubscribe s cb w : kept w (Wrapper.unsubscribe s cb w).
Proof. unfold Wrapper.unsubscribe. repeat case_match; split; reflexivity. Qed.

Lemma kept_run acts : ∀ w, kept w (run acts w).2.
Proof.
  induction acts as [|[c|s cb|s cb|] acts IH]; intros w; simpl.
  - split; reflexivity.
  - pose proof (framed_perform c w) as H. destruct (perform c w) as [out w1].
    specialize (IH w1). destruct (run acts w1) as [outs w2]. simpl in *.
    eapply kept_trans; [apply frame_kept, H|exact IH].
  - eapply kept_trans; [apply kept_subscribe|apply IH].
  - eapply kept_trans; [apply kept_unsubscribe|apply IH].
  - eapply kept_trans; [apply frame_kept, frame_run_jobs|apply IH].
Qed.

(** Every promise-returning method starts by awaiting [dbPromise]. *)
Lemma perform_rejected c w e :
  dbPromise (this w) = Rejected e → perform c w = (Rejected e, w).
Proof.
  intros H. destruct c; simpl;
    unfold fmapM, Wrapper.add, Wrapper.get, Wrapper.getAll, Wrapper.update,
      Wrapper.delete, Wrapper.clear, Wrapper.getByIndex, Wrapper.count,
      Wrapper.bulkAdd, Wrapper.bulkUpdate, Wrapper.exists_, Wrapper.iterate,
      Wrapper.deleteDatabase, Wrapper.close, Wrapper.transaction;
    rewrite !bind_eq; unfold await; rewrite H; reflexivity.
Qed.

Lemma run_rejected acts e : ∀ w,
  dbPromise (this w) = Rejected e → Forall (λ out, out = Rejected e) (run acts w).1.
Proof.
  induction acts as [|[c|s cb|s cb|] acts IH]; intros w H; simpl.
  - constructor.
  - rewrite (perform_rejected c w e H). specialize (IH w H).
    destruct (run acts w) as [outs w2]. simpl in *. by constructor.
  - apply IH. rewrite <- H. apply kept_subscribe.
  - apply IH. rewrite <- H. apply kept_unsubscribe.
  - apply IH. rewrite <- H. apply frame_kept, frame_run_jobs.
Qed.

Lemma constructor_opens name version stores h :
  log (host (Wrapper.constructor name version stores h))
  = log h ++ [EvOpen name version
                (match dbPromise (this (Wrapper.constructor name version stores h)) with
                 | Rejected (Raw e) => Some e
                 | _ => None
                 end)].
Proof.
  unfold Wrapper.constructor, Wrapper.init, Engine.open, Engine.take_fault.
  destruct (decide (version = 0%N)); [reflexivity|].
  destruct (faults h) as [|[e|] fs]; simpl; try reflexivity;
    destruct (decide (version < _)%N); reflexivity.
Qed.

(** ** The connection promise *)

(** C5: the connection promise is computed once, by the constructor (one
    call of [indexedDB.open]); whatever is done with the instance
    afterwards, [dbPromise] stays the same promise and [indexedDB.open] is
    not called again; and when that promise is rejected, every
    promise-returning method rejects with the same error. *)
Theorem connection_promise_memoized
    (name : string) (version : N) (stores : gmap string StoreConfig)
    (h : Browser) (acts : list Action) :
  let w := Wrapper.constructor name version stores h in
  opens (log (host w)) = S (opens (log h)) ∧
  dbPromise (this (run acts w).2) = dbPromise (this w) ∧
  opens (log (host (run acts w).2)) = opens (log (host w)) ∧
  ∀ e, dbPromise (this w) = Rejected e →
       Forall (λ out, out = Rejected e) (run acts w).1.
Proof.
  intros w. split; [|split; [|split]].
  - subst w. rewrite constructor_opens, opens_app. unfold opens at 2.
    rewrite filter_cons. simpl. lia.
  - apply kept_run.
  - apply kept_run.
  - intros e H. by apply run_rejected.
Qed.

Lemma connection_promise_memoized_witness :
  dbPromise (this Sample.failed) = Rejected (Raw VersionError) ∧
  Forall (λ out, out = Rejected (Raw VersionError))
    (run [Do (CAdd "users" Sample.alice); RunJobs; Do (CGetAll "users");
          Do CClose; Do CDeleteDatabase] Sample.failed).1.
Proof.
  split; [reflexivity|].
  apply (connection_promise_memoized "app" 1 Sample.schema Sample.upgraded).
  reflexivity.
Defined.

(** C8: on an instance whose open failed, [deleteDatabase] rejects with
    the open failure at [await this.close()]: the world is left as it
    was, so the engine's [deleteDatabase] is never called and the
    database is not deleted. *)
Theorem deleteDatabase_after_failed_open (w : World) (e : Thrown) :
  dbPromise (this w) = Rejected e →
  (Wrapper.deleteDatabase w).1 = Rejected e ∧
  (Wrapper.deleteDatabase w).2 = w ∧
  emitted w (Wrapper.deleteDatabase w).2 = [] ∧
  databases (host (Wrapper.deleteDatabase w).2) = databases (host w).
Proof.
  intros H.
  assert (Hd : Wrapper.deleteDatabase w = (Rejected e, w)).
  { unfold Wrapper.deleteDatabase, Wrapper.close. rewrite !bind_eq.
    unfold await. rewrite H. reflexivity. }
  rewrite Hd. simpl. repeat split. unfold emitted. apply drop_all.
Qed.

Lemma deleteDatabase_after_failed_open_witness :
  (Wrapper.deleteDatabase Sample.failed).1 = Rejected (Raw VersionError) ∧
  (Wrapper.deleteDatabase Sample.failed).2 = Sample.failed ∧
  emitted Sample.failed (Wrapper.deleteDatabase Sample.failed).2 = [] ∧
  databases (host (Wrapper.deleteDatabase Sample.failed).2)
  = databases (host Sample.failed).
Proof.
  apply (deleteDatabase_after_failed_open Sample.failed (Raw VersionError)).
  reflexivity.
Defined.

(** ** Requests keep connections and stores *)

Lemma steady_refl h : steady h h.
Proof. repeat split; auto. Qed.

Lemma steady_trans h1 h2 h3 : steady h1 h2 → steady h2 h3 → steady h1 h3.
Proof.
  intros (Hc1&Hj1&Hu1&Hs1) (Hc2&Hj2&Hu2&Hs2). repeat split; try congruence.
  intros n s Hns. by apply Hs2, Hs1.
Qed.

Lemma has_store_write_store st os h name s :
  has_store h name s → has_store (Engine.write_store st os h) name s.
Proof.
  unfold has_store, Engine.write_store. simpl. intros [x Hx].
  destruct (databases h !! name) as [d|] eqn:Hd; [|done]. simpl in Hx.
  rewrite lookup_alter. case_decide as Heq.
  - subst name. rewrite Hd. simpl.
    destruct (decide (st_name st = s)) as [->|Hne].
    + rewrite lookup_insert_eq. eauto.
    + rewrite lookup_insert_ne by done. eauto.
  - rewrite Hd. simpl. eauto.
Qed.

Lemma steady_write_store st os h : steady h (Engine.write_store st os h).
Proof. repeat split. intros n s. apply has_store_write_store. Qed.

Lemma steady_record_event ev h : steady h (Engine.record_event ev h).
Proof. repeat split; auto. Qed.

Lemma steady_set_faults fs h : steady h (set_faults fs h).
Proof. repeat split; auto. Qed.

Lemma steady_take_fault h : steady h (Engine.take_fault h).2.
Proof. unfold Engine.take_fault. destruct (faults h); [apply steady_refl|apply steady_set_faults]. Qed.

Lemma steady_request {A} st rq (serve : ObjectStore → (A * ObjectStore) + EngineError) h :
  steady h (Engine.request st rq serve h).2.
Proof.
  unfold Engine.request.
  pose proof (steady_take_fault h) as H0.
  destruct (Engine.take_fault h) as [[e|] h1]; simpl in *.
  - eapply steady_trans; [exact H0|apply steady_record_event].
  - destruct (Engine.lookup_store st h1) as [os|]; simpl.
    + destruct (serve os) as [[a os']|e]; simpl.
      * eapply steady_trans; [exact H0|].
        eapply steady_trans; [apply steady_write_store|apply steady_record_event].
      * eapply steady_trans; [exact H0|apply steady_record_event].
    + eapply steady_trans; [exact H0|apply steady_record_event].
Qed.

Lemma steady_put b st v h : steady h (Engine.put b st v h).2.
Proof.
  unfold Engine.put. destruct (Engine.prepare st v h); [apply steady_request|].
  apply steady_record_event.
Qed.

Lemma steady_delete st k h : steady h (Engine.delete st k h).2.
Proof.
  unfold Engine.delete. destruct (st_mode st); [apply steady_record_event|].
  apply steady_request.
Qed.

Lemma steady_clear st h : steady h (Engine.clear st h).2.
Proof.
  unfold Engine.clear. destruct (st_mode st); [apply steady_record_event|].
  apply steady_request.
Qed.

Lemma steady_issue b st values : ∀ h, steady h (Engine.issue b st values h).2.
Proof.
  induction values as [|v values IH]; intros h; simpl; [apply steady_refl|].
  destruct (Engine.prepare st v h) as [key|e].
  - specialize (IH h). destruct (Engine.issue b st values h). exact IH.
  - set (h1 := Engine.record_event _ h). specialize (IH h1).
    destruct (Engine.issue b st values h1). simpl in *.
    eapply steady_trans; [apply steady_record_event|exact IH].
Qed.

Lemma steady_rollback st saved h : steady h (Engine.rollback st saved h).
Proof. destruct saved; [apply steady_write_store|apply steady_refl]. Qed.

Lemma steady_serve b st saved items : ∀ aborted h,
  steady h (Engine.serve b st saved aborted items h).2.
Proof.
  induction items as [|[e|v key] items IH]; intros aborted h; simpl.
  - apply steady_refl.
  - specialize (IH aborted h). destruct (Engine.serve b st saved aborted items h). exact IH.
  - destruct aborted.
    + set (h1 := Engine.record_event _ h). specialize (IH true h1).
      destruct (Engine.serve b st saved true items h1). simpl in *.
      eapply steady_trans; [apply steady_record_event|exact IH].
    + pose proof (steady_request st (Engine.put_rq b v) (Engine.store_record b v key) h) as H1.
      destruct (Engine.request st (Engine.put_rq b v) (Engine.store_record b v key) h)
        as [[k|e] h1]; simpl in *.
      * specialize (IH false h1). destruct (Engine.serve b st saved false items h1).
        simpl in *. eapply steady_trans; eauto.
      * specialize (IH true (Engine.rollback st saved h1)).
        destruct (Engine.serve b st saved true items (Engine.rollback st saved h1)).
        simpl in *. eapply steady_trans; [exact H1|].
        eapply steady_trans; [apply steady_rollback|exact IH].
Qed.

Lemma steady_put_all b st values h : steady h (Engine.put_all b st values h).2.
Proof.
  unfold Engine.put_all. pose proof (steady_issue b st values h) as H1.
  destruct (Engine.issue b st values h) as [items h1]. simpl in *.
  eapply steady_trans; [exact H1|apply steady_serve].
Qed.

Lemma transaction_error_steady db s h h' :
  steady h h' →
  Engine.transaction_error db s h = None → Engine.transaction_error db s h' = None.
Proof.
  intros (Hc & _ & _ & Hs). unfold Engine.transaction_error. rewrite Hc.
  case_bool_decide; [|done].
  destruct (databases h !! conn_name db ≫= (λ d, db_stores d !! s)) as [os|] eqn:E; [|done].
  intros _. destruct (Hs (conn_name db) s) as [os' Hos'].
  { unfold has_store. rewrite E. eauto. }
  rewrite Hos'. done.
Qed.

(** ** Inverting a resolved computation *)

Lemma bind_resolved_inv {A B} (m : M A) (f : A → M B) w b w' :
  (m ≫= f) w = (Resolved b, w') →
  ∃ a w1, m w = (Resolved a, w1) ∧ f a w1 = (Resolved b, w').
Proof.
  rewrite bind_eq. destruct (m w) as [[a|e] w1]; [eauto|discriminate].
Qed.

Lemma transaction_eq s mode w :
  Wrapper.transaction s mode w =
  match dbPromise (this w) with
  | Rejected e => (Rejected e, w)
  | Resolved db =>
    match Engine.transaction_error db s (host w) with
    | Some e => (Rejected (Raw e), logged [EvTransaction s mode (Some e)] w)
    | None => (Resolved (mkIDBObjectStore db s mode), logged [EvTransaction s mode None] w)
    end
  end.
Proof.
  unfold Wrapper.transaction, mbind, M_bind, await, promise, Engine.transaction.
  destruct (dbPromise (this w)) as [db|e]; [|reflexivity]. simpl.
  destruct (Engine.transaction_error db s (host w)) as [e|]; [reflexivity|].
  simpl. unfold Engine.objectStore. simpl.
  destruct (decide (s = s)); [reflexivity|done].
Qed.

Lemma transaction_resolved_inv s mode w st w' :
  Wrapper.transaction s mode w = (Resolved st, w') →
  live w s ∧ st = mkIDBObjectStore (st_db st) s mode ∧
  dbPromise (this w) = Resolved (st_db st) ∧
  w' = logged [EvTransaction s mode None] w.
Proof.
  rewrite transaction_eq. destruct (dbPromise (this w)) as [db|e] eqn:Hp; [|discriminate].
  destruct (Engine.transaction_error db s (host w)) as [e|] eqn:He; [discriminate|].
  intros [= <- <-]. repeat split; try done. exists db. done.
Qed.

(** ** Reading a store *)

Lemma write_store_same st os h :
  Engine.lookup_store st h = Some os → Engine.write_store st os h = h.
Proof.
  unfold Engine.lookup_store, Engine.write_store. intros H.
  destruct (databases h !! conn_name (st_db st)) as [d|] eqn:Hd; [|done]. simpl in H.
  rewrite alter_id.
  - by destruct h.
  - intros d' Hd'. rewrite Hd in Hd'. injection Hd' as <-.
    rewrite insert_id by done. by destruct d.
Qed.

Lemma live_store_of w s :
  live w s → ∃ os, store_of w s = Some os.
Proof.
  intros (db & Hp & He). unfold store_of. rewrite Hp.
  unfold Engine.transaction_error in He. case_bool_decide; [|done].
  destruct (databases (host w) !! conn_name db ≫= (λ d, db_stores d !! s)); [eauto|done].
Qed.

Lemma head_fault_eq (w : World) :
  Engine.take_fault (host w) = (next_fault w, host (consumed w)).
Proof.
  unfold Engine.take_fault, next_fault, consumed.
  destruct (host w) as [d c n [|f fs] l j u]; reflexivity.
Qed.

(** A read request that is served leaves the world as it was, but for
    the log and the failure script. *)
Lemma read_request_eq {A} st rq (read : ObjectStore → A) (w : World) os :
  Engine.lookup_store st (host w) = Some os →
  promise (Engine.request st rq (λ os, inl (read os, os))) w =
  match next_fault w with
  | Some e => (Rejected (Raw e), logged [EvRequest (st_name st) rq (Some e)] (consumed w))
  | None => (Resolved (read os), logged [EvRequest (st_name st) rq None] (consumed w))
  end.
Proof.
  intros Hos. unfold promise, Engine.request. rewrite head_fault_eq.
  destruct (next_fault w) as [e|]; [reflexivity|].
  assert (Hos' : Engine.lookup_store st (host (consumed w)) = Some os) by exact Hos.
  rewrite Hos'. simpl. rewrite write_store_same by exact Hos'. reflexivity.
Qed.

Lemma logged_logged a b w : logged b (logged a w) = logged (a ++ b) w.
Proof. unfold logged. simpl. by rewrite <- app_assoc. Qed.

Lemma consumed_logged a w : consumed (logged a w) = logged a (consumed w).
Proof. reflexivity. Qed.

Lemma next_fault_logged a w : next_fault (logged a w) = next_fault w.
Proof. reflexivity. Qed.

Lemma lookup_store_store_of w s db mode os :
  dbPromise (this w) = Resolved db → store_of w s = Some os →
  Engine.lookup_store (mkIDBObjectStore db s mode) (host w) = Some os.
Proof. unfold store_of, Engine.lookup_store. intros ->. done. Qed.

Lemma getAll_eq s w os :
  live w s → store_of w s = Some os →
  Wrapper.getAll s w =
  match next_fault w with
  | Some e =>
    (Rejected (Raw e),
     logged [EvTransaction s readonly None; EvRequest s RqGetAll (Some e)] (consumed w))
  | None =>
    (Resolved (snapshot os),
     logged [EvTransaction s readonly None; EvRequest s RqGetAll None] (consumed w))
  end.
Proof.
  intros (db & Hp & He) Hos. unfold Wrapper.getAll. rewrite bind_eq, transaction_eq, Hp, He.
  unfold Engine.getAll. erewrite read_request_eq.
  2:{ eapply (lookup_store_store_of (logged _ w)); [exact Hp|exact Hos]. }
  rewrite next_fault_logged, consumed_logged.
  destruct (next_fault w); rewrite logged_logged; reflexivity.
Qed.

(** ** Calling the listeners *)

Lemma invoke_eq cb data w :
  Wrapper.invoke cb data w =
  (match call cb data with None => Resolved tt | Some e => Rejected e end,
   logged [EvListener (ref cb) data] w).
Proof. unfold Wrapper.invoke. rewrite bind_eq. simpl. by destruct (call cb data). Qed.

Lemma logged_nil w : logged [] w = w.
Proof. unfold logged. rewrite app_nil_r. by destruct w as [[] ?]. Qed.

(** All listeners return: each one is called, in order. *)
Lemma forEach_all arr data : ∀ w,
  Forall (λ cb, call cb data = None) arr →
  Wrapper.forEach arr data w
  = (Resolved tt, logged (map (λ cb, EvListener (ref cb) data) arr) w).
Proof.
  induction arr as [|cb arr IH]; intros w H; simpl.
  - by rewrite logged_nil.
  - inversion H as [|? ? Hcb Harr]; subst.
    rewrite bind_eq, invoke_eq, Hcb, IH by done. by rewrite logged_logged.
Qed.

(** A listener throws: [forEach] stops there, and the listeners behind
    it are not called. *)
Lemma forEach_throws pre cb post data e w :
  Forall (λ cb, call cb data = None) pre → call cb data = Some e →
  Wrapper.forEach (pre ++ cb :: post) data w
  = (Rejected e, logged (map (λ cb, EvListener (ref cb) data) (pre ++ [cb])) w).
Proof.
  revert w. induction pre as [|p pre IH]; intros w Hpre Hcb; simpl.
  - by rewrite bind_eq, invoke_eq, Hcb.
  - inversion Hpre as [|? ? Hp Hpre']; subst.
    rewrite bind_eq, invoke_eq, Hp, IH by done. by rewrite logged_logged.
Qed.

Lemma notify_eq s w :
  Wrapper.notify s w =
  match Wrapper.getAll s w with
  | (Resolved data, w1) => Wrapper.forEach (listeners w1 s) data w1
  | (Rejected e, w1) => (Rejected e, w1)
  end.
Proof.
  unfold Wrapper.notify. rewrite bind_eq.
  destruct (Wrapper.getAll s w) as [[data|e] w1]; [|reflexivity].
  rewrite bind_eq. unfold field, listeners.
  destruct (subscribers (this w1) !! s); reflexivity.
Qed.

(** ** A mutating method that resolved *)

Lemma live_steady w w' s :
  this w' = this w → steady (host w) (host w') → live w s → live w' s.
Proof.
  intros Ht Hs (db & Hp & He). exists db. rewrite Ht. split; [done|].
  eapply transaction_error_steady; eauto.
Qed.

Lemma calm_promise {A} (rq : Browser → (A + EngineError) * Browser) :
  (∀ h, steady h (rq h).2) → calm (promise rq).
Proof.
  intros H w. unfold promise. specialize (H (host w)).
  destruct (rq (host w)) as [r h]. done.
Qed.

Lemma calm_bulk b st values :
  calm (items ← promise (λ h, let '(outs, h') := Engine.put_all b st values h in (inl outs, h'));
        Promise_all items).
Proof.
  intros w. rewrite bind_eq. unfold promise.
  pose proof (steady_put_all b st values (host w)) as H.
  destruct (Engine.put_all b st values (host w)) as [outs h']. simpl in *.
  unfold Promise_all. repeat case_match; done.
Qed.

(** The shape shared by the six mutating methods. *)
Lemma mutating_resolved {A B} s (body : IDBObjectStore → M A) (g : A → B) w r w' :
  (∀ st, calm (body st)) →
  (store ← Wrapper.transaction s readwrite;
   x ← body store;
   start (JNotify s);;
   mret (g x)) w = (Resolved r, w') →
  live w s ∧ live w' s ∧ this w' = this w ∧
  jobs (host w') = jobs (host w) ++ [JNotify s] ∧
  ∃ x w2, body (mkIDBObjectStore
                  (match dbPromise (this w) with Resolved db => db | _ => mkIDBDatabase 0 "" end)
                  s readwrite)
               (logged [EvTransaction s readwrite None] w) = (Resolved x, w2) ∧
          r = g x ∧
          w' = mkWorld (set_jobs (jobs (host w2) ++ [JNotify s]) (host w2)) (this w2).
Proof.
  intros Hcalm H.
  apply bind_resolved_inv in H as (st & w1 & Htx & H).
  apply bind_resolved_inv in H as (x & w2 & Hbody & H).
  apply bind_resolved_inv in H as ([] & w3 & Hstart & H).
  injection H as <- <-. injection Hstart as <-.
  apply transaction_resolved_inv in Htx as (Hlive & Hst & Hp & ->).
  destruct (Hcalm st (logged [EvTransaction s readwrite None] w)) as [Ht Hs].
  rewrite Hbody in Ht, Hs. simpl in Ht, Hs.
  assert (Hlive2 : live w2 s) by (eapply live_steady; [exact Ht|exact Hs|exact Hlive]).
  split; [exact Hlive|]. split; [exact Hlive2|]. split; [exact Ht|].
  split.
  { simpl. destruct Hs as (_ & -> & _). reflexivity. }
  exists x, w2. rewrite Hp. rewrite <- Hst. done.
Qed.

Lemma bind_assoc {A B C} (m : M A) (f : A → M B) (g : B → M C) w :
  (m ≫= λ a, f a ≫= g) w = ((m ≫= f) ≫= g) w.
Proof.
  rewrite !bind_eq. destruct (m w) as [[a|e] w1]; [|reflexivity].
  by rewrite bind_eq.
Qed.

Lemma bulkAdd_shape s values w :
  Wrapper.bulkAdd s values w =
  (store ← Wrapper.transaction s readwrite;
   x ← bulk_body true values store;
   start (JNotify s);;
   mret (id x)) w.
Proof.
  unfold Wrapper.bulkAdd. rewrite !(bind_eq (Wrapper.transaction _ _)).
  destruct (Wrapper.transaction s readwrite w) as [[st|e] w1]; [|reflexivity].
  unfold bulk_body. by rewrite <- bind_assoc.
Qed.

Lemma bulkUpdate_shape s values w :
  Wrapper.bulkUpdate s values w =
  (store ← Wrapper.transaction s readwrite;
   x ← bulk_body false values store;
   start (JNotify s);;
   mret (id x)) w.
Proof.
  unfold Wrapper.bulkUpdate. rewrite !(bind_eq (Wrapper.transaction _ _)).
  destruct (Wrapper.transaction s readwrite w) as [[st|e] w1]; [|reflexivity].
  unfold bulk_body. by rewrite <- bind_assoc.
Qed.

Lemma perform_mutation_resolved c s w r w' :
  mutation c = Some s → perform c w = (Resolved r, w') →
  live w s ∧ live w' s ∧ this w' = this w ∧
  jobs (host w') = jobs (host w) ++ [JNotify s].
Proof.
  intros Hm H. destruct c; simpl in Hm; try discriminate; injection Hm as ->;
    simpl in H; unfold fmapM in H;
    apply bind_resolved_inv in H as (x & w1 & H & Hr); injection Hr as <- <-.
  - eapply (mutating_resolved s (λ st, promise (Engine.put true st value)) id) in H
      as (?&?&?&?&?); [done|]. intros st. apply calm_promise, steady_put.
  - eapply (mutating_resolved s (λ st, promise (Engine.put false st value)) id) in H
      as (?&?&?&?&?); [done|]. intros st. apply calm_promise, steady_put.
  - eapply (mutating_resolved s (λ st, promise (Engine.delete st key)) (λ _, tt)) in H
      as (?&?&?&?&?); [done|]. intros st. apply calm_promise, steady_delete.
  - eapply (mutating_resolved s (λ st, promise (Engine.clear st)) (λ _, tt)) in H
      as (?&?&?&?&?); [done|]. intros st. apply calm_promise, steady_clear.
  - rewrite bulkAdd_shape in H.
    eapply (mutating_resolved s _ id) in H as (?&?&?&?&?); [done|].
    intros st. apply (calm_bulk true).
  - rewrite bulkUpdate_shape in H.
    eapply (mutating_resolved s _ id) in H as (?&?&?&?&?); [done|].
    intros st. apply (calm_bulk false).
Qed.

(** ** The registry does not decide what a method returns *)

Lemma oblivious_ret {A} (a : A) : oblivious (mret a).
Proof. done. Qed.

Lemma oblivious_throw {A} e : oblivious (@throw A e).
Proof. done. Qed.

Lemma oblivious_await : oblivious (await dbPromise).
Proof. done. Qed.

Lemma oblivious_dbName : oblivious (field dbName).
Proof. done. Qed.

Lemma oblivious_promise {A} (rq : Browser → (A + EngineError) * Browser) :
  oblivious (promise rq).
Proof. intros subs w. unfold promise. simpl. by destruct (rq (host w)). Qed.

Lemma oblivious_on_host f : oblivious (on_host f).
Proof. done. Qed.

Lemma oblivious_ask_host {A} (f : Browser → A) : oblivious (ask_host f).
Proof. done. Qed.

Lemma oblivious_bind {A B} (m : M A) (f : A → M B) :
  oblivious m → (∀ a, oblivious (f a)) → oblivious (m ≫= f).
Proof.
  intros Hm Hf subs w. rewrite !bind_eq, Hm.
  destruct (m w) as [[a|e] w1]; simpl; [apply Hf|done].
Qed.

Lemma oblivious_Promise_all outs : oblivious (Promise_all outs).
Proof. unfold Promise_all. by repeat case_match. Qed.

Ltac oblivious_tac :=
  repeat first
    [ apply oblivious_ret | apply oblivious_throw | apply oblivious_await
    | apply oblivious_dbName | apply oblivious_promise | apply oblivious_on_host
    | apply oblivious_ask_host | apply oblivious_Promise_all
    | apply oblivious_bind; [|intros ?] ].

Lemma oblivious_onsuccess st remaining : oblivious (Wrapper.onsuccess st remaining).
Proof.
  induction remaining as [|[k v] rest IH]; simpl.
  - oblivious_tac.
  - apply oblivious_bind; [apply oblivious_promise|intros _].
    apply oblivious_bind; [apply oblivious_on_host|intros _; exact IH].
Qed.

Lemma oblivious_perform c : oblivious (perform c).
Proof.
  destruct c; simpl; unfold fmapM,
    Wrapper.add, Wrapper.get, Wrapper.getAll, Wrapper.update, Wrapper.delete,
    Wrapper.clear, Wrapper.getByIndex, Wrapper.count, Wrapper.bulkAdd, Wrapper.bulkUpdate,
    Wrapper.exists_, Wrapper.iterate, Wrapper.close, Wrapper.deleteDatabase,
    Wrapper.transaction, start;
    oblivious_tac; try apply oblivious_onsuccess.
  all: match goal with |- oblivious (match ?x with _ => _ end) => destruct x end;
    oblivious_tac.
Qed.

(** ** One notification cycle *)

Lemma emitted_logged w evs w0 :
  log (host w0) = log (host w) → emitted w (logged evs w0) = evs.
Proof. intros H. unfold emitted, logged. simpl. rewrite H. apply drop_app_length. Qed.

Lemma emitted_unhandled_by w e w' : emitted w (unhandled_by e w') = emitted w w'.
Proof. reflexivity. Qed.

Lemma deliveries_app a b : deliveries (a ++ b) = deliveries a ++ deliveries b.
Proof. unfold deliveries. apply omap_app. Qed.

Lemma deliveries_listeners arr data :
  deliveries (map (λ cb, EvListener (ref cb) data) arr) = map (λ cb, (ref cb, data)) arr.
Proof. induction arr as [|cb arr IH]; simpl; [done|]. by rewrite <- IH. Qed.

Lemma getAll_reads_cycle s err :
  getAll_reads s [EvTransaction s readonly None; EvRequest s RqGetAll err] = 1.
Proof.
  unfold getAll_reads. rewrite filter_cons. simpl. rewrite filter_cons. simpl.
  rewrite bool_decide_eq_true_2 by done. done.
Qed.

(** The cycle when the engine serves the [getAll]: the listeners are
    called with the snapshot, up to the first one that throws. *)
Lemma notify_served s w os :
  live w s → store_of w s = Some os → next_fault w = None →
  Wrapper.notify s w =
  Wrapper.forEach (listeners w s) (snapshot os)
    (logged [EvTransaction s readonly None; EvRequest s RqGetAll None] (consumed w)).
Proof.
  intros Hl Hos Hf. rewrite notify_eq, (getAll_eq s w os Hl Hos), Hf. reflexivity.
Qed.

(** The cycle when the [getAll] fails: nobody is called. *)
Lemma notify_failed s w os e :
  live w s → store_of w s = Some os → next_fault w = Some e →
  Wrapper.notify s w =
  (Rejected (Raw e),
   logged [EvTransaction s readonly None; EvRequest s RqGetAll (Some e)] (consumed w)).
Proof.
  intros Hl Hos Hf. rewrite notify_eq, (getAll_eq s w os Hl Hos), Hf. reflexivity.
Qed.

Lemma cycle_all_return s w os :
  live w s → store_of w s = Some os → next_fault w = None →
  Forall (λ cb, call cb (snapshot os) = None) (listeners w s) →
  run_job (JNotify s) w =
  logged ([EvTransaction s readonly None; EvRequest s RqGetAll None]
          ++ map (λ cb, EvListener (ref cb) (snapshot os)) (listeners w s)) (consumed w).
Proof.
  intros Hl Hos Hf Hall. unfold run_job. simpl.
  rewrite (notify_served s w os Hl Hos Hf), forEach_all by done.
  by rewrite logged_logged.
Qed.

Lemma cycle_one_throws s w os pre cb post e :
  live w s → store_of w s = Some os → next_fault w = None →
  listeners w s = pre ++ cb :: post →
  Forall (λ cb, call cb (snapshot os) = None) pre → call cb (snapshot os) = Some e →
  run_job (JNotify s) w =
  unhandled_by e
    (logged ([EvTransaction s readonly None; EvRequest s RqGetAll None]
             ++ map (λ cb, EvListener (ref cb) (snapshot os)) (pre ++ [cb])) (consumed w)).
Proof.
  intros Hl Hos Hf Harr Hpre Hcb. unfold run_job. simpl.
  rewrite (notify_served s w os Hl Hos Hf), Harr, (forEach_throws pre cb post _ e) by done.
  by rewrite logged_logged.
Qed.

(** ** Notification without listeners *)

(** C2, as the code has it: a mutating method on a store without
    listeners returns what it returns with any other registry, and when
    it resolves it has started one [notify], which issues exactly one
    [getAll] on the store and calls nobody. *)
Theorem notify_reads_without_listeners
    (c : Call) (s : string) (w : World) (r : Result) (w' : World) :
  mutation c = Some s →
  listeners w s = [] →
  perform c w = (Resolved r, w') →
  (∀ subs, (perform c (resub subs w)).1 = Resolved r) ∧
  jobs (host w') = jobs (host w) ++ [JNotify s] ∧
  getAll_reads s (emitted w' (run_job (JNotify s) w')) = 1 ∧
  deliveries (emitted w' (run_job (JNotify s) w')) = [].
Proof.
  intros Hm Hnone H.
  destruct (perform_mutation_resolved c s w r w' Hm H) as (Hl & Hl' & Ht & Hj).
  split. { intros subs. by rewrite oblivious_perform, H. }
  split; [exact Hj|].
  destruct (live_store_of w' s Hl') as [os Hos].
  assert (Hnone' : listeners w' s = []) by (unfold listeners; rewrite Ht; exact Hnone).
  unfold run_job. simpl.
  destruct (next_fault w') as [e|] eqn:Hf.
  - rewrite (notify_failed s w' os e Hl' Hos Hf), emitted_unhandled_by, emitted_logged by done.
    split; [apply getAll_reads_cycle|reflexivity].
  - rewrite (notify_served s w' os Hl' Hos Hf), Hnone'. simpl.
    rewrite emitted_logged by done. split; [apply getAll_reads_cycle|reflexivity].
Qed.

Lemma notify_reads_without_listeners_witness :
  (∀ subs, (perform (CAdd "users" Sample.alice) (resub subs Sample.ready)).1
           = Resolved (RKey (KNum 1))) ∧
  jobs (host Sample.added) = jobs (host Sample.ready) ++ [JNotify "users"] ∧
  getAll_reads "users" (emitted Sample.added (run_job (JNotify "users") Sample.added)) = 1 ∧
  deliveries (emitted Sample.added (run_job (JNotify "users") Sample.added)) = [].
Proof.
  apply (notify_reads_without_listeners (CAdd "users" Sample.alice) "users" Sample.ready
           (RKey (KNum 1)) Sample.added).
  - reflexivity.
  - reflexivity.
  - vm_compute. reflexivity.
Defined.

(** The claim of C2 as it was made, that no [getAll] is issued for a
    store without listeners, fails for [add] on the sample instance. *)
Lemma no_read_without_listeners_fails :
  ¬ (∀ c s w r w',
       mutation c = Some s → listeners w s = [] → perform c w = (Resolved r, w') →
       getAll_reads s (emitted w' (run_jobs w')) = 0).
Proof.
  intros H.
  specialize (H (CAdd "users" Sample.alice) "users"%string Sample.ready
                (RKey (KNum 1)) Sample.added eq_refl eq_refl).
  assert (Hp : perform (CAdd "users" Sample.alice) Sample.ready
               = (Resolved (RKey (KNum 1)), Sample.added)) by (vm_compute; reflexivity).
  specialize (H Hp). vm_compute in H. discriminate H.
Qed.

(** ** A listener that throws *)

(** C3, as the code has it: when a listener throws during the cycle a
    mutating method started, the listeners before it and the throwing
    one were called with the snapshot, in registration order; the
    listeners behind it are not called; the exception ends up as an
    unhandled rejection of [notify]; and the method itself resolves with
    the same result whatever the registry holds. *)
Theorem listener_throw_ends_cycle
    (c : Call) (s : string) (w0 : World) (r : Result) (w : World) (os : ObjectStore)
    (pre : list Subscriber) (cb : Subscriber) (post : list Subscriber) (e : Thrown) :
  mutation c = Some s →
  perform c w0 = (Resolved r, w) →
  store_of w s = Some os →
  next_fault w = None →
  listeners w s = pre ++ cb :: post →
  Forall (λ l, call l (snapshot os) = None) pre →
  call cb (snapshot os) = Some e →
  (∀ subs, (perform c (resub subs w0)).1 = Resolved r) ∧
  deliveries (emitted w (run_job (JNotify s) w))
  = map (λ l, (ref l, snapshot os)) (pre ++ [cb]) ∧
  unhandled (host (run_job (JNotify s) w)) = unhandled (host w) ++ [e].
Proof.
  intros Hm H Hos Hf Harr Hpre Hcb.
  destruct (perform_mutation_resolved c s w0 r w Hm H) as (_ & Hl & _ & _).
  split. { intros subs. by rewrite oblivious_perform, H. }
  rewrite (cycle_one_throws s w os pre cb post e) by done.
  rewrite emitted_unhandled_by, emitted_logged by done.
  split; [|reflexivity].
  rewrite deliveries_app. simpl. apply deliveries_listeners.
Qed.

Lemma listener_throw_ends_cycle_witness :
  (∀ subs, (perform (CAdd "users" Sample.alice) (resub subs Sample.watched)).1
           = Resolved (RKey (KNum 1))) ∧
  deliveries (emitted Sample.watched_added (run_job (JNotify "users") Sample.watched_added))
  = map (λ l, (ref l, snapshot (Sample.users Sample.watched_added)))
        ([] ++ [Sample.faulty 1]) ∧
  unhandled (host (run_job (JNotify "users") Sample.watched_added))
  = unhandled (host Sample.watched_added) ++ [JsError "listener failed"].
Proof.
  apply (listener_throw_ends_cycle (CAdd "users" Sample.alice) "users" Sample.watched
           (RKey (KNum 1)) Sample.watched_added (Sample.users Sample.watched_added)
           [] (Sample.faulty 1) [Sample.quiet 2] (JsError "listener failed")).
  - reflexivity.
  - vm_compute. reflexivity.
  - vm_compute. reflexivity.
  - reflexivity.
  - reflexivity.
  - constructor.
  - reflexivity.
Defined.

(** The claim of C3 as it was made, that the listeners behind a throwing
    one are still called, fails on the sample instance: the second
    listener is not called. *)
Lemma later_listeners_still_called_fails :
  ¬ (∀ s w os pre cb post e,
       live w s → store_of w s = Some os → next_fault w = None →
       listeners w s = pre ++ cb :: post →
       call cb (snapshot os) = Some e →
       Forall (λ l, (ref l, snapshot os) ∈ deliveries (emitted w (run_job (JNotify s) w)))
              post).
Proof.
  intros H.
  specialize (H "users"%string Sample.watched_added (Sample.users Sample.watched_added)
                [] (Sample.faulty 1) [Sample.quiet 2] (JsError "listener failed")).
  assert (Hl : live Sample.watched_added "users").
  { eexists. split; [reflexivity|]. vm_compute. reflexivity. }
  assert (Hos : store_of Sample.watched_added "users"
                = Some (Sample.users Sample.watched_added)) by (vm_compute; reflexivity).
  specialize (H Hl Hos eq_refl eq_refl eq_refl).
  apply Forall_cons in H as [H _].
  vm_compute in H. apply list_elem_of_singleton in H. discriminate H.
Qed.

(** ** Requests that write *)

Lemma request_eq {A} st rq (serve : ObjectStore → (A * ObjectStore) + EngineError)
    (w : World) os :
  Engine.lookup_store st (host w) = Some os →
  promise (Engine.request st rq serve) w =
  match next_fault w with
  | Some e => (Rejected (Raw e), logged [EvRequest (st_name st) rq (Some e)] (consumed w))
  | None =>
    match serve os with
    | inl (a, os') =>
      (Resolved a, logged [EvRequest (st_name st) rq None] (stored st os' (consumed w)))
    | inr e => (Rejected (Raw e), logged [EvRequest (st_name st) rq (Some e)] (consumed w))
    end
  end.
Proof.
  intros Hos. unfold promise, Engine.request. rewrite head_fault_eq.
  destruct (next_fault w) as [e|]; [reflexivity|].
  assert (Hos' : Engine.lookup_store st (host (consumed w)) = Some os) by exact Hos.
  rewrite Hos'. destruct (serve os) as [[a os']|e]; reflexivity.
Qed.

Lemma lookup_store_write_store st os os' h :
  Engine.lookup_store st h = Some os →
  Engine.lookup_store st (Engine.write_store st os' h) = Some os'.
Proof.
  unfold Engine.lookup_store, Engine.write_store. simpl. intros H.
  destruct (databases h !! conn_name (st_db st)) as [d|] eqn:Hd; [|done].
  rewrite lookup_alter, decide_True by done. rewrite Hd. simpl.
  apply lookup_insert_eq.
Qed.

Lemma store_of_lookup_store w s mode db :
  dbPromise (this w) = Resolved db →
  store_of w s = Engine.lookup_store (mkIDBObjectStore db s mode) (host w).
Proof. unfold store_of. intros ->. reflexivity. Qed.

Lemma stored_logged st os a w : stored st os (logged a w) = logged a (stored st os w).
Proof. reflexivity. Qed.

Lemma store_of_logged a w s : store_of (logged a w) s = store_of w s.
Proof. reflexivity. Qed.

Lemma store_of_stored w s db mode os os' :
  dbPromise (this w) = Resolved db → store_of w s = Some os →
  store_of (stored (mkIDBObjectStore db s mode) os' w) s = Some os'.
Proof.
  intros Hp Hos. rewrite (store_of_lookup_store _ s mode db) by exact Hp.
  apply (lookup_store_write_store _ os).
  by rewrite <- (store_of_lookup_store w s mode db Hp).
Qed.

Lemma store_of_started j w s : store_of (started j w) s = store_of w s.
Proof. reflexivity. Qed.

(** ** [delete] *)

Lemma delete_resolved_inv s k w w' os :
  Wrapper.delete s k w = (Resolved tt, w') → store_of w s = Some os →
  ∃ db, dbPromise (this w) = Resolved db ∧
    next_fault w = None ∧
    w' = started (JNotify s)
           (logged [EvTransaction s readwrite None; EvRequest s (RqDelete k) None]
              (stored (mkIDBObjectStore db s readwrite)
                 (set_records (base.delete k (os_records os)) os) (consumed w))).
Proof.
  intros H Hos. unfold Wrapper.delete in H.
  apply bind_resolved_inv in H as (st & w1 & Htx & H).
  apply bind_resolved_inv in H as ([] & w2 & Hrq & H).
  apply bind_resolved_inv in H as ([] & w3 & Hstart & H).
  injection H as <-. injection Hstart as <-.
  apply transaction_resolved_inv in Htx as (Hlive & Hst & Hp & ->).
  exists (st_db st). split; [exact Hp|].
  rewrite Hst in Hrq. unfold Engine.delete in Hrq. simpl in Hrq.
  erewrite request_eq in Hrq.
  2:{ rewrite <- (store_of_lookup_store (logged _ w) s readwrite (st_db st) Hp). exact Hos. }
  rewrite next_fault_logged in Hrq.
  destruct (next_fault w) as [e|]; [discriminate|].
  injection Hrq as <-. split; [reflexivity|].
  by rewrite consumed_logged, stored_logged, logged_logged.
Qed.

(** C9: whenever [delete] resolves it has started one notification
    cycle, also when the key was absent and the store is what it was;
    that cycle (its [getAll] served, the listeners returning) reads the
    store afresh and hands the snapshot to every listener of the store. *)
Theorem delete_always_notifies
    (s : string) (k : Key) (w w' : World) (os : ObjectStore) :
  Wrapper.delete s k w = (Resolved tt, w') →
  store_of w s = Some os →
  next_fault w' = None →
  Forall (λ cb, call cb (snapshot (set_records (base.delete k (os_records os)) os)) = None)
         (listeners w' s) →
  jobs (host w') = jobs (host w) ++ [JNotify s] ∧
  store_of w' s = Some (set_records (base.delete k (os_records os)) os) ∧
  (os_records os !! k = None → store_of w' s = Some os) ∧
  emitted w' (run_job (JNotify s) w')
  = [EvTransaction s readonly None; EvRequest s RqGetAll None]
    ++ map (λ cb, EvListener (ref cb) (snapshot (set_records (base.delete k (os_records os)) os)))
           (listeners w' s).
Proof.
  intros H Hos Hf Hall.
  assert (Hlive : live w' s).
  { eapply (perform_mutation_resolved (CDelete s k) s w RVoid w'); [reflexivity|].
    simpl. unfold fmapM. rewrite bind_eq, H. reflexivity. }
  destruct (delete_resolved_inv s k w w' os H Hos) as (db & Hp & Hf0 & Hw').
  assert (Hos' : store_of w' s = Some (set_records (base.delete k (os_records os)) os)).
  { rewrite Hw', store_of_started, store_of_logged.
    apply (store_of_stored (consumed w) s db readwrite os); [exact Hp|exact Hos]. }
  split. { rewrite Hw'. reflexivity. }
  split; [exact Hos'|]. split.
  { intros Hk. rewrite Hos'. f_equal. unfold set_records.
    rewrite delete_id by exact Hk. by destruct os. }
  rewrite (cycle_all_return s w' _ Hlive Hos' Hf Hall).
  apply emitted_logged. reflexivity.
Qed.

Lemma delete_always_notifies_witness :
  jobs (host Sample.deleted) = jobs (host Sample.listening) ++ [JNotify "users"] ∧
  store_of Sample.deleted "users"
  = Some (set_records (base.delete (KNum 7) (os_records (Sample.users Sample.listening)))
            (Sample.users Sample.listening)) ∧
  (os_records (Sample.users Sample.listening) !! KNum 7 = None →
   store_of Sample.deleted "users" = Some (Sample.users Sample.listening)) ∧
  emitted Sample.deleted (run_job (JNotify "users") Sample.deleted)
  = [EvTransaction "users" readonly None; EvRequest "users" RqGetAll None]
    ++ map (λ cb, EvListener (ref cb)
                    (snapshot (set_records
                                 (base.delete (KNum 7)
                                    (os_records (Sample.users Sample.listening)))
                                 (Sample.users Sample.listening))))
           (listeners Sample.deleted "users").
Proof.
  apply (delete_always_notifies "users" (KNum 7) Sample.listening Sample.deleted
           (Sample.users Sample.listening)).
  - vm_compute. reflexivity.
  - vm_compute. reflexivity.
  - reflexivity.
  - repeat constructor.
Defined.

(** ** The registry *)

Lemma listeners_subscribe s cb w :
  listeners (Wrapper.subscribe s cb w) s = listeners w s ++ [cb].
Proof. unfold listeners, Wrapper.subscribe. simpl. by rewrite lookup_insert_eq. Qed.

Lemma listeners_subscribe_iter s cb n w :
  listeners (Nat.iter n (Wrapper.subscribe s cb) w) s = listeners w s ++ replicate n cb.
Proof.
  induction n as [|n IH]; simpl.
  - by rewrite app_nil_r.
  - rewrite listeners_subscribe, IH, <- app_assoc. f_equal.
    clear. induction n as [|n IH]; [done|]. simpl. by rewrite IH.
Qed.

Lemma indexOf_absent arr cb :
  Forall (λ l, ref l ≠ ref cb) arr → Wrapper.indexOf arr cb = None.
Proof.
  induction 1 as [|l arr Hl _ IH]; simpl; [done|].
  rewrite decide_False by done. by rewrite IH.
Qed.

Lemma indexOf_first old cb rest :
  Forall (λ l, ref l ≠ ref cb) old →
  Wrapper.indexOf (old ++ cb :: rest) cb = Some (length old).
Proof.
  induction 1 as [|l arr Hl _ IH]; simpl.
  - by rewrite decide_True.
  - rewrite decide_False by done. by rewrite IH.
Qed.

Lemma listeners_unsubscribe_absent s cb w :
  Forall (λ l, ref l ≠ ref cb) (listeners w s) →
  Wrapper.unsubscribe s cb w = w.
Proof.
  intros H. unfold Wrapper.unsubscribe, listeners in *.
  destruct (subscribers (this w) !! s) as [arr|]; [|done].
  simpl in H. by rewrite indexOf_absent.
Qed.

Lemma listeners_unsubscribe_first s cb w old rest :
  listeners w s = old ++ cb :: rest →
  Forall (λ l, ref l ≠ ref cb) old →
  listeners (Wrapper.unsubscribe s cb w) s = old ++ rest.
Proof.
  intros Harr Hold. unfold Wrapper.unsubscribe, listeners in *.
  destruct (subscribers (this w) !! s) as [arr|] eqn:E; simpl in Harr.
  - subst arr. rewrite indexOf_first by done. simpl.
    rewrite lookup_insert_eq. simpl. apply delete_middle.
  - by destruct old.
Qed.

Lemma live_subscribe_iter s cb n w s' :
  live (Nat.iter n (Wrapper.subscribe s cb) w) s' ↔ live w s'.
Proof. induction n as [|n IH]; [done|]. simpl. rewrite <- IH. reflexivity. Qed.

Lemma store_of_subscribe_iter s cb n w s' :
  store_of (Nat.iter n (Wrapper.subscribe s cb) w) s' = store_of w s'.
Proof. induction n as [|n IH]; [done|]. simpl. rewrite <- IH. reflexivity. Qed.

Lemma next_fault_subscribe_iter s cb n w :
  next_fault (Nat.iter n (Wrapper.subscribe s cb) w) = next_fault w.
Proof. induction n as [|n IH]; [done|]. simpl. rewrite <- IH. reflexivity. Qed.

Lemma live_unsubscribe s cb w s' : live (Wrapper.unsubscribe s cb w) s' ↔ live w s'.
Proof. unfold Wrapper.unsubscribe. by repeat case_match. Qed.

Lemma store_of_unsubscribe s cb w s' :
  store_of (Wrapper.unsubscribe s cb w) s' = store_of w s'.
Proof. unfold Wrapper.unsubscribe. by repeat case_match. Qed.

Lemma next_fault_unsubscribe s cb w :
  next_fault (Wrapper.unsubscribe s cb w) = next_fault w.
Proof. unfold Wrapper.unsubscribe. by repeat case_match. Qed.

Lemma calls_to_app r a b : calls_to r (a ++ b) = calls_to r a + calls_to r b.
Proof. unfold calls_to. by rewrite deliveries_app, filter_app, length_app. Qed.

Lemma calls_to_others r data arr :
  Forall (λ l, ref l ≠ r) arr →
  calls_to r (map (λ cb, EvListener (ref cb) data) arr) = 0.
Proof.
  unfold calls_to. rewrite deliveries_listeners.
  induction 1 as [|l arr Hl _ IH]; [done|]. simpl.
  rewrite filter_cons_False by done. exact IH.
Qed.

Lemma calls_to_replicate cb data n :
  calls_to (ref cb) (map (λ cb, EvListener (ref cb) data) (replicate n cb)) = n.
Proof.
  unfold calls_to. rewrite deliveries_listeners.
  induction n as [|n IH]; [done|]. simpl.
  rewrite filter_cons_True by done. simpl. by rewrite IH.
Qed.

(** What one cycle calls, when it is served and every listener returns. *)
Lemma cycle_calls s w os r :
  live w s → store_of w s = Some os → next_fault w = None →
  Forall (λ cb, call cb (snapshot os) = None) (listeners w s) →
  calls_to r (emitted w (run_job (JNotify s) w))
  = calls_to r (map (λ cb, EvListener (ref cb) (snapshot os)) (listeners w s)).
Proof.
  intros Hl Hos Hf Hall. rewrite (cycle_all_return s w os Hl Hos Hf Hall).
  rewrite emitted_logged by done. by rewrite calls_to_app.
Qed.

(** C10: the registry keeps duplicates.  For a store whose name is not
    a member of [Object.prototype]: after the same callback was
    subscribed [N] times to the store it is registered [N] times and one
    notification cycle calls it [N] times; one [unsubscribe] removes
    one registration and the next cycle calls it [N - 1] times.  The
    registration removed is the first one: whatever stands before and
    behind it stays, in order. *)
Theorem duplicate_subscriptions
    (s : string) (cb : Subscriber) (N : nat) (w : World) (os : ObjectStore) :
  inherited s = false →
  live w s → store_of w s = Some os → next_fault w = None →
  Forall (λ l, ref l ≠ ref cb) (listeners w s) →
  Forall (λ l, call l (snapshot os) = None) (listeners w s) →
  call cb (snapshot os) = None →
  let w1 := Nat.iter N (Wrapper.subscribe s cb) w in
  let w2 := Wrapper.unsubscribe s cb w1 in
  listeners w1 s = listeners w s ++ replicate N cb ∧
  calls_to (ref cb) (emitted w1 (run_job (JNotify s) w1)) = N ∧
  listeners w2 s = listeners w s ++ replicate (N - 1) cb ∧
  calls_to (ref cb) (emitted w2 (run_job (JNotify s) w2)) = N - 1 ∧
  (∀ w0 before behind,
     listeners w0 s = before ++ cb :: behind →
     Forall (λ l, ref l ≠ ref cb) before →
     listeners (Wrapper.unsubscribe s cb w0) s = before ++ behind).
Proof.
  intros _ Hl Hos Hf Hfresh Hold Hcb w1 w2.
  cut (listeners w1 s = listeners w s ++ replicate N cb ∧
       calls_to (ref cb) (emitted w1 (run_job (JNotify s) w1)) = N ∧
       listeners w2 s = listeners w s ++ replicate (N - 1) cb ∧
       calls_to (ref cb) (emitted w2 (run_job (JNotify s) w2)) = N - 1).
  { intros (?&?&?&?). repeat split; try done.
    intros w0 before behind. apply listeners_unsubscribe_first. }
  assert (H1 : listeners w1 s = listeners w s ++ replicate N cb)
    by apply listeners_subscribe_iter.
  assert (H2 : listeners w2 s = listeners w s ++ replicate (N - 1) cb).
  { subst w2. destruct N as [|n].
    - rewrite listeners_unsubscribe_absent; simpl in *; rewrite ?H1, ?app_nil_r; done.
    - simpl replicate in H1. rewrite (listeners_unsubscribe_first _ _ _ _ _ H1 Hfresh).
      replace (S n - 1) with n by lia. done. }
  assert (Hret : ∀ n, Forall (λ l, call l (snapshot os) = None)
                         (listeners w s ++ replicate n cb)).
  { intros n. apply Forall_app. split; [done|]. by apply Forall_replicate. }
  assert (Hcount : ∀ n, calls_to (ref cb)
                          (map (λ l, EvListener (ref l) (snapshot os))
                               (listeners w s ++ replicate n cb)) = n).
  { intros n. rewrite map_app, calls_to_app, calls_to_others, calls_to_replicate; done. }
  split; [exact H1|]. split; [|split; [exact H2|]].
  - rewrite (cycle_calls s w1 os).
    + rewrite H1. apply Hcount.
    + by apply live_subscribe_iter.
    + subst w1. by rewrite store_of_subscribe_iter.
    + subst w1. by rewrite next_fault_subscribe_iter.
    + rewrite H1. apply Hret.
  - rewrite (cycle_calls s w2 os).
    + rewrite H2. apply Hcount.
    + by apply live_unsubscribe, live_subscribe_iter.
    + subst w2 w1. by rewrite store_of_unsubscribe, store_of_subscribe_iter.
    + subst w2 w1. by rewrite next_fault_unsubscribe, next_fault_subscribe_iter.
    + rewrite H2. apply Hret.
Qed.

Lemma duplicate_subscriptions_witness :
  let w1 := Nat.iter 3 (Wrapper.subscribe "users" (Sample.quiet 9)) Sample.listening in
  let w2 := Wrapper.unsubscribe "users" (Sample.quiet 9) w1 in
  listeners w1 "users"
  = listeners Sample.listening "users" ++ replicate 3 (Sample.quiet 9) ∧
  calls_to (ref (Sample.quiet 9)) (emitted w1 (run_job (JNotify "users") w1)) = 3 ∧
  listeners w2 "users"
  = listeners Sample.listening "users" ++ replicate (3 - 1) (Sample.quiet 9) ∧
  calls_to (ref (Sample.quiet 9)) (emitted w2 (run_job (JNotify "users") w2)) = 3 - 1 ∧
  (∀ w0 before behind,
     listeners w0 "users" = before ++ Sample.quiet 9 :: behind →
     Forall (λ l, ref l ≠ ref (Sample.quiet 9)) before →
     listeners (Wrapper.unsubscribe "users" (Sample.quiet 9) w0) "users" = before ++ behind).
Proof.
  apply (duplicate_subscriptions "users" (Sample.quiet 9) 3 Sample.listening
           (Sample.users Sample.listening)).
  - vm_compute. reflexivity.
  - eexists. split; [reflexivity|]. vm_compute. reflexivity.
  - vm_compute. reflexivity.
  - reflexivity.
  - repeat constructor. simpl. lia.
  - repeat constructor.
  - reflexivity.
Defined.

(** ** [add] then [get] *)

Lemma get_eq s k w os :
  live w s → store_of w s = Some os →
  Wrapper.get s k w =
  match next_fault w with
  | Some e =>
    (Rejected (Raw e),
     logged [EvTransaction s readonly None; EvRequest s (RqGet k) (Some e)] (consumed w))
  | None =>
    (Resolved (os_records os !! k),
     logged [EvTransaction s readonly None; EvRequest s (RqGet k) None] (consumed w))
  end.
Proof.
  intros (db & Hp & He) Hos. unfold Wrapper.get. rewrite bind_eq, transaction_eq, Hp, He.
  unfold Engine.get. erewrite read_request_eq.
  2:{ eapply (lookup_store_store_of (logged _ w)); [exact Hp|exact Hos]. }
  rewrite next_fault_logged, consumed_logged.
  destruct (next_fault w); rewrite logged_logged; reflexivity.
Qed.

Lemma js_to_key_inv x k : Engine.js_to_key x = Some k → x = Engine.key_to_js k.
Proof. destruct x; simpl; intros [= <-]; reflexivity. Qed.

(** What [store_record] stores: the value with its key at the key path. *)
Lemma store_record_inv b v key os k os' :
  Engine.extract_key os v = inl key →
  Engine.store_record b v key os = inl (k, os') →
  os_records os' = <[k := <[os_keyPath os := Engine.key_to_js k]> v]> (os_records os) ∧
  os_keyPath os' = os_keyPath os ∧ os_autoIncrement os' = os_autoIncrement os ∧
  os_indexes os' = os_indexes os ∧
  (b = true → os_records os !! k = None).
Proof.
  unfold Engine.extract_key, Engine.store_record. intros Hkey H.
  assert (Hnone : ∀ k0 : Key,
    (if b && bool_decide (is_Some (os_records os !! k0)) then true else false) = false →
    b = true → os_records os !! k0 = None).
  { intros k0 Hb ->. simpl in Hb. case_bool_decide as Hs; [done|].
    by apply eq_None_not_Some. }
  destruct (v !! os_keyPath os) as [x|] eqn:Hx.
  - destruct (Engine.js_to_key x) as [k0|] eqn:Hk0; [|discriminate].
    injection Hkey as <-. apply js_to_key_inv in Hk0 as ->.
    destruct k0 as [n|t]; simpl in H;
      destruct (b && bool_decide _) eqn:Hb; try discriminate;
      injection H as <- <-; simpl; rewrite (insert_id v) by done;
      (repeat split; try done); apply Hnone; by rewrite Hb.
  - destruct (os_autoIncrement os); [|discriminate]. injection Hkey as <-.
    simpl in H. destruct (b && bool_decide _) eqn:Hb; try discriminate.
    injection H as <- <-. simpl. repeat split; try done. apply Hnone. by rewrite Hb.
Qed.

Lemma put_resolved_inv b s v w k w1 os body_w :
  body_w = logged [EvTransaction s readwrite None] w →
  store_of w s = Some os →
  ∀ db, dbPromise (this w) = Resolved db →
  promise (Engine.put b (mkIDBObjectStore db s readwrite) v) body_w = (Resolved k, w1) →
  ∃ key os',
    next_fault w = None ∧
    Engine.extract_key os v = inl key ∧
    Engine.store_record b v key os = inl (k, os') ∧
    w1 = logged [EvTransaction s readwrite None; EvRequest s (Engine.put_rq b v) None]
           (stored (mkIDBObjectStore db s readwrite) os' (consumed w)).
Proof.
  intros -> Hos db Hp H.
  assert (Hlk : Engine.lookup_store (mkIDBObjectStore db s readwrite)
                  (host (logged [EvTransaction s readwrite None] w)) = Some os).
  { rewrite <- (store_of_lookup_store (logged _ w) s readwrite db Hp). exact Hos. }
  unfold promise in H.
  destruct (Engine.put b _ v _) as [r h] eqn:Hput. unfold Engine.put, Engine.prepare in Hput.
  simpl st_mode in Hput. rewrite Hlk in Hput.
  destruct (Engine.extract_key os v) as [key|e] eqn:Hkey.
  2:{ injection Hput as <- <-. discriminate. }
  assert (Hrq := request_eq (mkIDBObjectStore db s readwrite) (Engine.put_rq b v)
                   (Engine.store_record b v key) _ os Hlk).
  unfold promise in Hrq. rewrite Hput in Hrq. rewrite next_fault_logged in Hrq.
  destruct (next_fault w) as [e|]; [rewrite Hrq in H; discriminate|].
  destruct (Engine.store_record b v key os) as [[k' os']|e] eqn:Hsr;
    rewrite Hrq in H; [|discriminate].
  injection H as <- <-. exists key, os'. repeat split; try done.
  by rewrite consumed_logged, stored_logged, logged_logged.
Qed.

Lemma add_resolved_inv s v w k w1 os :
  Wrapper.add s v w = (Resolved k, w1) → store_of w s = Some os →
  ∃ db key os',
    dbPromise (this w) = Resolved db ∧ next_fault w = None ∧
    Engine.extract_key os v = inl key ∧
    Engine.store_record true v key os = inl (k, os') ∧
    w1 = started (JNotify s)
           (logged [EvTransaction s readwrite None; EvRequest s (RqAdd v) None]
              (stored (mkIDBObjectStore db s readwrite) os' (consumed w))).
Proof.
  intros H Hos. unfold Wrapper.add in H.
  apply bind_resolved_inv in H as (st & w0 & Htx & H).
  apply bind_resolved_inv in H as (k' & w2 & Hrq & H).
  apply bind_resolved_inv in H as ([] & w3 & Hstart & H).
  injection H as <- <-. injection Hstart as <-.
  apply transaction_resolved_inv in Htx as (Hlive & Hst & Hp & ->).
  rewrite Hst in Hrq.
  destruct (put_resolved_inv true s v w k' w2 os _ eq_refl Hos _ Hp Hrq)
    as (key & os' & Hf & Hkey & Hsr & ->).
  exists (st_db st), key, os'. done.
Qed.

(** C7, as the code has it: after [add] resolved with a key, [get] of
    that key (served by the engine) resolves with the stored record,
    which is the added value with the key written at the store's key
    path; that record is the added value itself exactly when the value
    carried this key already. *)
Theorem add_then_get
    (s : string) (v : Value) (w : World) (k : Key) (w1 : World) (os : ObjectStore) :
  store_of w s = Some os →
  Wrapper.add s v w = (Resolved k, w1) →
  next_fault w1 = None →
  (Wrapper.get s k w1).1
  = Resolved (Some (<[os_keyPath os := Engine.key_to_js k]> v)) ∧
  (<[os_keyPath os := Engine.key_to_js k]> v = v
   ↔ v !! os_keyPath os = Some (Engine.key_to_js k)).
Proof.
  intros Hos H Hf.
  assert (Hlive : live w1 s).
  { eapply (perform_mutation_resolved (CAdd s v) s w (RKey k) w1); [reflexivity|].
    simpl. unfold fmapM. rewrite bind_eq, H. reflexivity. }
  destruct (add_resolved_inv s v w k w1 os H Hos)
    as (db & key & os' & Hp & Hf0 & Hkey & Hsr & Hw1).
  destruct (store_record_inv true v key os k os' Hkey Hsr) as (Hrec & _).
  assert (Hos' : store_of w1 s = Some os').
  { rewrite Hw1, store_of_started, store_of_logged.
    apply (store_of_stored (consumed w) s db readwrite os); [exact Hp|exact Hos]. }
  split.
  - rewrite (get_eq s k w1 os' Hlive Hos'), Hf. simpl.
    by rewrite Hrec, lookup_insert_eq.
  - split.
    + intros Heq. rewrite <- Heq. apply lookup_insert_eq.
    + apply insert_id.
Qed.

Lemma add_then_get_witness :
  (Wrapper.get "users" (KNum 1) Sample.with_carol).1
  = Resolved (Some (<[os_keyPath (Sample.users Sample.ready) := Engine.key_to_js (KNum 1)]>
                      Sample.carol)) ∧
  (<[os_keyPath (Sample.users Sample.ready) := Engine.key_to_js (KNum 1)]> Sample.carol
   = Sample.carol
   ↔ Sample.carol !! os_keyPath (Sample.users Sample.ready)
     = Some (Engine.key_to_js (KNum 1))).
Proof.
  apply (add_then_get "users" Sample.carol Sample.ready (KNum 1) Sample.with_carol
           (Sample.users Sample.ready)).
  - vm_compute. reflexivity.
  - vm_compute. reflexivity.
  - reflexivity.
Defined.

(** The round trip of C7 as it was claimed, with the added value itself
    coming back, fails when the engine generates the key:
    [add("users", {name: "Alice"})] then [get("users", 1)] gives
    [{id: 1, name: "Alice"}]. *)
Lemma add_get_round_trip_fails :
  ¬ (∀ s v w k w1,
       Wrapper.add s v w = (Resolved k, w1) → next_fault w1 = None →
       (Wrapper.get s k w1).1 = Resolved (Some v)).
Proof.
  intros H.
  specialize (H "users"%string Sample.alice Sample.ready (KNum 1) Sample.added).
  assert (Hadd : Wrapper.add "users" Sample.alice Sample.ready
                 = (Resolved (KNum 1), Sample.added)) by (vm_compute; reflexivity).
  specialize (H Hadd eq_refl).
  assert (Hid := f_equal (λ out, match out with
                                 | Resolved (Some r) => r !! "id"%string
                                 | _ => None
                                 end) H).
  vm_compute in Hid. discriminate Hid.
Qed.

(** ** [bulkAdd] *)

Lemma extract_key_config os os' v :
  os_keyPath os' = os_keyPath os → os_autoIncrement os' = os_autoIncrement os →
  Engine.extract_key os' v = Engine.extract_key os v.
Proof. unfold Engine.extract_key. by intros -> ->. Qed.

(** What [issue] queues: one item per value, in order. *)
Lemma issue_inv b st os values : ∀ h items h1,
  st_mode st = readwrite →
  Engine.lookup_store st h = Some os →
  Engine.issue b st values h = (items, h1) →
  Engine.lookup_store st h1 = Some os ∧
  Forall2 (λ v it, match it with
                   | Engine.Threw _ => True
                   | Engine.Queued v' key => v' = v ∧ Engine.extract_key os v = inl key
                   end) values items.
Proof.
  induction values as [|v values IH]; intros h items h1 Hmode Hos H; simpl in H.
  - injection H as <- <-. split; [done|constructor].
  - unfold Engine.prepare in H. rewrite Hmode, Hos in H.
    destruct (Engine.extract_key os v) as [key|e] eqn:Hkey.
    + destruct (Engine.issue b st values h) as [items' h'] eqn:Hi.
      injection H as <- <-. destruct (IH _ _ _ Hmode Hos Hi) as [? ?].
      split; [done|]. by constructor.
    + destruct (Engine.issue b st values (Engine.record_event _ h)) as [items' h'] eqn:Hi.
      injection H as <- <-.
      destruct (IH _ _ _ Hmode (Hos : Engine.lookup_store st (Engine.record_event _ h) = _) Hi)
        as [? ?].
      split; [done|]. by constructor.
Qed.

Lemma request_served_inv {A} st rq (serve : ObjectStore → (A * ObjectStore) + EngineError)
    h a h1 os :
  Engine.request st rq serve h = (inl a, h1) →
  Engine.lookup_store st h = Some os →
  ∃ os1, serve os = inl (a, os1) ∧ Engine.lookup_store st h1 = Some os1.
Proof.
  unfold Engine.request, Engine.take_fault. intros H Hos.
  assert (Hgo : ∀ h0, Engine.lookup_store st h0 = Some os →
    match Engine.lookup_store st h0 with
    | Some os0 =>
      match serve os0 with
      | inl (a0, os') =>
        (inl a0, Engine.record_event (EvRequest (st_name st) rq None)
                   (Engine.write_store st os' h0))
      | inr e => (inr e, Engine.record_event (EvRequest (st_name st) rq (Some e)) h0)
      end
    | None =>
      (inr InvalidStateError,
       Engine.record_event (EvRequest (st_name st) rq (Some InvalidStateError)) h0)
    end = (inl a, h1) →
    ∃ os1, serve os = inl (a, os1) ∧ Engine.lookup_store st h1 = Some os1).
  { intros h0 Hos0 H0. rewrite Hos0 in H0.
    destruct (serve os) as [[a0 os']|e]; [|discriminate].
    injection H0 as <- <-. exists os'. split; [done|].
    apply (lookup_store_write_store st os os' h0 Hos0). }
  destruct (faults h) as [|[e|] fs]; simpl in H.
  - exact (Hgo h Hos H).
  - discriminate.
  - exact (Hgo (set_faults fs h) Hos H).
Qed.

(** When every item succeeded, each queued value sits in the store under
    the key its request fired with. *)
Lemma serve_success st saved : ∀ items os h outs h',
  Engine.serve true st saved false items h = (outs, h') →
  Engine.lookup_store st h = Some os →
  Forall (λ it, match it with
                | Engine.Threw _ => True
                | Engine.Queued v key => Engine.extract_key os v = inl key
                end) items →
  first_threw outs = None → first_failed outs = None →
  ∃ os', Engine.lookup_store st h' = Some os' ∧
    os_keyPath os' = os_keyPath os ∧ os_autoIncrement os' = os_autoIncrement os ∧
    os_records os ⊆ os_records os' ∧
    Forall2 (λ it k, ∃ v key, it = Engine.Queued v key ∧
               os_records os' !! k = Some (<[os_keyPath os := Engine.key_to_js k]> v))
            items (results_of outs).
Proof.
  induction items as [|[e|v key] items IH]; intros os h outs h' H Hos Hall Ht Hf; simpl in H.
  - injection H as <- <-. exists os. repeat split; try done.
  - destruct (Engine.serve true st saved false items h) as [outs' h''].
    injection H as <- <-. discriminate Ht.
  - destruct (Engine.request st _ _ h) as [[k|e] h1] eqn:Hrq.
    + destruct (Engine.serve true st saved false items h1) as [outs' h''] eqn:Hs.
      injection H as <- <-.
      destruct (request_served_inv _ _ _ _ _ _ _ Hrq Hos) as (os1 & Hsr & Hos1).
      apply Forall_cons in Hall as [Hkey Hall].
      destruct (store_record_inv true v key os k os1 Hkey Hsr)
        as (Hrec & Hkp & Hai & _ & Hfresh).
      specialize (Hfresh eq_refl).
      destruct (IH os1 h1 outs' h'' Hs Hos1) as (os' & Hos' & Hkp' & Hai' & Hsub & Hrest).
      { eapply Forall_impl; [exact Hall|]. intros [e|v' key']; [done|].
        intros Hk. by rewrite (extract_key_config os os1). }
      { exact Ht. }
      { exact Hf. }
      exists os'. split; [exact Hos'|]. split; [congruence|]. split; [congruence|].
      split.
      { etrans; [|exact Hsub]. rewrite Hrec. by apply insert_subseteq. }
      simpl. constructor.
      * exists v, key. split; [done|].
        eapply lookup_weaken; [|exact Hsub]. rewrite Hrec. apply lookup_insert_eq.
      * rewrite <- Hkp. exact Hrest.
    + destruct (Engine.serve true st saved true items _) as [outs' h''].
      injection H as <- <-. discriminate Hf.
Qed.

Lemma put_all_success st os values h outs h' :
  st_mode st = readwrite →
  Engine.lookup_store st h = Some os →
  Engine.put_all true st values h = (outs, h') →
  first_threw outs = None → first_failed outs = None →
  ∃ os', Engine.lookup_store st h' = Some os' ∧
    Forall2 (λ v k, os_records os' !! k = Some (<[os_keyPath os := Engine.key_to_js k]> v))
            values (results_of outs).
Proof.
  intros Hmode Hos H Ht Hf. unfold Engine.put_all in H.
  destruct (Engine.issue true st values h) as [items h1] eqn:Hi.
  destruct (issue_inv true st os values h items h1 Hmode Hos Hi) as [Hos1 Hitems].
  rewrite Hos1 in H.
  destruct (serve_success st (Some os) items os h1 outs h' H Hos1) as
    (os' & Hos' & _ & _ & _ & Hall); try done.
  { clear -Hitems. induction Hitems as [|v it vs its Hv _ IH]; constructor; [|done].
    destruct it; [done|]. by destruct Hv as [-> ?]. }
  exists os'. split; [exact Hos'|].
  clear -Hitems Hall. revert Hall. generalize (results_of outs). clear outs.
  induction Hitems as [|v it vs its Hv _ IH]; intros ks Hall.
  - inversion Hall. constructor.
  - inversion Hall as [|? k ? ks' (v' & key & -> & Hk) Hrest]; subst.
    destruct Hv as [-> _]. constructor; [exact Hk|]. by apply IH.
Qed.

Lemma bulkAdd_resolved_inv s values w keys w' os :
  store_of w s = Some os →
  Wrapper.bulkAdd s values w = (Resolved keys, w') →
  live w' s ∧ jobs (host w') = jobs (host w) ++ [JNotify s] ∧
  ∃ os', store_of w' s = Some os' ∧
    Forall2 (λ v k, os_records os' !! k = Some (<[os_keyPath os := Engine.key_to_js k]> v))
            values keys.
Proof.
  intros Hos H. rewrite bulkAdd_shape in H.
  apply (mutating_resolved s (bulk_body true values) id) in H
    as (Hl & Hl' & Ht & Hj & x & w2 & Hbody & -> & ->);
    [|intros st; apply (calm_bulk true)].
  split; [exact Hl'|]. split; [exact Hj|].
  destruct Hl as (db & Hp & He). rewrite Hp in Hbody.
  unfold bulk_body in Hbody.
  apply bind_resolved_inv in Hbody as (items & w3 & Hput & Hall).
  unfold promise in Hput.
  destruct (Engine.put_all true _ values _) as [outs h'] eqn:Hpa.
  injection Hput as <- <-. unfold Promise_all in Hall.
  destruct (first_threw outs) eqn:Hthrew; [discriminate|].
  destruct (first_failed outs) eqn:Hfailed; [discriminate|].
  injection Hall as <- <-.
  assert (Hlk : Engine.lookup_store (mkIDBObjectStore db s readwrite)
                  (host (logged [EvTransaction s readwrite None] w)) = Some os).
  { rewrite <- (store_of_lookup_store (logged _ w) s readwrite db Hp). exact Hos. }
  destruct (put_all_success (mkIDBObjectStore db s readwrite) os values _ outs h'
              eq_refl Hlk Hpa Hthrew Hfailed) as (os' & Hos' & Hrec).
  exists os'. split; [|exact Hrec].
  rewrite (store_of_lookup_store _ s readwrite db) by exact Hp. exact Hos'.
Qed.

(** C4: when [bulkAdd] resolves, its result lists one key per value, in
    the order of the values, and the store holds every value under its
    key; it has started one notification cycle, not one per value; and
    that cycle (its [getAll] served, the listeners returning) issues one
    [getAll] and hands the snapshot of the store as the bulk operation
    left it to every listener. *)
Theorem bulkAdd_keys_and_one_cycle
    (s : string) (values : list Value) (w : World) (keys : list Key) (w' : World)
    (os : ObjectStore) :
  store_of w s = Some os →
  Wrapper.bulkAdd s values w = (Resolved keys, w') →
  ∃ os',
    store_of w' s = Some os' ∧
    Forall2 (λ v k, os_records os' !! k = Some (<[os_keyPath os := Engine.key_to_js k]> v))
            values keys ∧
    jobs (host w') = jobs (host w) ++ [JNotify s] ∧
    (next_fault w' = None →
     Forall (λ cb, call cb (snapshot os') = None) (listeners w' s) →
     emitted w' (run_job (JNotify s) w')
     = [EvTransaction s readonly None; EvRequest s RqGetAll None]
       ++ map (λ cb, EvListener (ref cb) (snapshot os')) (listeners w' s)).
Proof.
  intros Hos H.
  destruct (bulkAdd_resolved_inv s values w keys w' os Hos H)
    as (Hlive & Hj & os' & Hos' & Hrec).
  exists os'. split; [exact Hos'|]. split; [exact Hrec|]. split; [exact Hj|].
  intros Hf Hall. rewrite (cycle_all_return s w' os' Hlive Hos' Hf Hall).
  apply emitted_logged. reflexivity.
Qed.

Lemma bulkAdd_keys_and_one_cycle_witness :
  ∃ os',
    store_of Sample.bulk_added "users" = Some os' ∧
    Forall2 (λ v k, os_records os' !! k
                    = Some (<[os_keyPath (Sample.users Sample.listening)
                              := Engine.key_to_js k]> v))
            [Sample.alice; Sample.bob] [KNum 1; KNum 2] ∧
    jobs (host Sample.bulk_added) = jobs (host Sample.listening) ++ [JNotify "users"] ∧
    (next_fault Sample.bulk_added = None →
     Forall (λ cb, call cb (snapshot os') = None) (listeners Sample.bulk_added "users") →
     emitted Sample.bulk_added (run_job (JNotify "users") Sample.bulk_added)
     = [EvTransaction "users" readonly None; EvRequest "users" RqGetAll None]
       ++ map (λ cb, EvListener (ref cb) (snapshot os'))
              (listeners Sample.bulk_added "users")).
Proof.
  apply (bulkAdd_keys_and_one_cycle "users" [Sample.alice; Sample.bob] Sample.listening
           [KNum 1; KNum 2] Sample.bulk_added (Sample.users Sample.listening)).
  - vm_compute. reflexivity.
  - vm_compute. reflexivity.
Defined.

(** ** Engine errors reach the caller as they are *)

Lemma first_error_app a b :
  first_error (a ++ b)
  = match first_error a with Some e => Some e | None => first_error b end.
Proof.
  unfold first_error. rewrite omap_app.
  by destruct (omap event_error a).
Qed.

Ltac honest_one ev :=
  exists [ev]; split; [reflexivity|]; intros ? [= <-]; reflexivity.
Ltac honest_ok ev :=
  exists [ev]; split; [reflexivity|]; intros ? [=].

Lemma honest_request {A} st rq (serve : ObjectStore → (A * ObjectStore) + EngineError) :
  honest (Engine.request st rq serve).
Proof.
  intros h. unfold Engine.request, Engine.take_fault.
  destruct (faults h) as [|[e|] fs]; simpl.
  - destruct (Engine.lookup_store st h) as [os|]; [destruct (serve os) as [[a os']|e]|]; simpl.
    + honest_ok (EvRequest (st_name st) rq None).
    + honest_one (EvRequest (st_name st) rq (Some e)).
    + honest_one (EvRequest (st_name st) rq (Some InvalidStateError)).
  - honest_one (EvRequest (st_name st) rq (Some e)).
  - destruct (Engine.lookup_store st (set_faults fs h)) as [os|];
      [destruct (serve os) as [[a os']|e]|]; simpl.
    + honest_ok (EvRequest (st_name st) rq None).
    + honest_one (EvRequest (st_name st) rq (Some e)).
    + honest_one (EvRequest (st_name st) rq (Some InvalidStateError)).
Qed.

Lemma honest_put b st v : honest (Engine.put b st v).
Proof.
  intros h. unfold Engine.put. destruct (Engine.prepare st v h) as [key|e].
  - apply honest_request.
  - simpl. honest_one (EvException (st_name st) (Engine.put_rq b v) e).
Qed.

Lemma honest_delete st k : honest (Engine.delete st k).
Proof.
  intros h. unfold Engine.delete. destruct (st_mode st).
  - simpl. honest_one (EvException (st_name st) (RqDelete k) ReadOnlyError).
  - apply honest_request.
Qed.

Lemma honest_clear st : honest (Engine.clear st).
Proof.
  intros h. unfold Engine.clear. destruct (st_mode st).
  - simpl. honest_one (EvException (st_name st) RqClear ReadOnlyError).
  - apply honest_request.
Qed.

Lemma honest_transaction db s mode : honest (Engine.transaction db s mode).
Proof.
  intros h. unfold Engine.transaction.
  destruct (Engine.transaction_error db s h) as [e|]; simpl.
  - honest_one (EvTransaction s mode (Some e)).
  - honest_ok (EvTransaction s mode None).
Qed.

Lemma honest_index st name : honest (Engine.index st name).
Proof.
  intros h. unfold Engine.index.
  destruct (Engine.lookup_store st h ≫= _) as [path|]; simpl.
  - honest_ok (EvIndex (st_name st) name None).
  - honest_one (EvIndex (st_name st) name (Some NotFoundError)).
Qed.

Lemma honest_cursor_event st next : honest (Engine.cursor_event st next).
Proof.
  intros h. unfold Engine.cursor_event, Engine.take_fault.
  destruct (faults h) as [|[e|] fs]; simpl.
  - honest_ok (EvCursor (st_name st) (fst <$> next) None).
  - honest_one (EvCursor (st_name st) None (Some e)).
  - honest_ok (EvCursor (st_name st) (fst <$> next) None).
Qed.

Lemma honest_deleteDatabase name : honest (Engine.deleteDatabase name).
Proof.
  intros h. unfold Engine.deleteDatabase, Engine.take_fault.
  destruct (faults h) as [|[e|] fs]; simpl; try case_bool_decide; simpl.
  - honest_ok (EvDeleteBlocked name).
  - honest_ok (EvDeleteDatabase name None).
  - honest_one (EvDeleteDatabase name (Some e)).
  - honest_ok (EvDeleteBlocked name).
  - honest_ok (EvDeleteDatabase name None).
Qed.

Lemma faithful_quiet {A} (m : M A) :
  (∀ w, log (host (m w).2) = log (host w)) → faithful m.
Proof. intros H w. exists []. rewrite H, app_nil_r. split; [done|]. intros e [=]. Qed.

Lemma faithful_promise {A} (rq : Browser → (A + EngineError) * Browser) :
  honest rq → faithful (promise rq).
Proof.
  intros H w. unfold promise. destruct (H (host w)) as (evs & Hlog & Herr).
  destruct (rq (host w)) as [r h]. simpl in *. exists evs. split; [done|].
  intros e He. by rewrite (Herr e He).
Qed.

Lemma faithful_emit ev : event_error ev = None → faithful (emit ev).
Proof.
  intros H w. exists [ev]. split; [reflexivity|].
  unfold first_error. simpl. rewrite H. intros e [=].
Qed.

Lemma faithful_bind {A B} (m : M A) (f : A → M B) :
  faithful m → (∀ a, faithful (f a)) → faithful (m ≫= f).
Proof.
  intros Hm Hf w. rewrite bind_eq. destruct (Hm w) as (evs1 & Hlog1 & Herr1).
  destruct (m w) as [[a|x] w1]; simpl in *.
  - destruct (Hf a w1) as (evs2 & Hlog2 & Herr2).
    exists (evs1 ++ evs2). rewrite Hlog2, Hlog1, <- app_assoc. split; [done|].
    intros e. rewrite first_error_app.
    destruct (first_error evs1) as [e1|]; [|apply Herr2].
    by specialize (Herr1 e1 eq_refl).
  - exists evs1. split; [exact Hlog1|].
    intros e He. specialize (Herr1 e He). by injection Herr1 as ->.
Qed.

Ltac faithful_tac :=
  repeat first
    [ apply faithful_quiet; intros ?; reflexivity
    | apply faithful_emit; reflexivity
    | apply faithful_promise;
      first [ apply honest_request | apply honest_put | apply honest_delete
            | apply honest_clear | apply honest_transaction | apply honest_index
            | apply honest_cursor_event | apply honest_deleteDatabase ]
    | apply faithful_bind; [|intros ?] ].

Lemma faithful_transaction s mode : faithful (Wrapper.transaction s mode).
Proof. unfold Wrapper.transaction. faithful_tac. Qed.

Lemma faithful_onsuccess st remaining : faithful (Wrapper.onsuccess st remaining).
Proof.
  induction remaining as [|[k v] rest IH]; simpl.
  - faithful_tac.
  - apply faithful_bind; [faithful_tac|intros _].
    apply faithful_bind; [faithful_tac|intros _; exact IH].
Qed.

Lemma request_log {A} st rq (serve : ObjectStore → (A * ObjectStore) + EngineError) h :
  log (Engine.request st rq serve h).2
  = log h ++ [EvRequest (st_name st) rq
                (match (Engine.request st rq serve h).1 with
                 | inl _ => None
                 | inr e => Some e
                 end)].
Proof.
  unfold Engine.request, Engine.take_fault.
  destruct (faults h) as [|[e|] fs]; simpl; try reflexivity.
  - destruct (Engine.lookup_store st h) as [os|]; [destruct (serve os) as [[a os']|e]|];
      reflexivity.
  - destruct (Engine.lookup_store st (set_faults fs h)) as [os|];
      [destruct (serve os) as [[a os']|e]|]; reflexivity.
Qed.

Lemma first_error_cons ev evs :
  first_error (ev :: evs)
  = match event_error ev with Some e => Some e | None => first_error evs end.
Proof. unfold first_error. simpl. by destruct (event_error ev). Qed.

Lemma issue_errors b st values : ∀ h,
  ∃ evs, log (Engine.issue b st values h).2 = log h ++ evs ∧
         first_error evs = first_thrown_item (Engine.issue b st values h).1.
Proof.
  induction values as [|v values IH]; intros h; simpl.
  - exists []. by rewrite app_nil_r.
  - destruct (Engine.prepare st v h) as [key|e].
    + destruct (IH h) as (evs & Hlog & Herr).
      destruct (Engine.issue b st values h) as [items h']. simpl in *.
      exists evs. done.
    + set (h1 := Engine.record_event _ h). destruct (IH h1) as (evs & Hlog & Herr).
      destruct (Engine.issue b st values h1) as [items h']. simpl in *.
      eexists (_ :: evs). rewrite Hlog. subst h1. simpl. rewrite <- app_assoc.
      split; [reflexivity|]. reflexivity.
Qed.

Lemma serve_errors b st saved items : ∀ aborted h,
  ∃ evs, log (Engine.serve b st saved aborted items h).2 = log h ++ evs ∧
         first_error evs = first_failed (Engine.serve b st saved aborted items h).1 ∧
         first_threw (Engine.serve b st saved aborted items h).1 = first_thrown_item items.
Proof.
  induction items as [|[e|v key] items IH]; intros aborted h; simpl.
  - exists []. by rewrite app_nil_r.
  - destruct (IH aborted h) as (evs & Hlog & Herr & Hthrew).
    destruct (Engine.serve b st saved aborted items h) as [outs h']. simpl in *.
    exists evs. done.
  - destruct aborted.
    + set (h1 := Engine.record_event _ h). destruct (IH true h1) as (evs & Hlog & Herr & Ht).
      destruct (Engine.serve b st saved true items h1) as [outs h']. simpl in *.
      eexists (_ :: evs). rewrite Hlog. subst h1. simpl. rewrite <- app_assoc.
      split; [reflexivity|]. split; [reflexivity|exact Ht].
    + pose proof (request_log st (Engine.put_rq b v) (Engine.store_record b v key) h) as Hrq.
      destruct (Engine.request st (Engine.put_rq b v) (Engine.store_record b v key) h)
        as [[k|e] h1]; simpl in Hrq.
      * destruct (IH false h1) as (evs & Hlog & Herr & Ht).
        destruct (Engine.serve b st saved false items h1) as [outs h']. simpl in *.
        eexists (_ :: evs). rewrite Hlog, Hrq, <- app_assoc.
        split; [reflexivity|]. split; [|exact Ht].
        rewrite first_error_cons. exact Herr.
      * destruct (IH true (Engine.rollback st saved h1)) as (evs & Hlog & Herr & Ht).
        destruct (Engine.serve b st saved true items (Engine.rollback st saved h1))
          as [outs h']. simpl in *.
        eexists (_ :: evs). rewrite Hlog, rollback_log, Hrq, <- app_assoc.
        split; [reflexivity|]. split; [reflexivity|exact Ht].
Qed.

Lemma faithful_bulk_body b values st : faithful (bulk_body b values st).
Proof.
  intros w. unfold bulk_body. rewrite bind_eq. unfold promise, Engine.put_all.
  destruct (issue_errors b st values (host w)) as (evs1 & Hlog1 & Herr1).
  destruct (Engine.issue b st values (host w)) as [items h1]. simpl in *.
  destruct (serve_errors b st (Engine.lookup_store st h1) items false h1)
    as (evs2 & Hlog2 & Herr2 & Hthrew).
  destruct (Engine.serve b st (Engine.lookup_store st h1) false items h1) as [outs h'].
  simpl in *. exists (evs1 ++ evs2). rewrite <- Hthrew in Herr1.
  unfold Promise_all. rewrite first_error_app, Herr1, Herr2.
  destruct (first_threw outs) as [e1|]; simpl.
  - rewrite Hlog2, Hlog1, <- app_assoc. split; [done|]. by intros e [= <-].
  - destruct (first_failed outs) as [e2|]; simpl;
      rewrite Hlog2, Hlog1, <- app_assoc; (split; [done|]); [by intros e [= <-]|by intros e [=]].
Qed.

Lemma faithful_pointwise {A} (m m' : M A) : (∀ w, m w = m' w) → faithful m' → faithful m.
Proof. intros H Hm w. rewrite H. apply Hm. Qed.

Lemma faithful_perform c : faithful (perform c).
Proof.
  destruct c; simpl; unfold fmapM; (apply faithful_bind; [|intros ?; faithful_tac]).
  - unfold Wrapper.add. apply faithful_bind; [apply faithful_transaction|intros st]. faithful_tac.
  - unfold Wrapper.get. apply faithful_bind; [apply faithful_transaction|intros st]. faithful_tac.
  - unfold Wrapper.getAll. apply faithful_bind; [apply faithful_transaction|intros st].
    faithful_tac.
  - unfold Wrapper.update. apply faithful_bind; [apply faithful_transaction|intros st].
    faithful_tac.
  - unfold Wrapper.delete. apply faithful_bind; [apply faithful_transaction|intros st].
    faithful_tac.
  - unfold Wrapper.clear. apply faithful_bind; [apply faithful_transaction|intros st].
    faithful_tac.
  - unfold Wrapper.getByIndex. apply faithful_bind; [apply faithful_transaction|intros st].
    faithful_tac.
  - unfold Wrapper.count. apply faithful_bind; [apply faithful_transaction|intros st].
    faithful_tac.
  - eapply faithful_pointwise; [apply bulkAdd_shape|].
    apply faithful_bind; [apply faithful_transaction|intros st].
    apply faithful_bind; [apply faithful_bulk_body|intros ?]. faithful_tac.
  - eapply faithful_pointwise; [apply bulkUpdate_shape|].
    apply faithful_bind; [apply faithful_transaction|intros st].
    apply faithful_bind; [apply faithful_bulk_body|intros ?]. faithful_tac.
  - unfold Wrapper.exists_. apply faithful_bind; [apply faithful_transaction|intros st].
    faithful_tac.
  - unfold Wrapper.iterate. apply faithful_bind; [apply faithful_transaction|intros st].
    apply faithful_bind; [faithful_tac|intros remaining]. apply faithful_onsuccess.
  - unfold Wrapper.close. apply faithful_bind; [faithful_tac|intros db].
    intros w. exists [EvClose (conn_id db)]. split; [reflexivity|]. intros e [=].
  - unfold Wrapper.deleteDatabase.
    apply faithful_bind.
    { unfold Wrapper.close. apply faithful_bind; [faithful_tac|intros db].
      intros w. exists [EvClose (conn_id db)]. split; [reflexivity|]. intros e [=]. }
    intros _. apply faithful_bind; [faithful_tac|intros name].
    apply faithful_bind; [faithful_tac|intros blocked]. destruct blocked; faithful_tac.
Qed.

(** C1, as the code has it: when the engine reports an error while an
    operation of the operation layer runs (an error event of a request,
    or an exception thrown by [transaction], [index], [add], ...), the
    operation's promise rejects with the first such error object as the
    engine gave it; it is not wrapped into a taxonomy kind. *)
Theorem engine_error_rejects_raw (c : Call) (w : World) (e : EngineError) :
  operation c = true →
  first_error (emitted w (perform c w).2) = Some e →
  (perform c w).1 = Rejected (Raw e) ∧
  ∀ kind, (perform c w).1 ≠ Rejected (Taxonomy kind e).
Proof.
  intros _ He. destruct (faithful_perform c w) as (evs & Hlog & Herr).
  unfold emitted in He. rewrite Hlog, drop_app_length in He.
  rewrite (Herr e He). split; [reflexivity|]. intros kind [=].
Qed.

Lemma engine_error_rejects_raw_witness :
  (perform (CAdd "users" Sample.carol) Sample.with_carol).1
  = Rejected (Raw ConstraintError) ∧
  ∀ kind, (perform (CAdd "users" Sample.carol) Sample.with_carol).1
          ≠ Rejected (Taxonomy kind ConstraintError).
Proof.
  apply (engine_error_rejects_raw (CAdd "users" Sample.carol) Sample.with_carol
           ConstraintError).
  - reflexivity.
  - vm_compute. reflexivity.
Defined.

(** The claim of C1 as it was made, that the engine's error arrives
    wrapped as a taxonomy kind, fails for a second [add] of the same
    key: the promise rejects with the engine's [ConstraintError] itself. *)
Lemma rejection_is_wrapped_fails :
  ¬ (∀ c w e,
       operation c = true →
       first_error (emitted w (perform c w).2) = Some e →
       ∃ kind, (perform c w).1 = Rejected (Taxonomy kind e)).
Proof.
  intros H.
  destruct (H (CAdd "users" Sample.carol) Sample.with_carol ConstraintError eq_refl)
    as [kind Hk].
  - vm_compute. reflexivity.
  - vm_compute in Hk. discriminate Hk.
Qed.

(** ** The key order *)

Lemma Key_compare_antisym a b : Key_compare b a = CompOpp (Key_compare a b).
Proof.
  destruct a as [x|s], b as [y|t]; simpl; try reflexivity.
  - apply Z.compare_antisym.
  - apply String.compare_antisym.
Qed.

Lemma Key_compare_eq a b : Key_compare a b = Eq → a = b.
Proof.
  destruct a as [x|s], b as [y|t]; simpl; try discriminate.
  - intros H. f_equal. by apply Z.compare_eq.
  - intros H. f_equal. by apply String.compare_eq_iff.
Qed.

Lemma Key_compare_refl a : Key_compare a a = Eq.
Proof.
  destruct a as [x|s]; simpl.
  - apply Z.compare_refl.
  - by apply OrderedTypeEx.String_as_OT.cmp_eq.
Qed.

Lemma key_lt_trans a b c : key_lt a b → key_lt b c → key_lt a c.
Proof.
  unfold key_lt. destruct a as [x|s], b as [y|t], c as [z|u]; simpl; try done.
  - rewrite !Z.compare_lt_iff. lia.
  - intros H1 H2. apply OrderedTypeEx.String_as_OT.cmp_lt.
    eapply OrderedTypeEx.String_as_OT.lt_trans;
      by apply OrderedTypeEx.String_as_OT.cmp_lt.
Qed.

Lemma key_leb_lt_or_eq a b : key_leb a b = true ↔ key_lt a b ∨ a = b.
Proof.
  unfold key_leb, key_lt. split.
  - destruct (Key_compare a b) eqn:E; try done; [right|left]; [|done].
    by apply Key_compare_eq.
  - intros [->| ->]; [done|]. by rewrite Key_compare_refl.
Qed.

Global Instance entry_le_total : Total entry_le.
Proof.
  intros [a x] [b y]. unfold entry_le, key_leb. simpl.
  rewrite (Key_compare_antisym a b). destruct (Key_compare a b); simpl; auto.
Qed.

Global Instance entry_le_trans : Transitive entry_le.
Proof.
  intros [a x] [b y] [c z]. unfold entry_le. simpl.
  rewrite !key_leb_lt_or_eq. intros [H1| ->] [H2| ->]; eauto using key_lt_trans.
Qed.

Lemma entries_perm os : Engine.entries os ≡ₚ map_to_list (os_records os).
Proof. apply merge_sort_Permutation. Qed.

Lemma entries_NoDup_keys os : NoDup (Engine.entries os).*1.
Proof. rewrite entries_perm. apply NoDup_fst_map_to_list. Qed.

(** A list that is sorted and has no key twice ascends strictly. *)
Lemma sorted_strict (l : list (Key * Value)) :
  StronglySorted entry_le l → NoDup l.*1 → StronglySorted key_lt l.*1.
Proof.
  induction 1 as [|a l Hl IH Ha]; simpl; intros Hnd; [constructor|].
  apply NoDup_cons in Hnd as [Hnotin Hnd]. constructor; [by apply IH|].
  apply Forall_fmap, Forall_forall. intros b Hb. simpl.
  rewrite Forall_forall in Ha. specialize (Ha b Hb).
  apply key_leb_lt_or_eq in Ha as [Hlt|Heq]; [done|].
  destruct Hnotin. rewrite Heq. by apply list_elem_of_fmap_2.
Qed.

Lemma entries_ascending os : StronglySorted key_lt (Engine.entries os).*1.
Proof.
  apply sorted_strict; [|apply entries_NoDup_keys].
  apply StronglySorted_merge_sort; apply _.
Qed.

(** ** [iterate] *)

Lemma cursor_event_eq st next w :
  promise (Engine.cursor_event st next) w =
  match next_fault w with
  | Some e => (Rejected (Raw e), logged [EvCursor (st_name st) None (Some e)] (consumed w))
  | None => (Resolved next, logged [EvCursor (st_name st) (fst <$> next) None] (consumed w))
  end.
Proof.
  unfold promise, Engine.cursor_event. rewrite head_fault_eq.
  by destruct (next_fault w).
Qed.

Lemma emit_eq ev w : emit ev w = (Resolved tt, logged [ev] w).
Proof. reflexivity. Qed.

Lemma no_faults_next w :
  Forall (λ f, f = None) (faults (host w)) →
  next_fault w = None ∧ Forall (λ f, f = None) (faults (host (consumed w))).
Proof.
  unfold next_fault, consumed. simpl.
  destruct (faults (host w)) as [|f fs]; simpl; [done|].
  intros H. apply Forall_cons in H as [-> H]. done.
Qed.

Lemma onsuccess_spec st remaining : ∀ w,
  ∃ evs,
    log (host (Wrapper.onsuccess st remaining w).2) = log (host w) ++ evs ∧
    (Wrapper.onsuccess st remaining w).1
    = match first_error evs with Some e => Rejected (Raw e) | None => Resolved tt end ∧
    ((Wrapper.onsuccess st remaining w).1 = Resolved tt →
     evs = flat_map (visit (st_name st)) remaining ++ [EvCursor (st_name st) None None]) ∧
    (Forall (λ f, f = None) (faults (host w)) →
     (Wrapper.onsuccess st remaining w).1 = Resolved tt).
Proof.
  induction remaining as [|[k v] rest IH]; intros w; simpl.
  - rewrite bind_eq, cursor_event_eq.
    destruct (next_fault w) as [e|] eqn:Hf.
    + eexists. split; [reflexivity|]. split; [reflexivity|]. split; [discriminate|].
      intros Hnone. apply no_faults_next in Hnone as [Hn _]. congruence.
    + eexists. split; [reflexivity|]. split; [reflexivity|]. done.
  - rewrite bind_eq, cursor_event_eq.
    destruct (next_fault w) as [e|] eqn:Hf.
    + eexists. split; [reflexivity|]. split; [reflexivity|]. split; [discriminate|].
      intros Hnone. apply no_faults_next in Hnone as [Hn _]. congruence.
    + rewrite bind_eq, emit_eq, logged_logged.
      set (w1 := logged _ (consumed w)).
      destruct (IH w1) as (evs & Hlog & Hout & Hres & Htot).
      exists (visit (st_name st) (k, v) ++ evs).
      split. { rewrite Hlog. subst w1. simpl. by rewrite <- app_assoc. }
      split. { rewrite Hout. reflexivity. }
      split. { intros H. rewrite (Hres H). simpl. reflexivity. }
      intros Hnone. apply Htot. by apply no_faults_next in Hnone as [_ ?].
Qed.

Lemma iterate_eq s w os :
  live w s → store_of w s = Some os →
  ∃ db, dbPromise (this w) = Resolved db ∧
    Wrapper.iterate s w
    = Wrapper.onsuccess (mkIDBObjectStore db s readonly) (Engine.entries os)
        (logged [EvTransaction s readonly None] w).
Proof.
  intros (db & Hp & He) Hos. exists db. split; [exact Hp|].
  unfold Wrapper.iterate. rewrite bind_eq, transaction_eq, Hp, He, bind_eq.
  unfold ask_host, Engine.openCursor.
  rewrite (lookup_store_store_of (logged _ w) s db readonly os Hp Hos). reflexivity.
Qed.

(** C6: [iterate] on a store visits the store's records in ascending key
    order, every record once: each cursor event is followed at once by
    the callback for that record, and the promise resolves after the
    event that reports the end of the records.  It rejects with the
    engine's error when a cursor request fails, and it does resolve when
    the engine reports no failure. *)
Theorem iterate_visits_in_key_order (s : string) (w : World) (os : ObjectStore) :
  live w s →
  store_of w s = Some os →
  Engine.entries os ≡ₚ map_to_list (os_records os) ∧
  StronglySorted key_lt (Engine.entries os).*1 ∧
  (Wrapper.iterate s w).1
  = match first_error (emitted w (Wrapper.iterate s w).2) with
    | Some e => Rejected (Raw e)
    | None => Resolved tt
    end ∧
  ((Wrapper.iterate s w).1 = Resolved tt →
   emitted w (Wrapper.iterate s w).2
   = EvTransaction s readonly None
     :: flat_map (visit s) (Engine.entries os) ++ [EvCursor s None None]) ∧
  (Forall (λ f, f = None) (faults (host w)) → (Wrapper.iterate s w).1 = Resolved tt).
Proof.
  intros Hl Hos. split; [apply entries_perm|]. split; [apply entries_ascending|].
  destruct (iterate_eq s w os Hl Hos) as (db & Hp & ->).
  destruct (onsuccess_spec (mkIDBObjectStore db s readonly) (Engine.entries os)
              (logged [EvTransaction s readonly None] w)) as (evs & Hlog & Hout & Hres & Htot).
  assert (Hem : emitted w (Wrapper.onsuccess (mkIDBObjectStore db s readonly)
                             (Engine.entries os)
                             (logged [EvTransaction s readonly None] w)).2
                = EvTransaction s readonly None :: evs).
  { unfold emitted. rewrite Hlog. simpl. rewrite <- app_assoc. apply drop_app_length. }
  rewrite Hem. split; [|split].
  - rewrite Hout, first_error_cons. reflexivity.
  - intros H. by rewrite (Hres H).
  - exact Htot.
Qed.

Lemma iterate_visits_in_key_order_witness :
  Engine.entries (Sample.users Sample.two_users)
  ≡ₚ map_to_list (os_records (Sample.users Sample.two_users)) ∧
  StronglySorted key_lt (Engine.entries (Sample.users Sample.two_users)).*1 ∧
  (Wrapper.iterate "users" Sample.two_users).1
  = match first_error (emitted Sample.two_users
                         (Wrapper.iterate "users" Sample.two_users).2) with
    | Some e => Rejected (Raw e)
    | None => Resolved tt
    end ∧
  ((Wrapper.iterate "users" Sample.two_users).1 = Resolved tt →
   emitted Sample.two_users (Wrapper.iterate "users" Sample.two_users).2
   = EvTransaction "users" readonly None
     :: flat_map (visit "users") (Engine.entries (Sample.users Sample.two_users))
        ++ [EvCursor "users" None None]) ∧
  (Forall (λ f, f = None) (faults (host Sample.two_users)) →
   (Wrapper.iterate "users" Sample.two_users).1 = Resolved tt).
Proof.
  apply (iterate_visits_in_key_order "users" Sample.two_users
           (Sample.users Sample.two_users)).
  - eexists. split; [reflexivity|]. vm_compute. reflexivity.
  - vm_compute. reflexivity.
Defined.

(** * Further properties of the class *)

(** ** One request in one transaction *)

Lemma single_request_eq {A} s mode rq (serve : ObjectStore → (A * ObjectStore) + EngineError)
    (w : World) db os :
  dbPromise (this w) = Resolved db →
  Engine.transaction_error db s (host w) = None →
  store_of w s = Some os →
  (Wrapper.transaction s mode ≫= λ st, promise (Engine.request st rq serve)) w =
  match next_fault w with
  | Some e =>
    (Rejected (Raw e),
     logged [EvTransaction s mode None; EvRequest s rq (Some e)] (consumed w))
  | None =>
    match serve os with
    | inl (a, os') =>
      (Resolved a,
       logged [EvTransaction s mode None; EvRequest s rq None]
         (stored (mkIDBObjectStore db s mode) os' (consumed w)))
    | inr e =>
      (Rejected (Raw e),
       logged [EvTransaction s mode None; EvRequest s rq (Some e)] (consumed w))
    end
  end.
Proof.
  intros Hp He Hos. rewrite bind_eq, transaction_eq, Hp, He.
  erewrite request_eq.
  2:{ eapply (lookup_store_store_of (logged _ w)); [exact Hp|exact Hos]. }
  rewrite next_fault_logged, consumed_logged.
  destruct (next_fault w); [by rewrite logged_logged|].
  destruct (serve os) as [[a os']|e]; by rewrite ?stored_logged, logged_logged.
Qed.

Lemma stored_same w s db mode os :
  dbPromise (this w) = Resolved db → store_of w s = Some os →
  stored (mkIDBObjectStore db s mode) os w = w.
Proof.
  intros Hp Hos. unfold stored. rewrite write_store_same.
  - by destruct w.
  - by apply lookup_store_store_of.
Qed.

Lemma count_eq s w os :
  live w s → store_of w s = Some os →
  Wrapper.count s w =
  match next_fault w with
  | Some e =>
    (Rejected (Raw e),
     logged [EvTransaction s readonly None; EvRequest s RqCount (Some e)] (consumed w))
  | None =>
    (Resolved (size (os_records os)),
     logged [EvTransaction s readonly None; EvRequest s RqCount None] (consumed w))
  end.
Proof.
  intros (db & Hp & He) Hos. unfold Wrapper.count, Engine.count.
  rewrite (single_request_eq s readonly _ _ w db os Hp He Hos).
  destruct (next_fault w); [done|].
  by rewrite (stored_same (consumed w) s db readonly os Hp Hos).
Qed.

Lemma exists_eq s k w os :
  live w s → store_of w s = Some os →
  Wrapper.exists_ s k w =
  match next_fault w with
  | Some e =>
    (Rejected (Raw e),
     logged [EvTransaction s readonly None; EvRequest s (RqGetKey k) (Some e)] (consumed w))
  | None =>
    (Resolved (bool_decide (is_Some (os_records os !! k))),
     logged [EvTransaction s readonly None; EvRequest s (RqGetKey k) None] (consumed w))
  end.
Proof.
  intros (db & Hp & He) Hos. unfold Wrapper.exists_, Engine.getKey.
  rewrite bind_assoc, bind_eq.
  rewrite (single_request_eq s readonly _ _ w db os Hp He Hos).
  destruct (next_fault w); [done|].
  rewrite (stored_same (consumed w) s db readonly os Hp Hos).
  destruct (os_records os !! k) as [v|]; reflexivity.
Qed.

(** ** The reading methods agree *)

Lemma callbacks_app a b : callbacks (a ++ b) = callbacks a ++ callbacks b.
Proof. unfold callbacks. apply omap_app. Qed.

Lemma callbacks_visits s ents :
  callbacks (flat_map (visit s) ents) = map (λ e : Key * Value, (e.2, e.1)) ents.
Proof. induction ents as [|[k v] ents IH]; simpl; [done|]. by rewrite <- IH. Qed.

Lemma no_faults_next_fault w :
  Forall (λ f, f = None) (faults (host w)) → next_fault w = None.
Proof. intros H. by apply no_faults_next in H as [? _]. Qed.

(** X1: on a usable store, [exists] answers [true] exactly when [get]
    of the same key answers with a record. *)
Theorem exists_matches_get (s : string) (k : Key) (w : World) (os : ObjectStore) :
  live w s → store_of w s = Some os → next_fault w = None →
  (Wrapper.get s k w).1 = Resolved (os_records os !! k) ∧
  (Wrapper.exists_ s k w).1 = Resolved (bool_decide (is_Some (os_records os !! k))).
Proof.
  intros Hl Hos Hf. rewrite (get_eq s k w os Hl Hos), (exists_eq s k w os Hl Hos), Hf. done.
Qed.

Lemma exists_matches_get_witness :
  (Wrapper.get "users" (KNum 1) Sample.with_carol).1
  = Resolved (os_records (Sample.users Sample.with_carol) !! KNum 1) ∧
  (Wrapper.exists_ "users" (KNum 1) Sample.with_carol).1
  = Resolved (bool_decide (is_Some (os_records (Sample.users Sample.with_carol) !! KNum 1))).
Proof.
  apply (exists_matches_get "users" (KNum 1) Sample.with_carol
           (Sample.users Sample.with_carol)).
  - eexists. split; [reflexivity|]. vm_compute. reflexivity.
  - vm_compute. reflexivity.
  - reflexivity.
Defined.

(** X2: on a usable store and with an engine that reports no failure,
    [getAll] returns the records in ascending key order, [count]
    returns their number, and [iterate] calls its callback on the same
    records in the same order. *)
Theorem getAll_count_iterate_agree (s : string) (w : World) (os : ObjectStore) :
  live w s → store_of w s = Some os →
  Forall (λ f, f = None) (faults (host w)) →
  StronglySorted key_lt (Engine.entries os).*1 ∧
  (Wrapper.getAll s w).1 = Resolved (Engine.entries os).*2 ∧
  (Wrapper.count s w).1 = Resolved (length (Engine.entries os)) ∧
  callbacks (emitted w (Wrapper.iterate s w).2)
  = map (λ e : Key * Value, (e.2, e.1)) (Engine.entries os).
Proof.
  intros Hl Hos Hnone. pose proof (no_faults_next_fault w Hnone) as Hf.
  split; [apply entries_ascending|].
  split. { by rewrite (getAll_eq s w os Hl Hos), Hf. }
  split.
  { rewrite (count_eq s w os Hl Hos), Hf. simpl. f_equal.
    rewrite <- length_map_to_list. symmetry. apply Permutation_length, entries_perm. }
  destruct (iterate_eq s w os Hl Hos) as (db & Hp & ->).
  destruct (onsuccess_spec (mkIDBObjectStore db s readonly) (Engine.entries os)
              (logged [EvTransaction s readonly None] w)) as (evs & Hlog & _ & Hres & Htot).
  specialize (Hres (Htot Hnone)). unfold emitted. rewrite Hlog. simpl log.
  rewrite <- app_assoc, drop_app_length, Hres. simpl.
  rewrite callbacks_app, callbacks_visits. simpl. by rewrite app_nil_r.
Qed.

Lemma getAll_count_iterate_agree_witness :
  StronglySorted key_lt (Engine.entries (Sample.users Sample.two_users)).*1 ∧
  (Wrapper.getAll "users" Sample.two_users).1
  = Resolved (Engine.entries (Sample.users Sample.two_users)).*2 ∧
  (Wrapper.count "users" Sample.two_users).1
  = Resolved (length (Engine.entries (Sample.users Sample.two_users))) ∧
  callbacks (emitted Sample.two_users (Wrapper.iterate "users" Sample.two_users).2)
  = map (λ e : Key * Value, (e.2, e.1)) (Engine.entries (Sample.users Sample.two_users)).
Proof.
  apply (getAll_count_iterate_agree "users" Sample.two_users (Sample.users Sample.two_users)).
  - eexists. split; [reflexivity|]. vm_compute. reflexivity.
  - vm_compute. reflexivity.
  - constructor.
Defined.

(** ** Reading changes nothing *)

Lemma untouched_refl h : untouched h h.
Proof. done. Qed.

Lemma untouched_trans h1 h2 h3 : untouched h1 h2 → untouched h2 h3 → untouched h1 h3.
Proof. intros (?&?&?&?) (?&?&?&?). repeat split; congruence. Qed.

Lemma untouched_take_fault h : untouched h (Engine.take_fault h).2.
Proof. unfold Engine.take_fault. by destruct (faults h). Qed.

Lemma untouched_lookup_store st h h' :
  untouched h h' → Engine.lookup_store st h' = Engine.lookup_store st h.
Proof. intros (Hd & _). unfold Engine.lookup_store. by rewrite Hd. Qed.

Lemma untouched_read_request {A} st rq (read : ObjectStore → A) h :
  untouched h (Engine.request st rq (λ os, inl (read os, os)) h).2.
Proof.
  unfold Engine.request. pose proof (untouched_take_fault h) as H0.
  destruct (Engine.take_fault h) as [[e|] h1]; simpl in *; [exact H0|].
  destruct (Engine.lookup_store st h1) as [os|] eqn:Hos; simpl; [|exact H0].
  rewrite write_store_same by exact Hos. exact H0.
Qed.

(** A request that fails leaves the engine's data as it was. *)
Lemma untouched_failed_request {A} st rq (serve : ObjectStore → (A * ObjectStore) + EngineError)
    h e :
  (Engine.request st rq serve h).1 = inr e →
  untouched h (Engine.request st rq serve h).2.
Proof.
  unfold Engine.request. pose proof (untouched_take_fault h) as H0.
  destruct (Engine.take_fault h) as [[e0|] h1]; simpl in *; [done|].
  destruct (Engine.lookup_store st h1) as [os|]; simpl; [|done].
  destruct (serve os) as [[a os']|e1]; simpl; [discriminate|done].
Qed.

Lemma inert_bind {A B} (m : M A) (f : A → M B) :
  inert m → (∀ a, inert (f a)) → inert (m ≫= f).
Proof.
  intros Hm Hf w. rewrite bind_eq. destruct (Hm w) as [Ht Hu].
  destruct (m w) as [[a|e] w1]; simpl in *; [|done].
  destruct (Hf a w1) as [Ht' Hu']. split; [congruence|].
  eapply untouched_trans; eauto.
Qed.

Lemma inert_promise {A} (rq : Browser → (A + EngineError) * Browser) :
  (∀ h, untouched h (rq h).2) → inert (promise rq).
Proof.
  intros H w. unfold promise. specialize (H (host w)).
  by destruct (rq (host w)) as [r h].
Qed.

Lemma inert_silent {A} (m : M A) :
  (∀ w, this (m w).2 = this w ∧ untouched (host w) (host (m w).2)) → inert m.
Proof. done. Qed.

Lemma inert_transaction s mode : inert (Wrapper.transaction s mode).
Proof.
  intros w. rewrite transaction_eq.
  destruct (dbPromise (this w)) as [db|e]; [|done].
  by destruct (Engine.transaction_error db s (host w)).
Qed.

Lemma inert_onsuccess st remaining : inert (Wrapper.onsuccess st remaining).
Proof.
  induction remaining as [|[k v] rest IH]; simpl.
  - apply inert_bind; [|by intros ? ?]. intros w. rewrite cursor_event_eq.
    by destruct (next_fault w).
  - apply inert_bind.
    { intros w. rewrite cursor_event_eq. by destruct (next_fault w). }
    intros _. apply inert_bind; [by intros ?|intros _; exact IH].
Qed.

Lemma inert_reading c : reading c = true → inert (perform c).
Proof.
  intros Hc. destruct c; try discriminate Hc; simpl; unfold fmapM;
    (apply inert_bind; [|by intros ? ?]).
  - unfold Wrapper.get, Engine.get. apply inert_bind; [apply inert_transaction|intros st].
    apply inert_promise, untouched_read_request.
  - unfold Wrapper.getAll, Engine.getAll.
    apply inert_bind; [apply inert_transaction|intros st].
    apply inert_promise, untouched_read_request.
  - unfold Wrapper.getByIndex, Engine.index_getAll.
    apply inert_bind; [apply inert_transaction|intros st].
    apply inert_bind.
    { apply inert_promise. intros h. unfold Engine.index. by case_match. }
    intros ix. apply inert_promise, untouched_read_request.
  - unfold Wrapper.count, Engine.count.
    apply inert_bind; [apply inert_transaction|intros st].
    apply inert_promise, untouched_read_request.
  - unfold Wrapper.exists_, Engine.getKey.
    apply inert_bind; [apply inert_transaction|intros st].
    apply inert_bind; [|by intros ? ?].
    apply inert_promise, untouched_read_request.
  - unfold Wrapper.iterate. apply inert_bind; [apply inert_transaction|intros st].
    apply inert_bind; [by intros ?|intros remaining]. apply inert_onsuccess.
Qed.

(** X3: the reading methods ([get], [getAll], [getByIndex], [count],
    [exists], [iterate]) change nothing but the log: whatever they
    return, the databases, the connection, the registry and the job
    queue are what they were, so a read never notifies a listener. *)
Theorem reading_changes_nothing (c : Call) (w : World) :
  reading c = true →
  this (perform c w).2 = this w ∧
  databases (host (perform c w).2) = databases (host w) ∧
  connections (host (perform c w).2) = connections (host w) ∧
  jobs (host (perform c w).2) = jobs (host w) ∧
  unhandled (host (perform c w).2) = unhandled (host w).
Proof. intros Hc. destruct (inert_reading c Hc w) as [? (?&?&?&?)]. done. Qed.

Lemma reading_changes_nothing_witness :
  this (perform (CIterate "users") Sample.two_users).2 = this Sample.two_users ∧
  databases (host (perform (CIterate "users") Sample.two_users).2)
  = databases (host Sample.two_users) ∧
  connections (host (perform (CIterate "users") Sample.two_users).2)
  = connections (host Sample.two_users) ∧
  jobs (host (perform (CIterate "users") Sample.two_users).2) = jobs (host Sample.two_users) ∧
  unhandled (host (perform (CIterate "users") Sample.two_users).2)
  = unhandled (host Sample.two_users).
Proof.
  apply (reading_changes_nothing (CIterate "users") Sample.two_users). reflexivity.
Defined.

(** ** The writing methods, step by step *)

Lemma promise_put_eq b st v w :
  promise (Engine.put b st v) w =
  match Engine.prepare st v (host w) with
  | inr e => (Rejected (Raw e), logged [EvException (st_name st) (Engine.put_rq b v) e] w)
  | inl key => promise (Engine.request st (Engine.put_rq b v) (Engine.store_record b v key)) w
  end.
Proof. unfold promise, Engine.put. by destruct (Engine.prepare st v (host w)). Qed.

Lemma start_eq j w : start j w = (Resolved tt, started j w).
Proof. reflexivity. Qed.

Lemma put_method_eq b s v w db os :
  dbPromise (this w) = Resolved db →
  Engine.transaction_error db s (host w) = None →
  store_of w s = Some os →
  (store ← Wrapper.transaction s readwrite;
   result ← promise (Engine.put b store v);
   start (JNotify s);;
   mret result) w =
  match Engine.extract_key os v with
  | inr e =>
    (Rejected (Raw e),
     logged [EvTransaction s readwrite None; EvException s (Engine.put_rq b v) e] w)
  | inl key =>
    match next_fault w with
    | Some e =>
      (Rejected (Raw e),
       logged [EvTransaction s readwrite None; EvRequest s (Engine.put_rq b v) (Some e)]
         (consumed w))
    | None =>
      match Engine.store_record b v key os with
      | inl (k, os') =>
        (Resolved k,
         started (JNotify s)
           (logged [EvTransaction s readwrite None; EvRequest s (Engine.put_rq b v) None]
              (stored (mkIDBObjectStore db s readwrite) os' (consumed w))))
      | inr e =>
        (Rejected (Raw e),
         logged [EvTransaction s readwrite None; EvRequest s (Engine.put_rq b v) (Some e)]
           (consumed w))
      end
    end
  end.
Proof.
  intros Hp He Hos. rewrite bind_eq, transaction_eq, Hp, He, bind_eq, promise_put_eq.
  assert (Hlk : Engine.lookup_store (mkIDBObjectStore db s readwrite)
                  (host (logged [EvTransaction s readwrite None] w)) = Some os).
  { eapply (lookup_store_store_of (logged _ w)); [exact Hp|exact Hos]. }
  unfold Engine.prepare. simpl st_mode. rewrite Hlk.
  destruct (Engine.extract_key os v) as [key|e]; [|by rewrite logged_logged].
  rewrite (request_eq _ _ _ _ os Hlk), next_fault_logged, consumed_logged.
  destruct (next_fault w); [by rewrite logged_logged|].
  destruct (Engine.store_record b v key os) as [[k os']|e];
    rewrite ?stored_logged, logged_logged; [|done].
  by rewrite bind_eq, start_eq.
Qed.

Lemma write_method_eq {A} s rq (serve : ObjectStore → (A * ObjectStore) + EngineError)
    w db os :
  dbPromise (this w) = Resolved db →
  Engine.transaction_error db s (host w) = None →
  store_of w s = Some os →
  (store ← Wrapper.transaction s readwrite;
   promise (Engine.request store rq serve);;
   start (JNotify s);;
   mret tt) w =
  match next_fault w with
  | Some e =>
    (Rejected (Raw e),
     logged [EvTransaction s readwrite None; EvRequest s rq (Some e)] (consumed w))
  | None =>
    match serve os with
    | inl (a, os') =>
      (Resolved tt,
       started (JNotify s)
         (logged [EvTransaction s readwrite None; EvRequest s rq None]
            (stored (mkIDBObjectStore db s readwrite) os' (consumed w))))
    | inr e =>
      (Rejected (Raw e),
       logged [EvTransaction s readwrite None; EvRequest s rq (Some e)] (consumed w))
    end
  end.
Proof.
  intros Hp He Hos. rewrite bind_assoc, bind_eq.
  rewrite (single_request_eq s readwrite rq serve w db os Hp He Hos).
  destruct (next_fault w); [done|].
  destruct (serve os) as [[a os']|e]; [|done].
  by rewrite bind_eq, start_eq.
Qed.

Lemma delete_eq s k w db os :
  dbPromise (this w) = Resolved db →
  Engine.transaction_error db s (host w) = None →
  store_of w s = Some os →
  Wrapper.delete s k w =
  match next_fault w with
  | Some e =>
    (Rejected (Raw e),
     logged [EvTransaction s readwrite None; EvRequest s (RqDelete k) (Some e)] (consumed w))
  | None =>
    (Resolved tt,
     started (JNotify s)
       (logged [EvTransaction s readwrite None; EvRequest s (RqDelete k) None]
          (stored (mkIDBObjectStore db s readwrite)
             (set_records (base.delete k (os_records os)) os) (consumed w))))
  end.
Proof.
  intros Hp He Hos.
  rewrite <- (write_method_eq s (RqDelete k)
                (λ os, inl (tt, set_records (base.delete k (os_records os)) os))
                w db os Hp He Hos).
  unfold Wrapper.delete. rewrite !(bind_eq (Wrapper.transaction _ _)), transaction_eq, Hp, He.
  reflexivity.
Qed.

Lemma clear_eq s w db os :
  dbPromise (this w) = Resolved db →
  Engine.transaction_error db s (host w) = None →
  store_of w s = Some os →
  Wrapper.clear s w =
  match next_fault w with
  | Some e =>
    (Rejected (Raw e),
     logged [EvTransaction s readwrite None; EvRequest s RqClear (Some e)] (consumed w))
  | None =>
    (Resolved tt,
     started (JNotify s)
       (logged [EvTransaction s readwrite None; EvRequest s RqClear None]
          (stored (mkIDBObjectStore db s readwrite) (set_records ∅ os) (consumed w))))
  end.
Proof.
  intros Hp He Hos.
  rewrite <- (write_method_eq s RqClear (λ os, inl (tt, set_records ∅ os)) w db os Hp He Hos).
  unfold Wrapper.clear. rewrite !(bind_eq (Wrapper.transaction _ _)), transaction_eq, Hp, He.
  reflexivity.
Qed.

Lemma live_written w s db mode os os' evs j :
  dbPromise (this w) = Resolved db →
  Engine.transaction_error db s (host w) = None →
  store_of w s = Some os →
  live (started j (logged evs (stored (mkIDBObjectStore db s mode) os' (consumed w)))) s ∧
  store_of (started j (logged evs (stored (mkIDBObjectStore db s mode) os' (consumed w)))) s
  = Some os'.
Proof.
  intros Hp He Hos. split.
  - assert (Hl : live (logged evs (stored (mkIDBObjectStore db s mode) os' (consumed w))) s).
    { exists db. split; [exact Hp|].
      apply (transaction_error_steady db s (host w)); [|exact He].
      apply (steady_trans _ (host (consumed w))); [apply steady_set_faults|].
      apply (steady_trans _ (host (stored (mkIDBObjectStore db s mode) os' (consumed w))));
        [apply steady_write_store|].
      repeat split; auto. }
    exact Hl.
  - rewrite store_of_started, store_of_logged.
    apply (store_of_stored (consumed w) s db mode os); [exact Hp|exact Hos].
Qed.

Lemma next_fault_written w st os' evs j :
  Forall (λ f, f = None) (faults (host w)) →
  Forall (λ f, f = None) (faults (host (started j (logged evs (stored st os' (consumed w)))))).
Proof. intros H. by apply no_faults_next in H as [_ ?]. Qed.

Lemma extract_key_carried os v k :
  v !! os_keyPath os = Some (Engine.key_to_js k) →
  Engine.extract_key os v = inl (Some k).
Proof. unfold Engine.extract_key. intros ->. by destruct k. Qed.

Lemma store_record_put v k os :
  ∃ os', Engine.store_record false v (Some k) os = inl (k, os') ∧
         os_records os' = <[k := v]> (os_records os).
Proof. destruct k; simpl; eauto. Qed.

Lemma store_record_add_present v k os :
  is_Some (os_records os !! k) →
  Engine.store_record true v (Some k) os = inr ConstraintError.
Proof.
  intros H. unfold Engine.store_record.
  destruct k; simpl; by rewrite bool_decide_eq_true_2.
Qed.

(** X4: [update] is an upsert.  For a value that carries its key, on a
    usable store with an engine that reports no failure, [update]
    resolves with that key whether or not the key was present; [get] of
    the key then returns the new value, and the records under the other
    keys are what they were. *)
Theorem update_replaces
    (s : string) (v : Value) (k : Key) (w : World) (os : ObjectStore) :
  live w s → store_of w s = Some os →
  v !! os_keyPath os = Some (Engine.key_to_js k) →
  Forall (λ f, f = None) (faults (host w)) →
  (Wrapper.update s v w).1 = Resolved k ∧
  (Wrapper.get s k (Wrapper.update s v w).2).1 = Resolved (Some v) ∧
  ∀ k', k' ≠ k →
    (Wrapper.get s k' (Wrapper.update s v w).2).1 = Resolved (os_records os !! k').
Proof.
  intros (db & Hp & He) Hos Hv Hnone. unfold Wrapper.update.
  rewrite (put_method_eq false s v w db os Hp He Hos), (extract_key_carried os v k Hv).
  rewrite (no_faults_next_fault w Hnone).
  destruct (store_record_put v k os) as (os' & -> & Hrec).
  destruct (live_written w s db readwrite os os'
              [EvTransaction s readwrite None; EvRequest s (RqPut v) None] (JNotify s)
              Hp He Hos) as [Hl' Hos'].
  pose proof (no_faults_next_fault _
                (next_fault_written w (mkIDBObjectStore db s readwrite) os'
                   [EvTransaction s readwrite None; EvRequest s (RqPut v) None]
                   (JNotify s) Hnone)) as Hf'.
  simpl. split; [done|]. split.
  - rewrite (get_eq s k _ os' Hl' Hos'), Hf'. simpl. by rewrite Hrec, lookup_insert_eq.
  - intros k' Hne. rewrite (get_eq s k' _ os' Hl' Hos'), Hf'. simpl.
    by rewrite Hrec, lookup_insert_ne.
Qed.

Lemma update_replaces_witness :
  (Wrapper.update "users" Sample.carol Sample.with_carol).1 = Resolved (KNum 1) ∧
  (Wrapper.get "users" (KNum 1) (Wrapper.update "users" Sample.carol Sample.with_carol).2).1
  = Resolved (Some Sample.carol) ∧
  ∀ k', k' ≠ KNum 1 →
    (Wrapper.get "users" k' (Wrapper.update "users" Sample.carol Sample.with_carol).2).1
    = Resolved (os_records (Sample.users Sample.with_carol) !! k').
Proof.
  apply (update_replaces "users" Sample.carol (KNum 1) Sample.with_carol
           (Sample.users Sample.with_carol)).
  - eexists. split; [reflexivity|]. vm_compute. reflexivity.
  - vm_compute. reflexivity.
  - vm_compute. reflexivity.
  - constructor.
Defined.

(** X5: [add] does not overwrite.  For a value that carries a key the
    store already holds, [add] rejects with the engine's
    [ConstraintError], the store is what it was, and no notification is
    started. *)
Theorem add_present_key_rejects
    (s : string) (v : Value) (k : Key) (w : World) (os : ObjectStore) :
  live w s → store_of w s = Some os →
  v !! os_keyPath os = Some (Engine.key_to_js k) →
  is_Some (os_records os !! k) →
  next_fault w = None →
  (Wrapper.add s v w).1 = Rejected (Raw ConstraintError) ∧
  store_of (Wrapper.add s v w).2 s = Some os ∧
  databases (host (Wrapper.add s v w).2) = databases (host w) ∧
  jobs (host (Wrapper.add s v w).2) = jobs (host w).
Proof.
  intros (db & Hp & He) Hos Hv Hk Hf. unfold Wrapper.add.
  rewrite (put_method_eq true s v w db os Hp He Hos), (extract_key_carried os v k Hv), Hf.
  rewrite (store_record_add_present v k os Hk). simpl. done.
Qed.

Lemma add_present_key_rejects_witness :
  (Wrapper.add "users" Sample.carol Sample.with_carol).1 = Rejected (Raw ConstraintError) ∧
  store_of (Wrapper.add "users" Sample.carol Sample.with_carol).2 "users"
  = Some (Sample.users Sample.with_carol) ∧
  databases (host (Wrapper.add "users" Sample.carol Sample.with_carol).2)
  = databases (host Sample.with_carol) ∧
  jobs (host (Wrapper.add "users" Sample.carol Sample.with_carol).2)
  = jobs (host Sample.with_carol).
Proof.
  apply (add_present_key_rejects "users" Sample.carol (KNum 1) Sample.with_carol
           (Sample.users Sample.with_carol)).
  - eexists. split; [reflexivity|]. vm_compute. reflexivity.
  - vm_compute. reflexivity.
  - vm_compute. reflexivity.
  - vm_compute. eauto.
  - reflexivity.
Defined.

(** X6: after [delete] of a key, on a usable store with an engine that
    reports no failure, [get] of the key returns nothing and [exists]
    returns [false], whether or not the key was there before; the
    records under the other keys are what they were. *)
Theorem delete_then_read (s : string) (k : Key) (w : World) (os : ObjectStore) :
  live w s → store_of w s = Some os →
  Forall (λ f, f = None) (faults (host w)) →
  (Wrapper.delete s k w).1 = Resolved tt ∧
  (Wrapper.get s k (Wrapper.delete s k w).2).1 = Resolved None ∧
  (Wrapper.exists_ s k (Wrapper.delete s k w).2).1 = Resolved false ∧
  ∀ k', k' ≠ k →
    (Wrapper.get s k' (Wrapper.delete s k w).2).1 = Resolved (os_records os !! k').
Proof.
  intros (db & Hp & He) Hos Hnone.
  rewrite (delete_eq s k w db os Hp He Hos), (no_faults_next_fault w Hnone).
  set (os' := set_records (base.delete k (os_records os)) os).
  destruct (live_written w s db readwrite os os'
              [EvTransaction s readwrite None; EvRequest s (RqDelete k) None] (JNotify s)
              Hp He Hos) as [Hl' Hos'].
  pose proof (no_faults_next_fault _
                (next_fault_written w (mkIDBObjectStore db s readwrite) os'
                   [EvTransaction s readwrite None; EvRequest s (RqDelete k) None]
                   (JNotify s) Hnone)) as Hf'.
  simpl. split; [done|]. split; [|split].
  - rewrite (get_eq s k _ os' Hl' Hos'), Hf'. simpl. by rewrite lookup_delete_eq.
  - rewrite (exists_eq s k _ os' Hl' Hos'), Hf'. simpl. by rewrite lookup_delete_eq.
  - intros k' Hne. rewrite (get_eq s k' _ os' Hl' Hos'), Hf'. simpl.
    by rewrite lookup_delete_ne.
Qed.

Lemma delete_then_read_witness :
  (Wrapper.delete "users" (KNum 1) Sample.with_carol).1 = Resolved tt ∧
  (Wrapper.get "users" (KNum 1) (Wrapper.delete "users" (KNum 1) Sample.with_carol).2).1
  = Resolved None ∧
  (Wrapper.exists_ "users" (KNum 1) (Wrapper.delete "users" (KNum 1) Sample.with_carol).2).1
  = Resolved false ∧
  ∀ k', k' ≠ KNum 1 →
    (Wrapper.get "users" k' (Wrapper.delete "users" (KNum 1) Sample.with_carol).2).1
    = Resolved (os_records (Sample.users Sample.with_carol) !! k').
Proof.
  apply (delete_then_read "users" (KNum 1) Sample.with_carol (Sample.users Sample.with_carol)).
  - eexists. split; [reflexivity|]. vm_compute. reflexivity.
  - vm_compute. reflexivity.
  - constructor.
Defined.

Lemma snapshot_cleared os : snapshot (set_records ∅ os) = [].
Proof. unfold snapshot, Engine.entries. simpl. by rewrite map_to_list_empty. Qed.

(** X7: after [clear], on a usable store with an engine that reports no
    failure, [count] returns 0 and [getAll] returns the empty list, and
    one notification has been started. *)
Theorem clear_then_read (s : string) (w : World) (os : ObjectStore) :
  live w s → store_of w s = Some os →
  Forall (λ f, f = None) (faults (host w)) →
  (Wrapper.clear s w).1 = Resolved tt ∧
  (Wrapper.count s (Wrapper.clear s w).2).1 = Resolved 0 ∧
  (Wrapper.getAll s (Wrapper.clear s w).2).1 = Resolved [] ∧
  jobs (host (Wrapper.clear s w).2) = jobs (host w) ++ [JNotify s].
Proof.
  intros (db & Hp & He) Hos Hnone.
  rewrite (clear_eq s w db os Hp He Hos), (no_faults_next_fault w Hnone).
  destruct (live_written w s db readwrite os (set_records ∅ os)
              [EvTransaction s readwrite None; EvRequest s RqClear None] (JNotify s)
              Hp He Hos) as [Hl' Hos'].
  pose proof (no_faults_next_fault _
                (next_fault_written w (mkIDBObjectStore db s readwrite) (set_records ∅ os)
                   [EvTransaction s readwrite None; EvRequest s RqClear None]
                   (JNotify s) Hnone)) as Hf'.
  simpl. split; [done|]. split; [|split; [|done]].
  - by rewrite (count_eq s _ _ Hl' Hos'), Hf'.
  - by rewrite (getAll_eq s _ _ Hl' Hos'), Hf', snapshot_cleared.
Qed.

Lemma clear_then_read_witness :
  (Wrapper.clear "users" Sample.two_users).1 = Resolved tt ∧
  (Wrapper.count "users" (Wrapper.clear "users" Sample.two_users).2).1 = Resolved 0 ∧
  (Wrapper.getAll "users" (Wrapper.clear "users" Sample.two_users).2).1 = Resolved [] ∧
  jobs (host (Wrapper.clear "users" Sample.two_users).2)
  = jobs (host Sample.two_users) ++ [JNotify "users"].
Proof.
  apply (clear_then_read "users" Sample.two_users (Sample.users Sample.two_users)).
  - eexists. split; [reflexivity|]. vm_compute. reflexivity.
  - vm_compute. reflexivity.
  - constructor.
Defined.

(** X8: [bulkAdd] and [bulkUpdate] of an empty list, on a usable store,
    issue no request at all, resolve with the empty list, and still start
    one notification. *)
Theorem empty_bulk_still_notifies (s : string) (w : World) :
  live w s →
  Wrapper.bulkAdd s [] w
  = (Resolved [], started (JNotify s) (logged [EvTransaction s readwrite None] w)) ∧
  Wrapper.bulkUpdate s [] w
  = (Resolved [], started (JNotify s) (logged [EvTransaction s readwrite None] w)).
Proof.
  intros (db & Hp & He). unfold Wrapper.bulkAdd, Wrapper.bulkUpdate.
  rewrite !(bind_eq (Wrapper.transaction _ _)), transaction_eq, Hp, He.
  split; reflexivity.
Qed.

Lemma empty_bulk_still_notifies_witness :
  Wrapper.bulkAdd "users" [] Sample.ready
  = (Resolved [],
     started (JNotify "users") (logged [EvTransaction "users" readwrite None] Sample.ready)) ∧
  Wrapper.bulkUpdate "users" [] Sample.ready
  = (Resolved [],
     started (JNotify "users") (logged [EvTransaction "users" readwrite None] Sample.ready)).
Proof.
  apply (empty_bulk_still_notifies "users" Sample.ready).
  eexists. split; [reflexivity|]. vm_compute. reflexivity.
Defined.

(** ** A mutating method that rejected *)

Lemma mutating_rejected {A B} s (body : IDBObjectStore → M A) (g : A → B) w e w' :
  (∀ st, calm (body st)) →
  (store ← Wrapper.transaction s readwrite;
   x ← body store;
   start (JNotify s);;
   mret (g x)) w = (Rejected e, w') →
  this w' = this w ∧ jobs (host w') = jobs (host w) ∧
  ((∀ st w0 e0 w1, body st w0 = (Rejected e0, w1) →
                   databases (host w1) = databases (host w0)) →
   databases (host w') = databases (host w)).
Proof.
  intros Hcalm. rewrite bind_eq, transaction_eq.
  destruct (dbPromise (this w)) as [db|e0]; [|by intros [= <- <-]].
  destruct (Engine.transaction_error db s (host w)) as [e0|]; [by intros [= <- <-]|].
  rewrite bind_eq.
  set (st := mkIDBObjectStore db s readwrite).
  set (w0 := logged [EvTransaction s readwrite None] w).
  destruct (Hcalm st w0) as [Ht (_ & Hj & _)].
  destruct (body st w0) as [[x|e0] w1] eqn:Hbody; [discriminate|].
  intros [= <- <-]. simpl in *. split; [done|]. split; [done|].
  intros Hdb. by rewrite (Hdb st w0 e0 w1 Hbody).
Qed.

Lemma promise_rejected_untouched {A} (rq : Browser → (A + EngineError) * Browser) w e w' :
  (∀ h e0, (rq h).1 = inr e0 → untouched h (rq h).2) →
  promise rq w = (Rejected e, w') →
  databases (host w') = databases (host w).
Proof.
  intros H. unfold promise. specialize (H (host w)).
  destruct (rq (host w)) as [[a|e0] h]; intros [= <- <-]; simpl in *.
  by destruct (H e0 eq_refl).
Qed.

Lemma untouched_failed_put b st v h e :
  (Engine.put b st v h).1 = inr e → untouched h (Engine.put b st v h).2.
Proof.
  unfold Engine.put. destruct (Engine.prepare st v h); [apply untouched_failed_request|done].
Qed.

Lemma untouched_failed_delete st k h e :
  (Engine.delete st k h).1 = inr e → untouched h (Engine.delete st k h).2.
Proof.
  unfold Engine.delete. destruct (st_mode st); [done|apply untouched_failed_request].
Qed.

Lemma untouched_failed_clear st h e :
  (Engine.clear st h).1 = inr e → untouched h (Engine.clear st h).2.
Proof.
  unfold Engine.clear. destruct (st_mode st); [done|apply untouched_failed_request].
Qed.

Lemma fmapM_rejected_inv {A B} (f : A → B) (m : M A) w e :
  (fmapM f m w).1 = Rejected e → m w = (Rejected e, (fmapM f m w).2).
Proof.
  unfold fmapM. rewrite bind_eq. destruct (m w) as [[a|e0] w1]; simpl; [discriminate|].
  by intros [= ->].
Qed.

(** X9: a mutating method that rejects starts no notification and leaves
    the registry alone; for the methods that issue one request ([add],
    [update], [delete], [clear]) the databases are what they were too. *)
Theorem rejected_mutation_is_silent (c : Call) (s : string) (w : World) (e : Thrown) :
  mutation c = Some s →
  (perform c w).1 = Rejected e →
  this (perform c w).2 = this w ∧
  jobs (host (perform c w).2) = jobs (host w) ∧
  (single_write c = true → databases (host (perform c w).2) = databases (host w)).
Proof.
  intros Hm H. destruct c; simpl in Hm; try discriminate; injection Hm as ->;
    simpl in H |- *; apply fmapM_rejected_inv in H.
  - apply (mutating_rejected s (λ st, promise (Engine.put true st value)) id) in H
      as (Ht & Hj & Hdb); [|intros st; apply calm_promise, steady_put].
    split; [done|]. split; [done|]. intros _. apply Hdb. intros st w0 e0 w1.
    apply promise_rejected_untouched, untouched_failed_put.
  - apply (mutating_rejected s (λ st, promise (Engine.put false st value)) id) in H
      as (Ht & Hj & Hdb); [|intros st; apply calm_promise, steady_put].
    split; [done|]. split; [done|]. intros _. apply Hdb. intros st w0 e0 w1.
    apply promise_rejected_untouched, untouched_failed_put.
  - apply (mutating_rejected s (λ st, promise (Engine.delete st key)) (λ _, tt)) in H
      as (Ht & Hj & Hdb); [|intros st; apply calm_promise, steady_delete].
    split; [done|]. split; [done|]. intros _. apply Hdb. intros st w0 e0 w1.
    apply promise_rejected_untouched, untouched_failed_delete.
  - apply (mutating_rejected s (λ st, promise (Engine.clear st)) (λ _, tt)) in H
      as (Ht & Hj & Hdb); [|intros st; apply calm_promise, steady_clear].
    split; [done|]. split; [done|]. intros _. apply Hdb. intros st w0 e0 w1.
    apply promise_rejected_untouched, untouched_failed_clear.
  - rewrite bulkAdd_shape in H.
    apply (mutating_rejected s (bulk_body true values) id) in H
      as (Ht & Hj & _); [|intros st; apply (calm_bulk true)].
    split; [done|]. split; [done|]. discriminate.
  - rewrite bulkUpdate_shape in H.
    apply (mutating_rejected s (bulk_body false values) id) in H
      as (Ht & Hj & _); [|intros st; apply (calm_bulk false)].
    split; [done|]. split; [done|]. discriminate.
Qed.

Lemma rejected_mutation_is_silent_witness :
  this (perform (CAdd "users" Sample.carol) Sample.with_carol).2 = this Sample.with_carol ∧
  jobs (host (perform (CAdd "users" Sample.carol) Sample.with_carol).2)
  = jobs (host Sample.with_carol) ∧
  (single_write (CAdd "users" Sample.carol) = true →
   databases (host (perform (CAdd "users" Sample.carol) Sample.with_carol).2)
   = databases (host Sample.with_carol)).
Proof.
  apply (rejected_mutation_is_silent (CAdd "users" Sample.carol) "users" Sample.with_carol
           (Raw ConstraintError)).
  - reflexivity.
  - vm_compute. reflexivity.
Defined.

(** ** Subscribing and unsubscribing *)

Lemma run_deliver_eq s cb w os :
  live w s → store_of w s = Some os → next_fault w = None →
  run_job (JDeliver s cb) w =
  let w' := logged [EvTransaction s readonly None; EvRequest s RqGetAll None;
                    EvListener (ref cb) (snapshot os)] (consumed w) in
  match call cb (snapshot os) with
  | None => w'
  | Some e => unhandled_by e w'
  end.
Proof.
  intros Hl Hos Hf. unfold run_job. simpl job_body.
  rewrite bind_eq, (getAll_eq s w os Hl Hos), Hf, invoke_eq, logged_logged. simpl.
  by destruct (call cb (snapshot os)).
Qed.

(** X10: for a store whose name is not a member of [Object.prototype],
    [subscribe] appends the callback to the store's listeners and
    leaves one delivery running; that delivery, on a usable store whose
    [getAll] is served, reads the store once and calls the new callback,
    and only it, with the current records.  What the callback throws
    ends up as an unhandled rejection. *)
Theorem subscribe_delivers_snapshot
    (s : string) (cb : Subscriber) (w : World) (os : ObjectStore) :
  inherited s = false →
  live w s → store_of w s = Some os → next_fault w = None →
  listeners (Wrapper.subscribe s cb w) s = listeners w s ++ [cb] ∧
  jobs (host (Wrapper.subscribe s cb w)) = jobs (host w) ++ [JDeliver s cb] ∧
  emitted (Wrapper.subscribe s cb w) (run_job (JDeliver s cb) (Wrapper.subscribe s cb w))
  = [EvTransaction s readonly None; EvRequest s RqGetAll None;
     EvListener (ref cb) (snapshot os)] ∧
  unhandled (host (run_job (JDeliver s cb) (Wrapper.subscribe s cb w)))
  = unhandled (host w) ++ match call cb (snapshot os) with Some e => [e] | None => [] end.
Proof.
  intros _ Hl Hos Hf. split; [apply listeners_subscribe|]. split; [reflexivity|].
  rewrite (run_deliver_eq s cb (Wrapper.subscribe s cb w) os Hl Hos Hf). simpl.
  destruct (call cb (snapshot os)) as [e|].
  - rewrite emitted_unhandled_by, emitted_logged by done. done.
  - rewrite emitted_logged by done. simpl. by rewrite app_nil_r.
Qed.

Lemma subscribe_delivers_snapshot_witness :
  listeners (Wrapper.subscribe "users" (Sample.faulty 3) Sample.two_users) "users"
  = listeners Sample.two_users "users" ++ [Sample.faulty 3] ∧
  jobs (host (Wrapper.subscribe "users" (Sample.faulty 3) Sample.two_users))
  = jobs (host Sample.two_users) ++ [JDeliver "users" (Sample.faulty 3)] ∧
  emitted (Wrapper.subscribe "users" (Sample.faulty 3) Sample.two_users)
    (run_job (JDeliver "users" (Sample.faulty 3))
       (Wrapper.subscribe "users" (Sample.faulty 3) Sample.two_users))
  = [EvTransaction "users" readonly None; EvRequest "users" RqGetAll None;
     EvListener (ref (Sample.faulty 3)) (snapshot (Sample.users Sample.two_users))] ∧
  unhandled (host (run_job (JDeliver "users" (Sample.faulty 3))
                     (Wrapper.subscribe "users" (Sample.faulty 3) Sample.two_users)))
  = unhandled (host Sample.two_users)
    ++ match call (Sample.faulty 3) (snapshot (Sample.users Sample.two_users)) with
       | Some e => [e]
       | None => []
       end.
Proof.
  apply (subscribe_delivers_snapshot "users" (Sample.faulty 3) Sample.two_users
           (Sample.users Sample.two_users)).
  - vm_compute. reflexivity.
  - eexists. split; [reflexivity|]. vm_compute. reflexivity.
  - vm_compute. reflexivity.
  - reflexivity.
Defined.

(** X11: on an instance whose open failed, and for a store whose name
    is not a member of [Object.prototype], [subscribe] still registers
    the callback and returns; the delivery it leaves running rejects
    with the open failure, which nobody handles, and the callback is not
    called. *)
Theorem subscribe_after_failed_open
    (s : string) (cb : Subscriber) (w : World) (e : Thrown) :
  inherited s = false →
  dbPromise (this w) = Rejected e →
  listeners (Wrapper.subscribe s cb w) s = listeners w s ++ [cb] ∧
  emitted (Wrapper.subscribe s cb w) (run_job (JDeliver s cb) (Wrapper.subscribe s cb w))
  = [] ∧
  unhandled (host (run_job (JDeliver s cb) (Wrapper.subscribe s cb w)))
  = unhandled (host w) ++ [e].
Proof.
  intros _ Hp. split; [apply listeners_subscribe|].
  assert (Hp' : dbPromise (this (Wrapper.subscribe s cb w)) = Rejected e) by exact Hp.
  unfold run_job. simpl job_body. unfold Wrapper.getAll.
  rewrite !bind_eq, transaction_eq, Hp'.
  split; [|done]. unfold emitted. apply drop_all.
Qed.

Lemma subscribe_after_failed_open_witness :
  listeners (Wrapper.subscribe "users" (Sample.quiet 1) Sample.failed) "users"
  = listeners Sample.failed "users" ++ [Sample.quiet 1] ∧
  emitted (Wrapper.subscribe "users" (Sample.quiet 1) Sample.failed)
    (run_job (JDeliver "users" (Sample.quiet 1))
       (Wrapper.subscribe "users" (Sample.quiet 1) Sample.failed))
  = [] ∧
  unhandled (host (run_job (JDeliver "users" (Sample.quiet 1))
                     (Wrapper.subscribe "users" (Sample.quiet 1) Sample.failed)))
  = unhandled (host Sample.failed) ++ [Raw VersionError].
Proof.
  apply (subscribe_after_failed_open "users" (Sample.quiet 1) Sample.failed (Raw VersionError)).
  - vm_compute. reflexivity.
  - reflexivity.
Defined.

(** X12: after [unsubscribe] of a callback that was registered once, a
    notification cycle (its [getAll] served, the listeners returning)
    calls every other listener of the store, in the order they had, and
    does not call the removed one; [unsubscribe] of a callback that is
    not registered leaves the instance as it was. *)
Theorem unsubscribe_stops_calls
    (s : string) (cb : Subscriber) (w : World) (os : ObjectStore)
    (before behind : list Subscriber) :
  live w s → store_of w s = Some os → next_fault w = None →
  listeners w s = before ++ cb :: behind →
  Forall (λ l, ref l ≠ ref cb) (before ++ behind) →
  Forall (λ l, call l (snapshot os) = None) (before ++ behind) →
  deliveries (emitted (Wrapper.unsubscribe s cb w)
                (run_job (JNotify s) (Wrapper.unsubscribe s cb w)))
  = map (λ l, (ref l, snapshot os)) (before ++ behind) ∧
  calls_to (ref cb) (emitted (Wrapper.unsubscribe s cb w)
                       (run_job (JNotify s) (Wrapper.unsubscribe s cb w))) = 0 ∧
  (∀ w0, Forall (λ l, ref l ≠ ref cb) (listeners w0 s) → Wrapper.unsubscribe s cb w0 = w0).
Proof.
  intros Hl Hos Hf Harr Hfresh Hret.
  assert (Harr' : listeners (Wrapper.unsubscribe s cb w) s = before ++ behind).
  { apply listeners_unsubscribe_first; [exact Harr|].
    by apply Forall_app in Hfresh as [? _]. }
  assert (Hcycle := cycle_all_return s (Wrapper.unsubscribe s cb w) os).
  rewrite Harr' in Hcycle. rewrite Hcycle.
  - rewrite emitted_logged by (unfold Wrapper.unsubscribe; by repeat case_match).
    split; [|split].
    + rewrite deliveries_app. simpl. apply deliveries_listeners.
    + rewrite calls_to_app. simpl. by apply calls_to_others.
    + intros w0. apply listeners_unsubscribe_absent.
  - by apply live_unsubscribe.
  - by rewrite store_of_unsubscribe.
  - by rewrite next_fault_unsubscribe.
  - exact Hret.
Qed.

Lemma unsubscribe_stops_calls_witness :
  deliveries (emitted (Wrapper.unsubscribe "users" (Sample.faulty 1) Sample.watched_added)
                (run_job (JNotify "users")
                   (Wrapper.unsubscribe "users" (Sample.faulty 1) Sample.watched_added)))
  = map (λ l, (ref l, snapshot (Sample.users Sample.watched_added)))
        ([] ++ [Sample.quiet 2]) ∧
  calls_to (ref (Sample.faulty 1))
    (emitted (Wrapper.unsubscribe "users" (Sample.faulty 1) Sample.watched_added)
       (run_job (JNotify "users")
          (Wrapper.unsubscribe "users" (Sample.faulty 1) Sample.watched_added))) = 0 ∧
  (∀ w0, Forall (λ l, ref l ≠ ref (Sample.faulty 1)) (listeners w0 "users") →
         Wrapper.unsubscribe "users" (Sample.faulty 1) w0 = w0).
Proof.
  apply (unsubscribe_stops_calls "users" (Sample.faulty 1) Sample.watched_added
           (Sample.users Sample.watched_added) [] [Sample.quiet 2]).
  - eexists. split; [reflexivity|]. vm_compute. reflexivity.
  - vm_compute. reflexivity.
  - reflexivity.
  - reflexivity.
  - repeat constructor. simpl. lia.
  - repeat constructor.
Defined.

(** ** Closing and deleting *)

Lemma bind_rejected_eq {A B} (m : M A) (f : A → M B) w e w' :
  m w = (Rejected e, w') → (m ≫= f) w = (Rejected e, w').
Proof. intros H. by rewrite bind_eq, H. Qed.

(** An operation whose transaction cannot be opened rejects with what
    [db.transaction] threw. *)
Lemma operation_without_transaction c s w db e :
  call_store c = Some s →
  dbPromise (this w) = Resolved db →
  Engine.transaction_error db s (host w) = Some e →
  (perform c w).1 = Rejected (Raw e).
Proof.
  intros Hc Hp He.
  assert (Htx : ∀ mode, Wrapper.transaction s mode w
                        = (Rejected (Raw e), logged [EvTransaction s mode (Some e)] w)).
  { intros mode. by rewrite transaction_eq, Hp, He. }
  destruct c; simpl in Hc; try discriminate; injection Hc as ->; simpl; unfold fmapM;
    unfold Wrapper.add, Wrapper.get, Wrapper.getAll, Wrapper.update, Wrapper.delete,
      Wrapper.clear, Wrapper.getByIndex, Wrapper.count, Wrapper.bulkAdd, Wrapper.bulkUpdate,
      Wrapper.exists_, Wrapper.iterate;
    by erewrite bind_rejected_eq by (erewrite bind_rejected_eq by apply Htx; reflexivity).
Qed.

Lemma closed_transaction_error db s h :
  Engine.transaction_error db s (Engine.close db h) = Some InvalidStateError.
Proof.
  unfold Engine.transaction_error, Engine.close. simpl.
  rewrite bool_decide_eq_false_2; [done|].
  intros [Hne _]%list_elem_of_filter. by apply Hne.
Qed.

Lemma close_eq w db :
  dbPromise (this w) = Resolved db →
  Wrapper.close w = (Resolved tt, mkWorld (Engine.close db (host w)) (this w)).
Proof. intros Hp. unfold Wrapper.close. rewrite bind_eq. unfold await. by rewrite Hp. Qed.

(** X13: [close] on an open instance resolves and leaves the databases
    alone, but the instance is finished: the connection promise still
    holds the closed connection, so every operation of the operation
    layer rejects with the engine's [InvalidStateError] from then on; a
    second [close] resolves again. *)
Theorem close_ends_instance (w : World) (db : IDBDatabase) :
  dbPromise (this w) = Resolved db →
  (Wrapper.close w).1 = Resolved tt ∧
  databases (host (Wrapper.close w).2) = databases (host w) ∧
  (Wrapper.close (Wrapper.close w).2).1 = Resolved tt ∧
  ∀ c s, call_store c = Some s →
         (perform c (Wrapper.close w).2).1 = Rejected (Raw InvalidStateError).
Proof.
  intros Hp. rewrite (close_eq w db Hp). simpl. split; [done|]. split; [done|].
  split. { by rewrite (close_eq (mkWorld (Engine.close db (host w)) (this w)) db Hp). }
  intros c s Hc. apply (operation_without_transaction c s _ db); [exact Hc|exact Hp|].
  apply closed_transaction_error.
Qed.

Lemma close_ends_instance_witness :
  (Wrapper.close Sample.two_users).1 = Resolved tt ∧
  databases (host (Wrapper.close Sample.two_users).2) = databases (host Sample.two_users) ∧
  (Wrapper.close (Wrapper.close Sample.two_users).2).1 = Resolved tt ∧
  ∀ c s, call_store c = Some s →
         (perform c (Wrapper.close Sample.two_users).2).1 = Rejected (Raw InvalidStateError).
Proof.
  apply (close_ends_instance Sample.two_users (mkIDBDatabase 0 "app")). reflexivity.
Defined.

Lemma deleteDatabase_eq w db :
  dbPromise (this w) = Resolved db →
  Wrapper.deleteDatabase w =
  let w1 := mkWorld (Engine.close db (host w)) (this w) in
  match next_fault w with
  | Some e =>
    (Rejected (Raw e), logged [EvDeleteDatabase (dbName (this w)) (Some e)] (consumed w1))
  | None =>
    if bool_decide (Exists (λ c, c.2 = dbName (this w)) (connections (host w1))) then
      (Rejected (JsError "Delete blocked"),
       logged [EvDeleteBlocked (dbName (this w))] (consumed w1))
    else
      (Resolved tt,
       logged [EvDeleteDatabase (dbName (this w)) None]
         (mkWorld (set_databases (base.delete (dbName (this w)) (databases (host w)))
                     (host (consumed w1))) (this w)))
  end.
Proof.
  intros Hp. unfold Wrapper.deleteDatabase. rewrite bind_eq, (close_eq w db Hp), bind_eq.
  unfold field. rewrite bind_eq. unfold promise, Engine.deleteDatabase.
  set (w1 := mkWorld (Engine.close db (host w)) (this w)).
  change (host w1) with (host w1). rewrite (head_fault_eq w1).
  change (next_fault w1) with (next_fault w).
  destruct (next_fault w) as [e|]; [reflexivity|].
  change (connections (host (consumed w1))) with (connections (host w1)).
  destruct (bool_decide (Exists _ (connections (host w1)))); reflexivity.
Qed.

(** X14: [deleteDatabase] on an open instance, with no other connection
    to the database and an engine that serves the request, closes the
    connection, removes the database and resolves. *)
Theorem deleteDatabase_removes (w : World) (db : IDBDatabase) :
  dbPromise (this w) = Resolved db →
  next_fault w = None →
  Forall (λ c, c.2 = dbName (this w) → c.1 = conn_id db) (connections (host w)) →
  (Wrapper.deleteDatabase w).1 = Resolved tt ∧
  databases (host (Wrapper.deleteDatabase w).2)
  = base.delete (dbName (this w)) (databases (host w)) ∧
  emitted w (Wrapper.deleteDatabase w).2
  = [EvClose (conn_id db); EvDeleteDatabase (dbName (this w)) None].
Proof.
  intros Hp Hf Hothers. rewrite (deleteDatabase_eq w db Hp), Hf. simpl.
  rewrite bool_decide_eq_false_2.
  - simpl. split; [done|]. split; [done|].
    unfold emitted. simpl. rewrite <- app_assoc. apply drop_app_length.
  - intros [c [[Hne Hin]%list_elem_of_filter Hname]]%Exists_exists.
    rewrite Forall_forall in Hothers. by apply Hne, Hothers.
Qed.

Lemma deleteDatabase_removes_witness :
  (Wrapper.deleteDatabase Sample.two_users).1 = Resolved tt ∧
  databases (host (Wrapper.deleteDatabase Sample.two_users).2)
  = base.delete (dbName (this Sample.two_users)) (databases (host Sample.two_users)) ∧
  emitted Sample.two_users (Wrapper.deleteDatabase Sample.two_users).2
  = [EvClose (conn_id (mkIDBDatabase 0 "app"));
     EvDeleteDatabase (dbName (this Sample.two_users)) None].
Proof.
  apply (deleteDatabase_removes Sample.two_users (mkIDBDatabase 0 "app")).
  - reflexivity.
  - reflexivity.
  - repeat constructor.
Defined.

(** X15: [deleteDatabase] closes the instance's own connection first; when
    another connection to the database is open, the engine reports the
    deletion as blocked, the promise rejects with the error "Delete
    blocked", the database is still there, and the instance is finished
    all the same: every operation rejects with [InvalidStateError]. *)
Theorem deleteDatabase_blocked (w : World) (db : IDBDatabase) :
  dbPromise (this w) = Resolved db →
  next_fault w = None →
  Exists (λ c, c.2 = dbName (this w) ∧ c.1 ≠ conn_id db) (connections (host w)) →
  (Wrapper.deleteDatabase w).1 = Rejected (JsError "Delete blocked") ∧
  databases (host (Wrapper.deleteDatabase w).2) = databases (host w) ∧
  ∀ c s, call_store c = Some s →
         (perform c (Wrapper.deleteDatabase w).2).1 = Rejected (Raw InvalidStateError).
Proof.
  intros Hp Hf Hother. rewrite (deleteDatabase_eq w db Hp), Hf. simpl.
  rewrite bool_decide_eq_true_2.
  - simpl. split; [done|]. split; [done|]. intros c s Hc.
    apply (operation_without_transaction c s _ db); [exact Hc|exact Hp|].
    apply closed_transaction_error.
  - apply Exists_exists in Hother as (c & Hin & Hname & Hne).
    apply Exists_exists. exists c. split; [|done]. by apply list_elem_of_filter.
Qed.

Lemma deleteDatabase_blocked_witness :
  (Wrapper.deleteDatabase Scene.second).1 = Rejected (JsError "Delete blocked") ∧
  databases (host (Wrapper.deleteDatabase Scene.second).2) = databases (host Scene.second) ∧
  ∀ c s, call_store c = Some s →
         (perform c (Wrapper.deleteDatabase Scene.second).2).1
         = Rejected (Raw InvalidStateError).
Proof.
  apply (deleteDatabase_blocked Scene.second (mkIDBDatabase 1 "app")).
  - reflexivity.
  - reflexivity.
  - apply Exists_cons_hd. split; [reflexivity|]. simpl. lia.
Defined.

(** ** Opening *)

Lemma onupgradeneeded_stores stores db :
  db_version (Wrapper.onupgradeneeded stores db) = db_version db ∧
  db_stores (Wrapper.onupgradeneeded stores db) = db_stores db ∪ (new_store <$> stores).
Proof.
  unfold Wrapper.onupgradeneeded.
  apply (map_fold_weak_ind
           (λ r m, db_version r = db_version db ∧
                   db_stores r = db_stores db ∪ (new_store <$> m))).
  - split; [done|]. by rewrite fmap_empty, (right_id_L ∅ (∪)).
  - intros s config m r Hnone [Hv Hst]. unfold Engine.contains.
    assert (Hnew : (new_store <$> m) !! s = None) by by rewrite lookup_fmap, Hnone.
    case_bool_decide as Hc.
    + split; [done|]. rewrite Hst. rewrite Hst in Hc.
      apply lookup_union_is_Some in Hc as [[os Hos]|Hc]; [|by rewrite Hnew in Hc; destruct Hc].
      apply map_eq. intros i. rewrite fmap_insert, !lookup_union.
      destruct (decide (i = s)) as [->|Hne].
      * rewrite lookup_insert_eq, Hnew, Hos. done.
      * by rewrite lookup_insert_ne.
    + split; [done|]. unfold Engine.createObjectStore. simpl. rewrite Hst.
      rewrite Hst in Hc. rewrite fmap_insert.
      rewrite insert_union_r; [done|].
      apply eq_None_not_Some. intros Hs. apply Hc.
      apply lookup_union_is_Some. by left.
Qed.

(** X16: when the constructor opens a database below the requested
    version (or one that does not exist yet), no other connection to
    that database is open and the engine serves the open, the database
    is raised to that version, every store of the schema that was
    missing is created empty with its key path and auto-increment flag,
    the stores that were there are kept as they were, and every store of
    the schema is usable. *)
Theorem constructor_creates_stores
    (name : string) (version : N) (stores : gmap string StoreConfig) (h : Browser) :
  version ≠ 0%N →
  unconnected name h →
  (Engine.take_fault h).1 = None →
  (db_version (default (mkDatabase 0 ∅) (databases h !! name)) < version)%N →
  dbPromise (this (Wrapper.constructor name version stores h))
  = Resolved (mkIDBDatabase (next_conn h) name) ∧
  databases (host (Wrapper.constructor name version stores h))
  = <[name := mkDatabase version
                (db_stores (default (mkDatabase 0 ∅) (databases h !! name))
                 ∪ (new_store <$> stores))]> (databases h) ∧
  ∀ s, is_Some (stores !! s) → live (Wrapper.constructor name version stores h) s.
Proof.
  intros Hv _ Hf Hlt.
  assert (Hc : Wrapper.constructor name version stores h
    = mkWorld
        (Engine.record_event (EvOpen name version None)
           (set_next_conn (S (next_conn h))
              (set_connections (connections h ++ [(next_conn h, name)])
                 (set_databases
                    (<[name := mkDatabase version
                                 (db_stores (default (mkDatabase 0 ∅) (databases h !! name))
                                  ∪ (new_store <$> stores))]> (databases h))
                    (Engine.take_fault h).2))))
        (mkIndexa name version stores (Resolved (mkIDBDatabase (next_conn h) name)) ∅)).
  { unfold Wrapper.constructor, Wrapper.init, Engine.open.
    rewrite decide_False by done.
    destruct (Engine.take_fault h) as [f h1] eqn:Htf. simpl in Hf. subst f.
    assert (Hdb : databases h1 = databases h ∧ next_conn h1 = next_conn h
                  ∧ connections h1 = connections h).
    { unfold Engine.take_fault in Htf. destruct (faults h); by simplify_eq. }
    destruct Hdb as (-> & -> & ->).
    rewrite decide_False by lia. rewrite decide_True by done.
    by destruct (onupgradeneeded_stores stores
                   (default (mkDatabase 0 ∅) (databases h !! name))) as [_ ->]. }
  rewrite Hc. simpl. split; [done|]. split.
  { unfold Engine.take_fault. by destruct (faults h). }
  intros s Hs. eexists. split; [reflexivity|].
  unfold Engine.transaction_error. simpl.
  rewrite bool_decide_eq_true_2.
  2:{ apply elem_of_app. right. by apply list_elem_of_singleton. }
  rewrite lookup_insert_eq. simpl.
  destruct (lookup_union_is_Some
              (db_stores (default (mkDatabase 0 ∅) (databases h !! name)))
              (new_store <$> stores) s) as [_ Hhas].
  destruct Hhas as [os Hos].
  { right. rewrite lookup_fmap. by apply fmap_is_Some. }
  by rewrite Hos.
Qed.

Lemma constructor_creates_stores_witness :
  dbPromise (this (Wrapper.constructor "app" 2 Scene.wider Scene.closed))
  = Resolved (mkIDBDatabase (next_conn Scene.closed) "app") ∧
  databases (host (Wrapper.constructor "app" 2 Scene.wider Scene.closed))
  = <["app"%string :=
        mkDatabase 2
          (db_stores (default (mkDatabase 0 ∅) (databases Scene.closed !! "app"%string))
           ∪ (new_store <$> Scene.wider))]> (databases Scene.closed) ∧
  ∀ s, is_Some (Scene.wider !! s) →
       live (Wrapper.constructor "app" 2 Scene.wider Scene.closed) s.
Proof.
  apply (constructor_creates_stores "app" 2 Scene.wider Scene.closed).
  - lia.
  - vm_compute. constructor.
  - reflexivity.
  - vm_compute. reflexivity.
Defined.

(** X17: when the constructor opens a database that already has the
    requested version, the upgrade handler does not run: the databases
    are what they were, so a store of the schema that the database lacks
    is not created and every operation on it rejects with the engine's
    [NotFoundError]. *)
Theorem constructor_same_version
    (name : string) (version : N) (stores : gmap string StoreConfig) (h : Browser)
    (d : Database) :
  version ≠ 0%N →
  (Engine.take_fault h).1 = None →
  databases h !! name = Some d →
  db_version d = version →
  dbPromise (this (Wrapper.constructor name version stores h))
  = Resolved (mkIDBDatabase (next_conn h) name) ∧
  databases (host (Wrapper.constructor name version stores h)) = databases h ∧
  ∀ c s, call_store c = Some s → db_stores d !! s = None →
         (perform c (Wrapper.constructor name version stores h)).1
         = Rejected (Raw NotFoundError).
Proof.
  intros Hv Hf Hd Hsame.
  assert (Hc : Wrapper.constructor name version stores h
    = mkWorld
        (Engine.record_event (EvOpen name version None)
           (set_next_conn (S (next_conn h))
              (set_connections (connections h ++ [(next_conn h, name)])
                 (set_databases (databases h) (Engine.take_fault h).2))))
        (mkIndexa name version stores (Resolved (mkIDBDatabase (next_conn h) name)) ∅)).
  { unfold Wrapper.constructor, Wrapper.init, Engine.open.
    rewrite decide_False by done.
    destruct (Engine.take_fault h) as [f h1] eqn:Htf. simpl in Hf. subst f.
    assert (Hdb : databases h1 = databases h ∧ next_conn h1 = next_conn h
                  ∧ connections h1 = connections h).
    { unfold Engine.take_fault in Htf. destruct (faults h); by simplify_eq. }
    destruct Hdb as (-> & -> & ->). rewrite Hd. simpl.
    rewrite !decide_False by lia. by rewrite insert_id. }
  rewrite Hc. simpl. split; [done|]. split; [done|].
  intros c s Hc' Hnone.
  eapply (operation_without_transaction c s); [exact Hc'|reflexivity|].
  unfold Engine.transaction_error. simpl.
  rewrite bool_decide_eq_true_2.
  2:{ apply elem_of_app. right. by apply list_elem_of_singleton. }
  by rewrite Hd; simpl; rewrite Hnone.
Qed.

Lemma constructor_same_version_witness :
  dbPromise (this (Wrapper.constructor "app" 1 Scene.wider (host Sample.two_users)))
  = Resolved (mkIDBDatabase (next_conn (host Sample.two_users)) "app") ∧
  databases (host (Wrapper.constructor "app" 1 Scene.wider (host Sample.two_users)))
  = databases (host Sample.two_users) ∧
  ∀ c s, call_store c = Some s →
         db_stores (default (mkDatabase 0 ∅)
                      (databases (host Sample.two_users) !! "app"%string)) !! s = None →
         (perform c (Wrapper.constructor "app" 1 Scene.wider (host Sample.two_users))).1
         = Rejected (Raw NotFoundError).
Proof.
  apply (constructor_same_version "app" 1 Scene.wider (host Sample.two_users)
           (default (mkDatabase 0 ∅) (databases (host Sample.two_users) !! "app"%string))).
  - lia.
  - reflexivity.
  - vm_compute. reflexivity.
  - vm_compute. reflexivity.
Defined.

(** X18: the constructor never removes or alters an object store: whatever
    the outcome of the open (served, failed, version too low, upgrade),
    every store a database had before the call is in that database
    afterwards, with the same content. *)
Theorem constructor_keeps_stores
    (name : string) (version : N) (stores : gmap string StoreConfig) (h : Browser)
    (name' : string) (d : Database) (s : string) (os : ObjectStore) :
  databases h !! name' = Some d →
  db_stores d !! s = Some os →
  ∃ d', databases (host (Wrapper.constructor name version stores h)) !! name' = Some d' ∧
        db_stores d' !! s = Some os.
Proof.
  intros Hd Hs. unfold Wrapper.constructor, Wrapper.init, Engine.open.
  destruct (decide (version = 0%N)); [by exists d|].
  destruct (Engine.take_fault h) as [f h1] eqn:Htf.
  assert (Hdb : databases h1 = databases h).
  { unfold Engine.take_fault in Htf. destruct (faults h); by simplify_eq. }
  destruct f as [e|]; simpl; [exists d; by rewrite Hdb|].
  rewrite Hdb. destruct (decide (version < _)%N); simpl; rewrite ?Hdb; [by exists d|].
  destruct (decide (name = name')) as [->|Hne].
  - rewrite lookup_insert_eq, Hd. simpl. eexists. split; [reflexivity|].
    destruct (decide (db_version d < version)%N); simpl; [|done].
    destruct (onupgradeneeded_stores stores d) as [_ ->].
    by apply lookup_union_Some_l.
  - rewrite lookup_insert_ne by done. by exists d.
Qed.

Lemma constructor_keeps_stores_witness :
  ∃ d', databases (host (Wrapper.constructor "app" 2 Scene.wider (host Sample.two_users)))
          !! "app"%string = Some d' ∧
        db_stores d' !! "users"%string = Some (Sample.users Sample.two_users).
Proof.
  apply (constructor_keeps_stores "app" 2 Scene.wider (host Sample.two_users) "app"
           (default (mkDatabase 0 ∅) (databases (host Sample.two_users) !! "app"%string))).
  - vm_compute. reflexivity.
  - vm_compute. reflexivity.
Defined.

(** ** [bulkUpdate] *)

Lemma serve_written b st saved : ∀ values items os h outs h',
  Forall2 (λ v it, match it with
                   | Engine.Threw _ => True
                   | Engine.Queued v' key => v' = v ∧ Engine.extract_key os v = inl key
                   end) values items →
  Engine.serve b st saved false items h = (outs, h') →
  Engine.lookup_store st h = Some os →
  first_threw outs = None → first_failed outs = None →
  ∃ os', Engine.lookup_store st h' = Some os' ∧
    os_keyPath os' = os_keyPath os ∧
    length (results_of outs) = length values ∧
    os_records os' = written (os_keyPath os) (os_records os) (zip values (results_of outs)).
Proof.
  induction values as [|v values IH]; intros items os h outs h' Hall H Hos Ht Hf;
    inversion Hall as [|? it ? items' Hit Hrest]; subst; simpl in H.
  - injection H as <- <-. exists os. done.
  - destruct it as [e|v' key].
    { destruct (Engine.serve b st saved false items' h) as [outs' h''].
      injection H as <- <-. discriminate Ht. }
    destruct Hit as [-> Hkey].
    destruct (Engine.request st _ _ h) as [[k|e] h1] eqn:Hrq.
    + destruct (Engine.serve b st saved false items' h1) as [outs' h''] eqn:Hs.
      injection H as <- <-.
      destruct (request_served_inv _ _ _ _ _ _ _ Hrq Hos) as (os1 & Hsr & Hos1).
      destruct (store_record_inv b v key os k os1 Hkey Hsr) as (Hrec & Hkp & Hai & _).
      destruct (IH items' os1 h1 outs' h'') as (os' & Hos' & Hkp' & Hlen & Hrec'); try done.
      { eapply Forall2_impl; [exact Hrest|]. intros v0 [e|v1 key1]; [done|].
        intros [-> Hk]. split; [done|]. by rewrite (extract_key_config os os1). }
      exists os'. split; [done|]. split; [congruence|]. simpl. split; [by rewrite Hlen|].
      by rewrite Hrec', Hkp, Hrec.
    + destruct (Engine.serve b st saved true items' _) as [outs' h''].
      injection H as <- <-. discriminate Hf.
Qed.

Lemma written_lookup_notin kp vks : ∀ m k,
  k ∉ vks.*2 → written kp m vks !! k = m !! k.
Proof.
  induction vks as [|[v k0] vks IH]; intros m k Hk; simpl; [done|].
  apply not_elem_of_cons in Hk as [Hne Hk]. rewrite IH by done.
  by rewrite lookup_insert_ne.
Qed.

Lemma written_distinct kp : ∀ values keys m,
  length keys = length values → NoDup keys →
  Forall2 (λ v k, written kp m (zip values keys) !! k
                  = Some (<[kp := Engine.key_to_js k]> v)) values keys.
Proof.
  induction values as [|v values IH]; intros [|k keys] m Hlen Hnd; simplify_eq/=;
    [constructor|].
  apply NoDup_cons in Hnd as [Hk Hnd]. constructor.
  - rewrite written_lookup_notin.
    + apply lookup_insert_eq.
    + intros Hin. apply Hk. rewrite snd_zip in Hin; [done|lia].
  - by apply IH.
Qed.

Lemma bulkUpdate_resolved_inv s values w keys w' os :
  store_of w s = Some os →
  Wrapper.bulkUpdate s values w = (Resolved keys, w') →
  jobs (host w') = jobs (host w) ++ [JNotify s] ∧
  ∃ os', store_of w' s = Some os' ∧ length keys = length values ∧
    os_records os' = written (os_keyPath os) (os_records os) (zip values keys).
Proof.
  intros Hos H. rewrite bulkUpdate_shape in H.
  apply (mutating_resolved s (bulk_body false values) id) in H
    as (Hl & Hl' & Ht & Hj & x & w2 & Hbody & -> & ->);
    [|intros st; apply (calm_bulk false)].
  split; [exact Hj|].
  destruct Hl as (db & Hp & He). rewrite Hp in Hbody.
  unfold bulk_body in Hbody.
  apply bind_resolved_inv in Hbody as (items & w3 & Hput & Hall).
  unfold promise in Hput.
  destruct (Engine.put_all false _ values _) as [outs h'] eqn:Hpa.
  injection Hput as <- <-. unfold Promise_all in Hall.
  destruct (first_threw outs) eqn:Hthrew; [discriminate|].
  destruct (first_failed outs) eqn:Hfailed; [discriminate|].
  injection Hall as <- <-.
  assert (Hlk : Engine.lookup_store (mkIDBObjectStore db s readwrite)
                  (host (logged [EvTransaction s readwrite None] w)) = Some os).
  { rewrite <- (store_of_lookup_store (logged _ w) s readwrite db Hp). exact Hos. }
  unfold Engine.put_all in Hpa.
  destruct (Engine.issue false _ values _) as [its h1] eqn:Hi.
  destruct (issue_inv false (mkIDBObjectStore db s readwrite) os values _ its h1 eq_refl Hlk Hi)
    as [Hos1 Hitems].
  destruct (serve_written false _ _ values its os h1 outs h' Hitems Hpa Hos1 Hthrew Hfailed)
    as (os' & Hos' & _ & Hlen & Hrec).
  exists os'. split; [|done].
  rewrite (store_of_lookup_store _ s readwrite db) by exact Hp. exact Hos'.
Qed.

(** X19: when [bulkUpdate] resolves, its result lists one key per value
    and the store is the old store with the values written in the order
    given, each under its key, so of two values with the same key the
    later one stays; with distinct keys every value is in the store under
    its key.  One notification has been started, not one per value. *)
Theorem bulkUpdate_writes_in_order
    (s : string) (values : list Value) (w : World) (keys : list Key) (w' : World)
    (os : ObjectStore) :
  store_of w s = Some os →
  Wrapper.bulkUpdate s values w = (Resolved keys, w') →
  jobs (host w') = jobs (host w) ++ [JNotify s] ∧
  length keys = length values ∧
  ∃ os', store_of w' s = Some os' ∧
    os_records os' = written (os_keyPath os) (os_records os) (zip values keys) ∧
    (NoDup keys →
     Forall2 (λ v k, os_records os' !! k
                     = Some (<[os_keyPath os := Engine.key_to_js k]> v)) values keys).
Proof.
  intros Hos H.
  destruct (bulkUpdate_resolved_inv s values w keys w' os Hos H)
    as (Hj & os' & Hos' & Hlen & Hrec).
  split; [exact Hj|]. split; [exact Hlen|]. exists os'. split; [exact Hos'|].
  split; [exact Hrec|]. intros Hnd. rewrite Hrec. by apply written_distinct.
Qed.

Lemma bulkUpdate_writes_in_order_witness :
  jobs (host (Wrapper.bulkUpdate "users" [Sample.carol; Sample.alice] Sample.with_carol).2)
  = jobs (host Sample.with_carol) ++ [JNotify "users"] ∧
  length [KNum 1; KNum 2] = length [Sample.carol; Sample.alice] ∧
  ∃ os',
    store_of (Wrapper.bulkUpdate "users" [Sample.carol; Sample.alice] Sample.with_carol).2
      "users" = Some os' ∧
    os_records os'
    = written (os_keyPath (Sample.users Sample.with_carol))
        (os_records (Sample.users Sample.with_carol))
        (zip [Sample.carol; Sample.alice] [KNum 1; KNum 2]) ∧
    (NoDup [KNum 1; KNum 2] →
     Forall2 (λ v k, os_records os' !! k
                     = Some (<[os_keyPath (Sample.users Sample.with_carol)
                               := Engine.key_to_js k]> v))
             [Sample.carol; Sample.alice] [KNum 1; KNum 2]).
Proof.
  apply (bulkUpdate_writes_in_order "users" [Sample.carol; Sample.alice] Sample.with_carol
           [KNum 1; KNum 2] _ (Sample.users Sample.with_carol)).
  - vm_compute. reflexivity.
  - vm_compute. reflexivity.
Defined.

(** ** Indexes *)

Lemma index_free_intro h :
  (∀ name d s os,
     databases h !! name = Some d → db_stores d !! s = Some os → os_indexes os = ∅) →
  index_free h.
Proof. intros H name d Hd s os Hs. eauto. Qed.

Lemma index_free_lookup h name d s os :
  index_free h → databases h !! name = Some d → db_stores d !! s = Some os →
  os_indexes os = ∅.
Proof. intros H Hd Hs. exact (H name d Hd s os Hs). Qed.

Lemma index_free_databases h h' :
  databases h' = databases h → index_free h → index_free h'.
Proof. unfold index_free. by intros ->. Qed.

Lemma index_free_untouched h h' : untouched h h' → index_free h → index_free h'.
Proof. intros (Hd & _). by apply index_free_databases. Qed.

Lemma index_free_lookup_store st h os :
  index_free h → Engine.lookup_store st h = Some os → os_indexes os = ∅.
Proof.
  unfold Engine.lookup_store. intros H Hos.
  destruct (databases h !! conn_name (st_db st)) as [d|] eqn:Hd; [|done].
  simpl in Hos. eapply index_free_lookup; eauto.
Qed.

Lemma index_free_write_store st os h :
  os_indexes os = ∅ → index_free h → index_free (Engine.write_store st os h).
Proof.
  intros Hos H. apply index_free_intro. intros name d s os' Hd Hs.
  unfold Engine.write_store in Hd. simpl in Hd.
  rewrite lookup_alter in Hd. case_decide as Heq.
  - subst name. destruct (databases h !! conn_name (st_db st)) as [d0|] eqn:Hd0; [|done].
    simpl in Hd. injection Hd as <-. simpl in Hs.
    destruct (decide (st_name st = s)) as [Hs'|Hne].
    + subst s. rewrite lookup_insert_eq in Hs. by injection Hs as <-.
    + rewrite lookup_insert_ne in Hs by done. eapply index_free_lookup; eauto.
  - eapply index_free_lookup; eauto.
Qed.

Lemma index_free_take_fault h : index_free h → index_free (Engine.take_fault h).2.
Proof. apply index_free_untouched, untouched_take_fault. Qed.

Lemma index_free_request {A} st rq (serve : ObjectStore → (A * ObjectStore) + EngineError) h :
  (∀ os a os', serve os = inl (a, os') → os_indexes os' = os_indexes os) →
  index_free h → index_free (Engine.request st rq serve h).2.
Proof.
  intros Hserve H. unfold Engine.request.
  pose proof (index_free_take_fault h H) as H0.
  destruct (Engine.take_fault h) as [[e|] h1]; simpl in *; [exact H0|].
  destruct (Engine.lookup_store st h1) as [os|] eqn:Hos; simpl; [|exact H0].
  destruct (serve os) as [[a os']|e] eqn:Hs; simpl; [|exact H0].
  apply (index_free_databases (Engine.write_store st os' h1)); [done|].
  apply index_free_write_store; [|exact H0].
  rewrite (Hserve os a os' Hs). eapply index_free_lookup_store; eauto.
Qed.

Lemma store_record_indexes b v key os k os' :
  Engine.store_record b v key os = inl (k, os') → os_indexes os' = os_indexes os.
Proof.
  unfold Engine.store_record. intros H.
  destruct key as [[n|x]|]; simpl in H;
    destruct (b && bool_decide _); try discriminate H; by injection H as <- <-.
Qed.

Lemma index_free_put b st v h : index_free h → index_free (Engine.put b st v h).2.
Proof.
  intros H. unfold Engine.put. destruct (Engine.prepare st v h) as [key|e]; [|exact H].
  apply index_free_request; [|exact H]. intros os a os'. apply store_record_indexes.
Qed.

Lemma index_free_delete st k h : index_free h → index_free (Engine.delete st k h).2.
Proof.
  intros H. unfold Engine.delete. destruct (st_mode st); [exact H|].
  apply index_free_request; [|exact H]. intros os a os' Hs. by injection Hs as <- <-.
Qed.

Lemma index_free_clear st h : index_free h → index_free (Engine.clear st h).2.
Proof.
  intros H. unfold Engine.clear. destruct (st_mode st); [exact H|].
  apply index_free_request; [|exact H]. intros os a os' Hs. by injection Hs as <- <-.
Qed.

Lemma index_free_issue b st values : ∀ h,
  index_free h → index_free (Engine.issue b st values h).2.
Proof.
  induction values as [|v values IH]; intros h H; simpl; [exact H|].
  destruct (Engine.prepare st v h) as [key|e].
  - specialize (IH h H). destruct (Engine.issue b st values h). exact IH.
  - set (h1 := Engine.record_event _ h). specialize (IH h1 H).
    destruct (Engine.issue b st values h1). exact IH.
Qed.

Lemma index_free_rollback st saved h :
  (∀ os, saved = Some os → os_indexes os = ∅) →
  index_free h → index_free (Engine.rollback st saved h).
Proof.
  intros Hsaved H. destruct saved as [os|]; [|exact H].
  apply index_free_write_store; [by apply Hsaved|exact H].
Qed.

Lemma index_free_serve b st saved items :
  (∀ os, saved = Some os → os_indexes os = ∅) →
  ∀ aborted h, index_free h → index_free (Engine.serve b st saved aborted items h).2.
Proof.
  intros Hsaved.
  induction items as [|[e|v key] items IH]; intros aborted h H; simpl.
  - exact H.
  - specialize (IH aborted h H). destruct (Engine.serve b st saved aborted items h). exact IH.
  - destruct aborted.
    + set (h1 := Engine.record_event _ h). specialize (IH true h1 H).
      destruct (Engine.serve b st saved true items h1). exact IH.
    + assert (H1 : index_free
                (Engine.request st (Engine.put_rq b v) (Engine.store_record b v key) h).2).
      { apply index_free_request; [|exact H]. intros os a os'. apply store_record_indexes. }
      destruct (Engine.request st (Engine.put_rq b v) (Engine.store_record b v key) h)
        as [[k|e] h1]; simpl in H1.
      * specialize (IH false h1 H1). destruct (Engine.serve b st saved false items h1).
        exact IH.
      * specialize (IH true (Engine.rollback st saved h1)
                      (index_free_rollback st saved h1 Hsaved H1)).
        destruct (Engine.serve b st saved true items (Engine.rollback st saved h1)).
        exact IH.
Qed.

Lemma index_free_put_all b st values h :
  index_free h → index_free (Engine.put_all b st values h).2.
Proof.
  intros H. unfold Engine.put_all. pose proof (index_free_issue b st values h H) as H1.
  destruct (Engine.issue b st values h) as [items h1]. simpl in H1.
  apply index_free_serve; [|exact H1].
  intros os Hos. eapply index_free_lookup_store; eauto.
Qed.

Lemma plain_bind {A B} (m : M A) (f : A → M B) :
  plain m → (∀ a, plain (f a)) → plain (m ≫= f).
Proof.
  intros Hm Hf w H. rewrite bind_eq. specialize (Hm w H).
  destruct (m w) as [[a|e] w1]; simpl in *; [|exact Hm].
  by apply Hf.
Qed.

Lemma plain_promise {A} (rq : Browser → (A + EngineError) * Browser) :
  (∀ h, index_free h → index_free (rq h).2) → plain (promise rq).
Proof.
  intros Hrq w H. unfold promise. specialize (Hrq (host w) H).
  by destruct (rq (host w)) as [r h].
Qed.

Lemma plain_inert {A} (m : M A) : inert m → plain m.
Proof. intros Hm w H. destruct (Hm w) as [_ Hu]. eapply index_free_untouched; eauto. Qed.

Lemma plain_still {A} (m : M A) :
  (∀ w, databases (host (m w).2) = databases (host w)) → plain m.
Proof. intros Hm w H. eapply index_free_databases; eauto. Qed.

Lemma plain_transaction s mode : plain (Wrapper.transaction s mode).
Proof. apply plain_inert, inert_transaction. Qed.

Lemma plain_after_write {A B} s (body : IDBObjectStore → M A) (g : A → B) :
  (∀ st, plain (body st)) →
  plain (store ← Wrapper.transaction s readwrite;
         x ← body store;
         start (JNotify s);;
         mret (g x)).
Proof.
  intros Hbody. apply plain_bind; [apply plain_transaction|intros st].
  apply plain_bind; [apply Hbody|intros x].
  apply plain_bind; [by apply plain_still|intros _]. by apply plain_still.
Qed.

Lemma plain_bulk b st values : plain (bulk_body b values st).
Proof.
  unfold bulk_body. apply plain_bind.
  - apply plain_promise. intros h H.
    pose proof (index_free_put_all b st values h H) as H1.
    by destruct (Engine.put_all b st values h).
  - intros outs. apply plain_still. intros w. unfold Promise_all.
    by repeat case_match.
Qed.

Lemma plain_getAll s : plain (Wrapper.getAll s).
Proof.
  unfold Wrapper.getAll, Engine.getAll.
  apply plain_bind; [apply plain_transaction|intros st].
  apply plain_inert, inert_promise, untouched_read_request.
Qed.

Lemma plain_invoke cb data : plain (Wrapper.invoke cb data).
Proof. apply plain_still. intros w. rewrite invoke_eq. reflexivity. Qed.

Lemma plain_forEach arr data : plain (Wrapper.forEach arr data).
Proof.
  induction arr as [|cb arr IH]; simpl; [by apply plain_still|].
  apply plain_bind; [apply plain_invoke|intros _; exact IH].
Qed.

Lemma plain_close : plain Wrapper.close.
Proof.
  apply plain_still. intros w. unfold Wrapper.close. rewrite bind_eq. unfold await.
  by destruct (dbPromise (this w)).
Qed.

Lemma index_free_deleteDatabase name h :
  index_free h → index_free (Engine.deleteDatabase name h).2.
Proof.
  intros H. unfold Engine.deleteDatabase.
  pose proof (index_free_take_fault h H) as H0.
  destruct (Engine.take_fault h) as [[e|] h1]; simpl in *; [exact H0|].
  case_bool_decide; simpl; [exact H0|].
  apply index_free_intro. intros n d s os Hd Hs. simpl in Hd.
  apply lookup_delete_Some in Hd as [_ Hd]. eapply index_free_lookup; eauto.
Qed.

Lemma plain_deleteDatabase : plain Wrapper.deleteDatabase.
Proof.
  unfold Wrapper.deleteDatabase. apply plain_bind; [apply plain_close|intros _].
  apply plain_bind; [by apply plain_still|intros name].
  apply plain_bind; [apply plain_promise, index_free_deleteDatabase|intros blocked].
  apply plain_still. intros w. by destruct blocked.
Qed.

Lemma plain_perform c : plain (perform c).
Proof.
  destruct (reading c) eqn:Hc; [by apply plain_inert, inert_reading|].
  destruct c; try discriminate Hc; simpl; unfold fmapM;
    (apply plain_bind; [|by intros a; apply plain_still]).
  - apply (plain_after_write storeName (λ st, promise (Engine.put true st value)) id).
    intros st. apply plain_promise, index_free_put.
  - apply (plain_after_write storeName (λ st, promise (Engine.put false st value)) id).
    intros st. apply plain_promise, index_free_put.
  - apply (plain_after_write storeName (λ st, promise (Engine.delete st key)) (λ _, tt)).
    intros st. apply plain_promise, index_free_delete.
  - apply (plain_after_write storeName (λ st, promise (Engine.clear st)) (λ _, tt)).
    intros st. apply plain_promise, index_free_clear.
  - intros w. rewrite bulkAdd_shape.
    apply (plain_after_write storeName (bulk_body true values) id).
    intros st. apply plain_bulk.
  - intros w. rewrite bulkUpdate_shape.
    apply (plain_after_write storeName (bulk_body false values) id).
    intros st. apply plain_bulk.
  - apply plain_close.
  - apply plain_deleteDatabase.
Qed.

Lemma plain_job j : plain (job_body j).
Proof.
  destruct j as [s|s cb]; simpl.
  - unfold Wrapper.notify. apply plain_bind; [apply plain_getAll|intros data].
    apply plain_bind; [by apply plain_still|intros [arr|]].
    + apply plain_forEach.
    + by apply plain_still.
  - apply plain_bind; [apply plain_getAll|intros data]. apply plain_invoke.
Qed.

Lemma index_free_run_job j w : index_free (host w) → index_free (host (run_job j w)).
Proof.
  intros H. unfold run_job. pose proof (plain_job j w H) as H1.
  by destruct (job_body j w) as [[[]|e] w1].
Qed.

Lemma index_free_run_jobs w : index_free (host w) → index_free (host (run_jobs w)).
Proof.
  intros H. unfold run_jobs.
  assert (Hi : index_free (host (idle w))) by exact H.
  revert Hi. generalize (idle w). generalize (jobs (host w)).
  induction l as [|j l IH]; intros w0 H0; simpl; [exact H0|].
  by apply IH, index_free_run_job.
Qed.

Lemma index_free_unsubscribe s cb w :
  index_free (host w) → index_free (host (Wrapper.unsubscribe s cb w)).
Proof.
  intros H. unfold Wrapper.unsubscribe.
  destruct (subscribers (this w) !! s) as [arr|]; [|exact H].
  by destruct (Wrapper.indexOf arr cb).
Qed.

Lemma index_free_run acts : ∀ w,
  index_free (host w) → index_free (host (run acts w).2).
Proof.
  induction acts as [|[c|s cb|s cb|] acts IH]; intros w H; simpl.
  - exact H.
  - pose proof (plain_perform c w H) as H1.
    destruct (perform c w) as [out w1]. specialize (IH w1 H1).
    by destruct (run acts w1).
  - apply IH. exact H.
  - by apply IH, index_free_unsubscribe.
  - by apply IH, index_free_run_jobs.
Qed.

Lemma index_free_constructor name version stores h :
  index_free h → index_free (host (Wrapper.constructor name version stores h)).
Proof.
  intros H. unfold Wrapper.constructor, Wrapper.init, Engine.open.
  case_decide as Hv; [exact H|].
  pose proof (index_free_take_fault h H) as H0.
  destruct (Engine.take_fault h) as [[e|] h1]; simpl in *; [exact H0|].
  set (old := default (mkDatabase 0 ∅) (databases h1 !! name)).
  assert (Hold : ∀ s os, db_stores old !! s = Some os → os_indexes os = ∅).
  { intros s os Hs. unfold old in Hs.
    destruct (databases h1 !! name) as [d|] eqn:Hd; simpl in Hs; [|done].
    eapply index_free_lookup; eauto. }
  case_decide as Hlt; [exact H0|]. simpl.
  apply index_free_intro. intros n d s os Hd Hs. simpl in Hd.
  destruct (decide (n = name)) as [->|Hne].
  - rewrite lookup_insert_eq in Hd. injection Hd as <-.
    case_decide as Hup; [|by eapply Hold].
    simpl in Hs. destruct (onupgradeneeded_stores stores old) as [_ Hst].
    rewrite Hst in Hs. apply lookup_union_Some_raw in Hs as [Hs|[_ Hs]]; [by eapply Hold|].
    apply lookup_fmap_Some in Hs as (config & <- & _). reflexivity.
  - rewrite lookup_insert_ne in Hd by done. eapply index_free_lookup; eauto.
Qed.


(** X20: the class creates no index.  On a browser whose stores have no
    index, constructing an instance and then calling its methods,
    subscribing, unsubscribing and letting the notifications run, in any
    order and whatever fails on the way, leaves every store of every
    database without an index. *)
Theorem class_creates_no_index
    (name : string) (version : N) (stores : gmap string StoreConfig) (h : Browser)
    (acts : list Action) :
  index_free h →
  index_free (host (Wrapper.constructor name version stores h)) ∧
  index_free (host (run acts (Wrapper.constructor name version stores h)).2).
Proof.
  intros H. pose proof (index_free_constructor name version stores h H) as H1.
  split; [exact H1|]. by apply index_free_run.
Qed.

Lemma class_creates_no_index_witness :
  index_free (host (Wrapper.constructor "app" 1 Sample.schema Sample.fresh)) ∧
  index_free (host (run [Subscribe "users" (Sample.quiet 1); Do (CAdd "users" Sample.alice);
                         RunJobs; Do (CBulkUpdate "users" [Sample.carol]); Do CDeleteDatabase]
                      (Wrapper.constructor "app" 1 Sample.schema Sample.fresh)).2).
Proof.
  apply (class_creates_no_index "app" 1 Sample.schema Sample.fresh).
  apply (bool_decide_unpack _). vm_compute. exact I.
Defined.



(** ** [unsubscribe] and the initial delivery *)

Lemma unsubscribe_host s cb w :
  host (Wrapper.unsubscribe s cb w) = host w ∧
  dbPromise (this (Wrapper.unsubscribe s cb w)) = dbPromise (this w).
Proof. unfold Wrapper.unsubscribe. by repeat case_match. Qed.

(** X22: [unsubscribe] does not take back the initial delivery.  For a
    store whose name is not a member of [Object.prototype] and a callback
    that was not registered before, [subscribe] followed at once by
    [unsubscribe] leaves the listeners of the store as they were, but
    the delivery [subscribe] started still runs: on a usable store whose
    [getAll] is served the callback is called once, with the current
    records. *)
Theorem unsubscribe_keeps_first_delivery
    (s : string) (cb : Subscriber) (w : World) (os : ObjectStore) :
  inherited s = false →
  live w s → store_of w s = Some os → next_fault w = None →
  jobs (host w) = [] →
  Forall (λ l, ref l ≠ ref cb) (listeners w s) →
  listeners (Wrapper.unsubscribe s cb (Wrapper.subscribe s cb w)) s = listeners w s ∧
  deliveries (emitted w (run_jobs (Wrapper.unsubscribe s cb (Wrapper.subscribe s cb w))))
  = [(ref cb, snapshot os)].
Proof.
  intros _ Hl Hos Hf Hj Hfresh. split.
  - rewrite (listeners_unsubscribe_first s cb _ (listeners w s) []).
    + apply app_nil_r.
    + apply listeners_subscribe.
    + exact Hfresh.
  - set (w1 := Wrapper.unsubscribe s cb (Wrapper.subscribe s cb w)).
    destruct (unsubscribe_host s cb (Wrapper.subscribe s cb w)) as [Hh Hp].
    fold w1 in Hh, Hp. simpl in Hp.
    assert (Hjobs : jobs (host w1) = [JDeliver s cb]) by (rewrite Hh; simpl; by rewrite Hj).
    unfold run_jobs. rewrite Hjobs. simpl.
    assert (Hl1 : live (idle w1) s).
    { destruct Hl as (db & Hdb & He). exists db. simpl. rewrite Hp. split; [exact Hdb|].
      rewrite Hh. exact He. }
    assert (Hos1 : store_of (idle w1) s = Some os).
    { unfold store_of in *. simpl. rewrite Hp, Hh. exact Hos. }
    assert (Hf1 : next_fault (idle w1) = None).
    { unfold next_fault in *. simpl. rewrite Hh. exact Hf. }
    rewrite (run_deliver_eq s cb (idle w1) os Hl1 Hos1 Hf1). simpl.
    assert (Hlog : log (host (consumed (idle w1))) = log (host w)).
    { unfold consumed. simpl. rewrite Hh. simpl. by destruct (faults (host w)). }
    destruct (call cb (snapshot os)) as [e|];
      rewrite ?emitted_unhandled_by, emitted_logged by exact Hlog; reflexivity.
Qed.

Lemma unsubscribe_keeps_first_delivery_witness :
  listeners (Wrapper.unsubscribe "users" (Sample.quiet 1)
               (Wrapper.subscribe "users" (Sample.quiet 1) (run_jobs Sample.two_users))) "users"
  = listeners (run_jobs Sample.two_users) "users" ∧
  deliveries (emitted (run_jobs Sample.two_users)
                (run_jobs (Wrapper.unsubscribe "users" (Sample.quiet 1)
                             (Wrapper.subscribe "users" (Sample.quiet 1) (run_jobs Sample.two_users)))))
  = [(ref (Sample.quiet 1), snapshot (Sample.users (run_jobs Sample.two_users)))].
Proof.
  apply (unsubscribe_keeps_first_delivery "users" (Sample.quiet 1) (run_jobs Sample.two_users)
           (Sample.users (run_jobs Sample.two_users))).
  - vm_compute. reflexivity.
  - eexists. split; vm_compute; reflexivity.
  - vm_compute. reflexivity.
  - vm_compute. reflexivity.
  - vm_compute. reflexivity.
  - vm_compute. constructor.
Defined.
